(** * Zodipy: a shallow embedding of the emission interface and its source functions

    The development follows the Python sources:
    - [_source_functions.py]: [blackbody_emission], [blackbody_emission_wavelen],
      [interplanetary_temperature], [phase_function];
    - [_decorators.py]: [validate_frequency], [validate_angles],
      [validate_pixels];
    - [zodipy.py]: [Zodipy.get_emission] and its two helpers.

    Conventions.  numpy [float64] values are idealised as real numbers:
    the arithmetic is exact, without rounding, overflow or underflow.  What
    the source functions do in binary64, where that differs, is the subject
    of the module [Float64].  A Python exception is a value of type [exn];
    code that can raise returns a [result].  The collaborators that live
    outside the sources at hand (the ephemeris, healpy, the spectral
    interpolation and the line-of-sight integrator) are the members of three
    classes, [Ephemeris], [Healpy] and [Package]; every statement holds for
    all their instances, and the module [Sample] gives small instances on
    which the definitions run.

    The first part holds the definitions, source file by source file; the
    second part, from [SourceFunctionsFacts] on, holds the properties. *)

From Stdlib Require Import Floats.
From Stdlib Require Import Reals Lra Lia ZArith String Ascii ROrderedType.
From stdpp Require Import base option list strings gmap.

Open Scope R_scope.

(** The decimal constants of the sources are read as the nearest binary64
    value, as Python reads them. *)
Set Warnings "-inexact-float".

(** ** Python exceptions *)

Inductive spectral_unit := GHz | micron.

Inductive message :=
| MsgUnsupportedObserver (obs ephemeris : string)
| MsgPixelsWithoutNside
| MsgBinnedWithoutNside
| MsgMissingThetaOrPhi
| MsgPixelsAndAngles
| MsgLonlatWithoutAngles
| MsgModelRange (name : string) (lo hi : R) (unit : spectral_unit)
| MsgInvalidPixel
| MsgNumpy (what : string).

Inductive exn :=
| ValueError (msg : message)
| IndexError
| KeyError
| TypeError
| AxisError
| OverflowError.

Inductive result (A : Type) :=
| Ok (a : A)
| Raise (e : exn).
Arguments Ok {A} a.
Arguments Raise {A} e.

(** ** numpy values

    A Python argument is either an immutable float or a reference to an
    [ndarray] owned by the caller.  Arrays live in a store, so that two names
    for one array see each other's writes. *)

Module Numpy.

Abbreviation loc := nat.
Abbreviation store := (gmap nat (list R)).

Inductive pyval :=
| PFloat (x : R)
| PArray (l : loc).

(** What an expression evaluates to: a scalar or a fresh array. *)
Inductive data :=
| Scalar (x : R)
| Array (xs : list R).

(** Code that reads and writes the caller's arrays and may raise. *)
Definition Py (A : Type) : Type := store → result A * store.

Definition ret {A} (a : A) : Py A := λ σ, (Ok a, σ).
Definition raise {A} (e : exn) : Py A := λ σ, (Raise e, σ).
Definition bind {A B} (m : Py A) (f : A → Py B) : Py B :=
  λ σ, match m σ with
       | (Ok a, σ') => f a σ'
       | (Raise e, σ') => (Raise e, σ')
       end.

#[global] Instance Py_ret : MRet Py := @ret.
#[global] Instance Py_bind : MBind Py := λ A B f m, bind m f.

(** Reading a name. *)
Definition load (v : pyval) : Py data :=
  λ σ, match v with
       | PFloat x => (Ok (Scalar x), σ)
       | PArray l =>
           match σ !! l with
           | Some xs => (Ok (Array xs), σ)
           | None => (Raise TypeError, σ)
           end
       end.

(** [v *= k].  On a float the name is rebound to the product; on an
    [ndarray] the multiplication is done in place, in the caller's array. *)
Definition imul (v : pyval) (k : R) : Py pyval :=
  λ σ, match v with
       | PFloat x => (Ok (PFloat (x * k)), σ)
       | PArray l =>
           match σ !! l with
           | Some xs => (Ok (PArray l), <[l := (λ x, x * k) <$> xs]> σ)
           | None => (Raise TypeError, σ)
           end
       end.

(** A unary ufunc. *)
Definition map1 (f : R → R) (d : data) : data :=
  match d with
  | Scalar x => Scalar (f x)
  | Array xs => Array (f <$> xs)
  end.

(** A binary ufunc with numpy's broadcasting of scalars and one-element
    arrays. *)
Definition map2 (f : R → R → R) (d1 d2 : data) : result data :=
  match d1, d2 with
  | Scalar x, Scalar y => Ok (Scalar (f x y))
  | Scalar x, Array ys => Ok (Array (f x <$> ys))
  | Array xs, Scalar y => Ok (Array ((λ x, f x y) <$> xs))
  | Array xs, Array ys =>
      if decide (length xs = length ys) then Ok (Array (zip_with f xs ys))
      else match xs, ys with
           | [x], _ => Ok (Array (f x <$> ys))
           | _, [y] => Ok (Array ((λ x, f x y) <$> xs))
           | _, _ => Raise (ValueError (MsgNumpy "operands could not be broadcast together"))
           end
  end.

Definition lift {A} (r : result A) : Py A := λ σ, (r, σ).

(** [a.sum()] *)
Definition sum (xs : list R) : R := foldr Rplus 0 xs.

Definition dsum (d : data) : R :=
  match d with
  | Scalar x => x
  | Array xs => sum xs
  end.

End Numpy.

(** ** [_source_functions.py] *)

Module SourceFunctions.
Import Numpy.

(** [np.expm1] in exact arithmetic; in binary64 it overflows to infinity,
    see [Float64.np_expm1]. *)
Definition expm1 (x : R) : R := exp x - 1.

(** [astropy.constants]: Planck's constant, the speed of light and
    Boltzmann's constant, in SI units. *)
Class Constants := { h : R; c : R; k_B : R }.

Section Blackbody.
Context `{Constants}.

Definition blackbody_emission (T freq : pyval) : Py data :=
  freq ← imul freq 1e9;
  f ← load freq;
  t ← load T;
  let term1 := map1 (λ f, (2 * h * f ^ 3) / c ^ 2) f in
  x ← lift (map2 (λ f t, (h * f) / (k_B * t)) f t);
  let term2 := map1 expm1 x in
  lift (map2 Rdiv term1 term2).

Definition blackbody_emission_wavelen (T wavelen : pyval) : Py data :=
  wavelen ← imul wavelen 1e-6;
  w ← load wavelen;
  t ← load T;
  let term1 := map1 (λ w, (2 * h * c ^ 2) / w ^ 5) w in
  x ← lift (map2 (λ w t, (h * c) / (w * k_B * t)) w t);
  let term2 := map1 expm1 x in
  lift (map2 Rdiv term1 term2).

(** Planck's law at a frequency in Hz. *)
Definition planck (T nu : R) : R :=
  (2 * h * nu ^ 3 / c ^ 2) / (exp (h * nu / (k_B * T)) - 1).
End Blackbody.

(** [R ** -delta] in exact arithmetic, for distances [R > 0]. *)
Definition interplanetary_temperature (R_ : pyval) (T_0 delta : R) : Py data :=
  r ← load R_;
  mret (map1 (λ r, T_0 * Rpower r (- delta)) r).

(** [C[i]] on a Python sequence. *)
Definition item (C : list R) (i : nat) : result R :=
  match C !! i with
  | Some x => Ok x
  | None => Raise IndexError
  end.

Definition unnormalized (c0 c1 c2 : R) (theta : R) : R :=
  c0 + c1 * theta + exp (c2 * theta).

Definition phase_function (Theta : pyval) (C : list R) : Py data :=
  c0 ← lift (item C 0);
  c1 ← lift (item C 1);
  th ← load Theta;
  c2 ← lift (item C 2);
  let phase := map1 (unnormalized c0 c1 c2) th in
  let N := 1 / dsum phase in
  mret (map1 (λ p, N * p) phase).

End SourceFunctions.

(** ** [_source_functions.py] in binary64

    The same functions on Python floats and [float64] arrays, with the
    arithmetic of IEEE 754 binary64.  [h], [c] and [k_B] are numpy scalars,
    so that a division by zero or an overflow among them gives an infinity
    or a nan and raises nothing; [freq ** 3] and [wavelen ** 5] are powers
    of a Python float and raise [OverflowError]. *)

Module Float64.

(** The functions of the C library and of numpy that the sources call.
    Their values are fixed by the platform; only what holds on every
    platform is assumed of them: [exp(0) = 1], [expm1] overflows from 710
    on (the largest binary64 number is below [e^710]), and the sum of two
    positive entries is their binary64 sum. *)
Class Libm := {
  np_exp : float → float;
  np_expm1 : float → float;
  c_pow : float → float → float;
  np_sum : list float → float;
  np_exp_0 : np_exp 0 = 1%float;
  np_expm1_overflow : ∀ x, (710 <=? x)%float = true → np_expm1 x = infinity;
  np_sum_pair : ∀ x y,
    (0 <? x)%float = true → (0 <? y)%float = true →
    np_sum [x; y] = (x + y)%float
}.

(** [astropy.constants], as binary64 values. *)
Class Constants := { h : float; c : float; k_B : float }.

(** [C[i]] on a Python sequence. *)
Definition item (C : list float) (i : nat) : result float :=
  match C !! i with
  | Some x => Ok x
  | None => Raise IndexError
  end.

Section Functions.
Context `{Libm, Constants}.

(** [x ** y] on Python floats: an overflow of the C function is an
    [OverflowError]. *)
Definition float_pow (x y : float) : result float :=
  let r := c_pow x y in
  if is_finite x && is_finite y && is_infinity r then Raise OverflowError
  else Ok r.

Definition blackbody_emission (T freq : float) : result float :=
  let freq := (freq * 1e9)%float in
  match float_pow freq 3 with
  | Raise e => Raise e
  | Ok cube =>
      let term1 := ((2 * h * cube) / c_pow c 2)%float in
      let term2 := np_expm1 ((h * freq) / (k_B * T))%float in
      Ok (term1 / term2)%float
  end.

Definition blackbody_emission_wavelen (T wavelen : float) : result float :=
  let wavelen := (wavelen * 1e-6)%float in
  let c2 := c_pow c 2 in
  match float_pow wavelen 5 with
  | Raise e => Raise e
  | Ok w5 =>
      let term1 := ((2 * h * c2) / w5)%float in
      let term2 := np_expm1 ((h * c) / (wavelen * k_B * T))%float in
      Ok (term1 / term2)%float
  end.

Definition phase_function (Theta C : list float) : result (list float) :=
  match item C 0, item C 1, item C 2 with
  | Ok c0, Ok c1, Ok c2 =>
      let phase := (λ θ, c0 + c1 * θ + np_exp (c2 * θ))%float <$> Theta in
      let N := (1 / np_sum phase)%float in
      Ok ((λ p, N * p)%float <$> phase)
  | Raise e, _, _ | _, Raise e, _ | _, _, Raise e => Raise e
  end.

End Functions.
End Float64.

(** ** Calls into the collaborators

    The orchestration code calls the ephemeris, healpy, the interpolation
    and the integrator.  Each call is recorded, so that what happened before
    an exception was raised can be read off the trace. *)

(** Modelled from the spec: the labels of [_labels.CompLabel], one for the
    smooth cloud, one for each of the three asteroidal bands, one for the
    circumsolar ring and one for the Earth-trailing feature.  The code at
    hand names [CompLabel.CLOUD] only. *)
Inductive CompLabel := CLOUD | BAND1 | BAND2 | BAND3 | RING | FEATURE.

#[global] Instance CompLabel_eq_dec : EqDecision CompLabel.
Proof. solve_decision. Defined.

(** A position or a direction, in cartesian coordinates. *)
Record Vec3 := mkVec3 { vx : R; vy : R; vz : R }.

(** [coord_out]: ecliptic, galactic or celestial coordinates. *)
Inductive coord := E | G | C.

#[global] Instance coord_eq_dec : EqDecision coord.
Proof. solve_decision. Defined.

(** The calls that [get_emission] and its two helpers make to the
    ephemeris ([get_body]), to the interpolation, to healpy ([pix2vec],
    [ang2vec] and [ang2pix] with the number of directions they are given,
    [nside2npix], and the rotation out of [coord_out]) and to the
    integrator, with its component, the positions of the observer and of the
    Earth, and its lines of sight. *)
Inductive event :=
| EvGetBody (body : string)
| EvInterpPhaseCoeffs
| EvInterpSpectralParams
| EvPix2Vec (n : nat)
| EvAng2Vec (n : nat)
| EvAng2Pix (n : nat)
| EvNside2Npix (nside : Z)
| EvRotator (coord_out : coord)
| EvTrapezoidal (label : CompLabel) (observer_pos earth_pos : Vec3)
    (unit_vectors : list Vec3).

Definition Run (A : Type) : Type := list event * result A.

Module Run.
Definition ret {A} (a : A) : Run A := ([], Ok a).
Definition raise {A} (e : exn) : Run A := ([], Raise e).
Definition emit (ev : event) : Run unit := ([ev], Ok tt).
Definition lift {A} (r : result A) : Run A := ([], r).
Definition bind {A B} (m : Run A) (f : A → Run B) : Run B :=
  match m with
  | (t, Ok a) => let '(t', r) := f a in (t ++ t', r)
  | (t, Raise e) => (t, Raise e)
  end.
Definition trace {A} (m : Run A) : list event := fst m.
Definition outcome {A} (m : Run A) : result A := snd m.
End Run.

#[global] Instance Run_ret : MRet Run := @Run.ret.
#[global] Instance Run_bind : MBind Run := λ A B f m, Run.bind m f.

(** ** Quantities *)

Inductive spectral :=
| Frequency (hz : R)
| Wavelength (m : R).

Definition speed_of_light : R := 299792458.

(** [q.to(unit, equivalencies=u.spectral())] *)
Definition to_unit (q : spectral) (u : spectral_unit) : R :=
  match q, u with
  | Frequency hz, GHz => hz / 1e9
  | Wavelength m, GHz => speed_of_light / m / 1e9
  | Frequency hz, micron => speed_of_light / hz * 1e6
  | Wavelength m, micron => m * 1e6
  end.

(** [pixels]: one HEALPix index or a sequence of them, of an integer
    dtype.  An empty Python list is outside the model: numpy reads it as an
    array of [float64]. *)
Inductive pixels_arg :=
| PixInt (p : Z)
| PixSeq (ps : list Z).

(** [hp.nside2npix] *)
Definition nside2npix (nside : Z) : Z := (12 * nside * nside)%Z.

(** ** [_decorators.py] *)

Module Decorators.

(** The attributes of the interface object that [validate_frequency] reads. *)
Record zodipy_attrs := {
  extrapolate : bool;
  model_name : string;
  spectrum : list R;
  spectrum_unit : spectral_unit
}.

(** [a.min()] and [a.max()]; numpy raises on an empty array. *)
Definition amin (xs : list R) : result R :=
  match xs with
  | [] => Raise (ValueError (MsgNumpy "zero-size array to reduction operation minimum which has no identity"))
  | x :: xs' => Ok (foldr Rmin x xs')
  end.

Definition amax (xs : list R) : result R :=
  match xs with
  | [] => Raise (ValueError (MsgNumpy "zero-size array to reduction operation maximum which has no identity"))
  | x :: xs' => Ok (foldr Rmax x xs')
  end.

Definition validate_frequency {A} (function : R → Run A)
    (self : zodipy_attrs) (freq : spectral) : Run A :=
  _ ← (if negb (extrapolate self) then
         let f := to_unit freq (spectrum_unit self) in
         spectrum_min ← Run.lift (amin (spectrum self));
         spectrum_max ← Run.lift (amax (spectrum self));
         if Rle_dec spectrum_min f then
           if Rle_dec f spectrum_max then mret tt
           else Run.raise (ValueError (MsgModelRange (model_name self)
                             spectrum_min spectrum_max (spectrum_unit self)))
         else Run.raise (ValueError (MsgModelRange (model_name self)
                           spectrum_min spectrum_max (spectrum_unit self)))
       else mret tt);
  function (to_unit freq GHz).

(** [np.max(pixels)] *)
Definition np_max (pixels : pixels_arg) : result Z :=
  match pixels with
  | PixInt p => Ok p
  | PixSeq [] => Raise (ValueError (MsgNumpy "zero-size array to reduction operation maximum which has no identity"))
  | PixSeq (p :: ps) => Ok (foldr Z.max p ps)
  end.

Definition validate_pixels {A} (function : list Z → Z → Run A)
    (pixels : pixels_arg) (nside : Z) : Run A :=
  let max_pixel_number := nside2npix nside in
  m ← Run.lift (np_max pixels);
  if (m >? max_pixel_number)%Z then Run.raise (ValueError MsgInvalidPixel)
  else
    let pixels := match pixels with PixInt p => [p] | PixSeq ps => ps end in
    function pixels nside.

End Decorators.

(** ** numpy array helpers used by [zodipy.py] *)

Module Arrays.

(** [np.unique]: the sorted distinct values, with the number of occurrences
    of each ([return_counts]) or with the position of every input element in
    the sorted distinct values ([return_inverse]). *)
Section Unique.
Context {A : Type} (cmp : A → A → comparison).

Definition same (x y : A) : bool :=
  match cmp x y with Eq => true | _ => false end.

Fixpoint insert_sorted (x : A) (l : list A) : list A :=
  match l with
  | [] => [x]
  | y :: l' =>
      match cmp x y with
      | Lt => x :: y :: l'
      | Eq => y :: l'
      | Gt => y :: insert_sorted x l'
      end
  end.

Definition unique (l : list A) : list A := foldr insert_sorted [] l.

Fixpoint occurrences (x : A) (l : list A) : nat :=
  match l with
  | [] => 0
  | y :: l' => if same y x then S (occurrences x l') else occurrences x l'
  end.

Fixpoint index_of (x : A) (u : list A) : nat :=
  match u with
  | [] => 0
  | y :: u' => if same x y then 0 else S (index_of x u')
  end.

Definition unique_counts (l : list A) : list A * list nat :=
  let u := unique l in (u, (λ x, occurrences x l) <$> u).

Definition unique_inverse (l : list A) : list A * list nat :=
  let u := unique l in (u, (λ x, index_of x u) <$> l).

(** Every element is below all the later ones. *)
Fixpoint increasing (l : list A) : Prop :=
  match l with
  | [] => True
  | x :: l' => Forall (λ y, cmp x y = Lt) l' ∧ increasing l'
  end.
End Unique.

(** Columns of a [2 x n] array are ordered by the first row, then the
    second. *)
Definition cmp_column (a b : R * R) : comparison :=
  match Rcompare a.1 b.1 with
  | Eq => Rcompare a.2 b.2
  | o => o
  end.

(** An index into an axis of length [n]: negative indices count from the
    end, anything else out of range raises. *)
Definition normalize_index (n : nat) (i : Z) : result nat :=
  if decide (0 ≤ i < Z.of_nat n)%Z then Ok (Z.to_nat i)
  else if decide (- Z.of_nat n ≤ i < 0)%Z then Ok (Z.to_nat (i + Z.of_nat n))
  else Raise IndexError.

Fixpoint normalize_indices (n : nat) (idx : list Z) : result (list nat) :=
  match idx with
  | [] => Ok []
  | i :: idx' =>
      match normalize_index n i with
      | Raise e => Raise e
      | Ok j =>
          match normalize_indices n idx' with
          | Raise e => Raise e
          | Ok js => Ok (j :: js)
          end
      end
  end.

(** Broadcasting of a one-dimensional value to a given length. *)
Definition broadcast_to {A} (n : nat) (vals : list A) : result (list A) :=
  if decide (length vals = n) then Ok vals
  else match vals with
       | [v] => Ok (replicate n v)
       | _ => Raise (ValueError (MsgNumpy "shape mismatch: value array could not be broadcast to indexing result"))
       end.

(** The writes of [a[idx] = vals], done in order: of two writes to one
    cell the later one stays. *)
Fixpoint write_all {A} (a : list A) (idx : list nat) (vals : list A) : list A :=
  match idx, vals with
  | i :: idx', v :: vals' => write_all (<[i := v]> a) idx' vals'
  | _, _ => a
  end.

(** [a[idx] = vals] with an integer array index. *)
Definition setitem {A} (a : list A) (idx : list Z) (vals : list A) : result (list A) :=
  match normalize_indices (length a) idx with
  | Raise e => Raise e
  | Ok js =>
      match broadcast_to (length js) vals with
      | Raise e => Raise e
      | Ok vs => Ok (write_all a js vs)
      end
  end.

Fixpoint take_all {A} (a : list A) (js : list nat) : result (list A) :=
  match js with
  | [] => Ok []
  | j :: js' =>
      match a !! j with
      | None => Raise IndexError
      | Some x =>
          match take_all a js' with
          | Raise e => Raise e
          | Ok xs => Ok (x :: xs)
          end
      end
  end.

(** [a[idx]] with an integer array index. *)
Definition getitem {A} (a : list A) (idx : list Z) : result (list A) :=
  match normalize_indices (length a) idx with
  | Raise e => Raise e
  | Ok js => take_all a js
  end.

(** [a[idx] *= k]: read the cells, multiply, write them back. *)
Definition imul_at (a : list R) (idx : list Z) (k : list R) : result (list R) :=
  match getitem a idx with
  | Raise e => Raise e
  | Ok cells =>
      match broadcast_to (length cells) k with
      | Raise e => Raise e
      | Ok ks => setitem a idx (zip_with Rmult cells ks)
      end
  end.

(** [np.zeros(n)] *)
Definition zeros (n : nat) : list R := replicate n 0.

(** [a.sum(axis=0)] of an array with [ncols] columns. *)
Definition sum_axis0 (ncols : nat) (rows : list (list R)) : list R :=
  foldr (zip_with Rplus) (zeros ncols) rows.

End Arrays.

(** ** [zodipy.py] *)

Module Zodipy.
Import Arrays.

(** [np.linalg.norm] *)
Definition norm (v : Vec3) : R := sqrt (vx v * vx v + vy v * vy v + vz v * vz v).
Definition vdiv (v : Vec3) (k : R) : Vec3 := mkVec3 (vx v / k) (vy v / k) (vz v / k).
Definition vmul (v : Vec3) (k : R) : Vec3 := mkVec3 (vx v * k) (vy v * k) (vz v * k).

Inductive angle_unit := rad | deg.

(** An angle [Quantity]: a scalar, held as a one-element sequence, or a
    one-dimensional array of another size.  An array of one element is
    outside the model: lines 180-181 turn it into a [1 x 1] array. *)
Record angles := mkAngles { aunit : angle_unit; avalue : list R }.

(** [q.to(u.deg)] *)
Definition to_deg (q : angles) : angles :=
  match aunit q with
  | deg => q
  | rad => mkAngles deg ((λ x, x * (180 / PI)) <$> avalue q)
  end.

(** [astropy.coordinates]: the bodies of the loaded ephemeris, and the
    position of a body at a time, as heliocentric mean ecliptic cartesian
    coordinates in AU. *)
Class Ephemeris := {
  Time : Type;
  ephemeris_value : string;
  bodies : list string;
  get_body : string → Time → Vec3
}.

(** [healpy] *)
Class Healpy := {
  pix2vec : Z → Z → Vec3;
  ang2vec : R → R → bool → Vec3;
  ang2pix : Z → R → R → bool → Z;
  Rotator : coord → Vec3 → Vec3
}.

(** Modelled from the spec: the modules [_model], [_interp], [_los_config]
    and [_integral] of the package.  The interpolation gives, at a frequency
    in GHz, the phase coefficients and for each component label the
    emissivity and the albedo; the integrator gives one emission value per
    line of sight. *)
Class Package := {
  Component : Type;
  X_0 : Component → Vec3;
  SpectralTable : Type;
  PhaseCoeffs : Type;
  LineOfSight : Type;
  ColorCorr : Type;
  interp_phase_coeffs : R → SpectralTable → SpectralTable → PhaseCoeffs;
  interp_comp_spectral_params :
    R → SpectralTable → SpectralTable → SpectralTable → SpectralTable →
    CompLabel → option (R * R);
  trapezoidal :
    Component → R → LineOfSight → Vec3 → Vec3 → list Vec3 → Vec3 → R → R →
    R → R → PhaseCoeffs → option ColorCorr → list R
}.

(** L2 is not in the ephemeris: it is taken at a constant distance radially
    from the Earth. *)
Definition ADDITIONAL_SUPPORTED_OBSERVERS : list string := ["semb-l2"%string].
Definition DISTANCE_FROM_EARTH_TO_L2 : R := 0.009896235034000056.

(** W/Hz/m^2/sr to MJy/sr *)
Definition MJy_per_W : R := 1e20.

(** [str.lower], on ASCII *)
Definition lower_ascii (a : ascii) : ascii :=
  let n := nat_of_ascii a in
  if ((65 <=? n) && (n <=? 90))%nat then ascii_of_nat (n + 32) else a.

Fixpoint lower (s : string) : string :=
  match s with
  | EmptyString => EmptyString
  | String a s' => String (lower_ascii a) (lower s')
  end.

Section Interface.
Context `{Ephemeris, Healpy, Package}.

Record InterplanetaryDustModel := {
  comps : list (CompLabel * Component);
  emissivities : SpectralTable;
  emissivity_spectrum : SpectralTable;
  albedos : SpectralTable;
  albedo_spectrum : SpectralTable;
  phase_coeffs : SpectralTable;
  phase_coeffs_spectrum : SpectralTable;
  T_0 : R;
  delta : R
}.

Record Zodipy := {
  _model : InterplanetaryDustModel;
  _line_of_sights : CompLabel → option LineOfSight
}.

Definition observers : list string := bodies ++ ADDITIONAL_SUPPORTED_OBSERVERS.

Record arguments := {
  freq : spectral;
  obs_time : Time;
  obs : string;
  obs_pos : option Vec3;
  pixels : option pixels_arg;
  theta : option angles;
  phi : option angles;
  nside : option Z;
  lonlat : bool;
  binned : bool;
  return_comps : bool;
  coord_out : coord;
  colorcorr_table : option ColorCorr
}.

Inductive emission_out :=
| PerComponent (rows : list (list R))
| Total (row : list R).

(** The pointing after the checks of lines 153-196: the pixels as a
    sequence, the angles in the unit asked for by [lonlat]. *)
Record pointing := {
  p_pixels : option (list Z);
  p_theta : option (list R);
  p_phi : option (list R)
}.

(** [np.expand_dims(pixels, axis=0) if np.size(pixels) == 1 else pixels].
    A one-element sequence becomes a [1 x 1] array, which [np.unique] and
    [len] treat as that one-element sequence. *)
Definition pixel_sequence (p : pixels_arg) : list Z :=
  match p with
  | PixInt p => [p]
  | PixSeq ps => ps
  end.

(** Lines 182-184: with [lonlat] the angles are read in degrees. *)
Definition conv (a : arguments) : angles → angles :=
  if lonlat a then to_deg else λ q, q.

(** Lines 153-196. *)
Definition check_arguments (a : arguments) : result pointing :=
  if decide (lower (obs a) ∈ observers) then
    match (match pixels a with
           | Some p =>
               match nside a with
               | None => Raise (ValueError MsgPixelsWithoutNside)
               | Some _ => Ok (Some (pixel_sequence p))
               end
           | None => Ok None
           end) with
    | Raise e => Raise e
    | Ok pix =>
        if binned a && bool_decide (nside a = None) then
          Raise (ValueError MsgBinnedWithoutNside)
        else
          match theta a, phi a with
          | Some _, None | None, Some _ => Raise (ValueError MsgMissingThetaOrPhi)
          | th, ph =>
              let th := conv a <$> th in
              let ph := conv a <$> ph in
              match pix with
              | Some _ =>
                  if bool_decide (ph ≠ None) || bool_decide (th ≠ None) then
                    Raise (ValueError MsgPixelsAndAngles)
                  else if lonlat a then
                    Raise (ValueError MsgLonlatWithoutAngles)
                  else Ok {| p_pixels := pix; p_theta := None; p_phi := None |}
              | None =>
                  Ok {| p_pixels := None;
                        p_theta := avalue <$> th; p_phi := avalue <$> ph |}
              end
          end
    end
  else Raise (ValueError (MsgUnsupportedObserver (obs a) ephemeris_value)).

(** Lines 205-209. *)
Definition semb_l2_position (earth_pos : Vec3) : Vec3 :=
  let earth_length := norm earth_pos in
  let earth_unit_vec := vdiv earth_pos earth_length in
  let semb_l2_length := earth_length + DISTANCE_FROM_EARTH_TO_L2 in
  vmul earth_unit_vec semb_l2_length.

Definition call_get_body (body : string) (t : Time) : Run Vec3 :=
  _ ← Run.emit (EvGetBody body); mret (get_body body t).

(** Lines 200-213: the positions of the Earth and of the observer. *)
Definition resolve_positions (a : arguments) : Run (Vec3 * Vec3) :=
  earth_pos ← call_get_body "Earth" (obs_time a);
  obs_pos ← match obs_pos a with
            | Some p => mret p
            | None =>
                if String.eqb (lower (obs a)) "semb-l2"
                then mret (semb_l2_position earth_pos)
                else call_get_body (obs a) (obs_time a)
            end;
  mret (earth_pos, obs_pos).

Definition _rotated_pix2vec (pixels : list Z) (nside : Z) (coord_out : coord)
    : Run (list Vec3) :=
  _ ← Run.emit (EvPix2Vec (length pixels));
  let unit_vectors := pix2vec nside <$> pixels in
  if decide (coord_out ≠ E) then
    _ ← Run.emit (EvRotator coord_out);
    mret (Rotator coord_out <$> unit_vectors)
  else mret unit_vectors.

Definition _rotated_ang2vec (phi theta : list R) (lonlat : bool) (coord_out : coord)
    : Run (list Vec3) :=
  _ ← Run.emit (EvAng2Vec (length phi));
  let unit_vectors := zip_with (λ p t, ang2vec p t lonlat) phi theta in
  if decide (coord_out ≠ E) then
    _ ← Run.emit (EvRotator coord_out);
    mret (Rotator coord_out <$> unit_vectors)
  else mret unit_vectors.

(** [model.comps[CompLabel.CLOUD]] *)
Fixpoint lookup_comp (label : CompLabel) (cs : list (CompLabel * Component))
    : result Component :=
  match cs with
  | [] => Raise KeyError
  | (l, c) :: cs' => if decide (l = label) then Ok c else lookup_comp label cs'
  end.

(** What the calls of the integrator in one [get_emission] share, whatever
    the pointing. *)
Record shared := {
  s_freq : R;
  s_observer_pos : Vec3;
  s_earth_pos : Vec3;
  s_cloud_offset : Vec3;
  s_spectral : CompLabel → option (R * R);
  s_phase_coeffs : PhaseCoeffs
}.

(** One call of [trapezoidal], lines 257-271 and 297-311. *)
Definition call_trapezoidal (self : Zodipy) (a : arguments) (s : shared)
    (unit_vectors : list Vec3) (label : CompLabel) (component : Component)
    : Run (list R) :=
  match _line_of_sights self label, s_spectral s label with
  | Some line_of_sight, Some (emissivity, albedo) =>
      _ ← Run.emit (EvTrapezoidal label (s_observer_pos s) (s_earth_pos s)
                      unit_vectors);
      mret (trapezoidal component (s_freq s) line_of_sight
              (s_observer_pos s) (s_earth_pos s) unit_vectors
              (s_cloud_offset s) (T_0 (_model self)) (delta (_model self))
              emissivity albedo (s_phase_coeffs s) (colorcorr_table a))
  | _, _ => Run.raise KeyError
  end.

(** [np.asarray([theta, phi])] and its columns. *)
Definition columns (theta phi : option (list R)) : result (list (R * R)) :=
  match theta, phi with
  | Some th, Some ph =>
      if decide (length th = length ph) then Ok (zip th ph)
      else Raise (ValueError (MsgNumpy "setting an array element with a sequence"))
  | _, _ => Raise AxisError
  end.

(** Lines 256-271: the rows of the map, one per component. *)
Fixpoint binned_rows (self : Zodipy) (a : arguments) (s : shared)
    (unit_vectors : list Vec3) (npix : nat) (unique_pixels : list Z)
    (cs : list (CompLabel * Component)) : Run (list (list R)) :=
  match cs with
  | [] => mret []
  | (label, component) :: cs' =>
      integrated ← call_trapezoidal self a s unit_vectors label component;
      row ← Run.lift (setitem (zeros npix) unique_pixels integrated);
      rows ← binned_rows self a s unit_vectors npix unique_pixels cs';
      mret (row :: rows)
  end.

(** Line 273: [emission[:, unique_pixels] *= counts]. *)
Fixpoint scale_rows (rows : list (list R)) (unique_pixels : list Z)
    (counts : list nat) : result (list (list R)) :=
  match rows with
  | [] => Ok []
  | row :: rows' =>
      match imul_at row unique_pixels (INR <$> counts) with
      | Raise e => Raise e
      | Ok row' =>
          match scale_rows rows' unique_pixels counts with
          | Raise e => Raise e
          | Ok rs => Ok (row' :: rs)
          end
      end
  end.

(** Lines 296-313: the rows of the timestream, one per component. *)
Fixpoint timestream_rows (self : Zodipy) (a : arguments) (s : shared)
    (unit_vectors : list Vec3) (indicies : list nat)
    (cs : list (CompLabel * Component)) : Run (list (list R)) :=
  match cs with
  | [] => mret []
  | (label, component) :: cs' =>
      integrated_comp_emission ←
        call_trapezoidal self a s unit_vectors label component;
      row ← Run.lift (getitem integrated_comp_emission (Z.of_nat <$> indicies));
      rows ← timestream_rows self a s unit_vectors indicies cs';
      mret (row :: rows)
  end.

(** Line 255: the number of pixels of the map, [hp.nside2npix(nside)].
    Where [nside] is read below the checks have made sure that it is there:
    it comes with the pixels and with [binned]. *)
Definition map_size (a : arguments) : nat :=
  Z.to_nat (nside2npix (default 0%Z (nside a))).

(** Lines 315-318: the result in MJy/sr, by component or summed. *)
Definition finish (a : arguments) (ncols : nat) (rows : list (list R))
    : emission_out :=
  let emission := fmap (M := list) (λ x, x * MJy_per_W) <$> rows in
  if return_comps a then PerComponent emission
  else Total (sum_axis0 ncols emission).

(** Lines 198-233: the positions, the frequency in GHz, the interpolated
    spectral parameters and the offset of the cloud. *)
Definition prepare (self : Zodipy) (a : arguments) : Run shared :=
  let model := _model self in
  '(earth_pos, obs_pos) ← resolve_positions a;
  let freq := to_unit (freq a) GHz in
  _ ← Run.emit EvInterpPhaseCoeffs;
  let phase_coeffs :=
    interp_phase_coeffs freq (phase_coeffs model) (phase_coeffs_spectrum model) in
  _ ← Run.emit EvInterpSpectralParams;
  let spectral_comp_parameters :=
    interp_comp_spectral_params freq (emissivities model)
      (emissivity_spectrum model) (albedos model) (albedo_spectrum model) in
  cloud ← Run.lift (lookup_comp CLOUD (comps model));
  let cloud_offset := X_0 cloud in
  mret {| s_freq := freq; s_observer_pos := obs_pos; s_earth_pos := earth_pos;
          s_cloud_offset := cloud_offset;
          s_spectral := spectral_comp_parameters;
          s_phase_coeffs := phase_coeffs |}.

(** Lines 235-273: the binned map. *)
Definition binned_emission (self : Zodipy) (a : arguments) (p : pointing)
    (s : shared) : Run (nat * list (list R)) :=
  let model := _model self in
  '(unique_pixels, counts, unit_vectors) ←
    match p_pixels p with
    | Some pixels =>
        let '(unique_pixels, counts) := unique_counts Z.compare pixels in
        unit_vectors ← _rotated_pix2vec unique_pixels (default 0%Z (nside a))
                         (coord_out a);
        mret (unique_pixels, counts, unit_vectors)
    | None =>
        cols ← Run.lift (columns (p_theta p) (p_phi p));
        let '(unique_angles, counts) := unique_counts cmp_column cols in
        _ ← Run.emit (EvAng2Pix (length unique_angles));
        let unique_pixels :=
          (λ c, ang2pix (default 0%Z (nside a)) c.1 c.2 (lonlat a))
            <$> unique_angles in
        unit_vectors ← _rotated_ang2vec unique_angles.*1 unique_angles.*2
                         (lonlat a) (coord_out a);
        mret (unique_pixels, counts, unit_vectors)
    end;
  _ ← Run.emit (EvNside2Npix (default 0%Z (nside a)));
  let npix := map_size a in
  rows ← binned_rows self a s unit_vectors npix unique_pixels (comps model);
  rows ← Run.lift (scale_rows rows unique_pixels counts);
  mret (npix, rows).

(** Lines 275-313: the timestream. *)
Definition timestream_emission (self : Zodipy) (a : arguments) (p : pointing)
    (s : shared) : Run (nat * list (list R)) :=
  let model := _model self in
  '(n, indicies, unit_vectors) ←
    match p_pixels p with
    | Some pixels =>
        let '(unique_pixels, indicies) := unique_inverse Z.compare pixels in
        unit_vectors ← _rotated_pix2vec unique_pixels (default 0%Z (nside a))
                         (coord_out a);
        mret (length pixels, indicies, unit_vectors)
    | None =>
        cols ← Run.lift (columns (p_theta p) (p_phi p));
        let '(unique_angles, indicies) := unique_inverse cmp_column cols in
        unit_vectors ← _rotated_ang2vec unique_angles.*1 unique_angles.*2
                         (lonlat a) (coord_out a);
        mret (length cols, indicies, unit_vectors)
    end;
  rows ← timestream_rows self a s unit_vectors indicies (comps model);
  mret (n, rows).

(** Lines 198-318, entered once the arguments have been checked. *)
Definition compute (self : Zodipy) (a : arguments) (p : pointing)
    : Run emission_out :=
  s ← prepare self a;
  '(ncols, emission) ←
    (if binned a then binned_emission self a p s
     else timestream_emission self a p s);
  mret (finish a ncols emission).

Definition get_emission (self : Zodipy) (a : arguments) : Run emission_out :=
  p ← Run.lift (check_arguments a);
  compute self a p.

(** *** Vocabulary of the statements *)

(** The rows of a result: one per component, or the single total. *)
Definition out_rows (o : emission_out) : list (list R) :=
  match o with
  | PerComponent rows => rows
  | Total row => [row]
  end.

(** Two positions of a row hold one value. *)
Definition agree (i j : nat) (row : list R) : Prop :=
  ∃ v, row !! i = Some v ∧ row !! j = Some v.

(** A requested direction, as the caller wrote it. *)
Inductive direction :=
| AtPixel (p : Z)
| AtAngles (theta phi : R).

Definition requested (a : arguments) : list direction :=
  match pixels a, theta a, phi a with
  | Some p, _, _ => AtPixel <$> pixel_sequence p
  | None, Some th, Some ph => zip_with AtAngles (avalue th) (avalue ph)
  | None, _, _ => []
  end.

(** The HEALPix pixel of every requested direction, in input order. *)
Definition pixelized (a : arguments) : list Z :=
  match pixels a, theta a, phi a with
  | Some p, _, _ => pixel_sequence p
  | None, Some th, Some ph =>
      zip_with (λ t p, ang2pix (default 0%Z (nside a)) t p (lonlat a))
        (avalue (conv a th)) (avalue (conv a ph))
  | None, _, _ => []
  end.

(** What each message of [get_emission] complains about. *)
Definition complains_about (a : arguments) (msg : message) : Prop :=
  match msg with
  | MsgUnsupportedObserver o e =>
      o = obs a ∧ e = ephemeris_value ∧ lower (obs a) ∉ observers
  | MsgPixelsWithoutNside => pixels a ≠ None ∧ nside a = None
  | MsgBinnedWithoutNside => binned a = true ∧ nside a = None
  | MsgMissingThetaOrPhi =>
      (theta a ≠ None ∧ phi a = None) ∨ (theta a = None ∧ phi a ≠ None)
  | MsgPixelsAndAngles => pixels a ≠ None ∧ (theta a ≠ None ∨ phi a ≠ None)
  | MsgLonlatWithoutAngles => pixels a ≠ None ∧ lonlat a = true
  | _ => False
  end.

(** The contract of the integrator: one value for each line of sight. *)
Definition one_value_per_line_of_sight : Prop :=
  ∀ component freq line_of_sight observer_pos earth_pos unit_vectors
    cloud_offset T_0 delta emissivity albedo phase_coeffs colorcorr_table,
    length (trapezoidal component freq line_of_sight observer_pos earth_pos
              unit_vectors cloud_offset T_0 delta emissivity albedo
              phase_coeffs colorcorr_table)
    = length unit_vectors.

(** The model has a cloud, and every component has its line of sight and
    its interpolated emissivity and albedo. *)
Definition configured (self : Zodipy) (a : arguments) : Prop :=
  (∃ cloud, lookup_comp CLOUD (comps (_model self)) = Ok cloud) ∧
  ∀ lc, lc ∈ comps (_model self) →
    is_Some (_line_of_sights self lc.1) ∧
    is_Some (interp_comp_spectral_params (to_unit (freq a) GHz)
               (emissivities (_model self)) (emissivity_spectrum (_model self))
               (albedos (_model self)) (albedo_spectrum (_model self)) lc.1).

(** The pointing is there: pixels, or as many values of theta as of phi. *)
Definition pointing_given (a : arguments) : Prop :=
  is_Some (pixels a) ∨
  ∃ th ph, theta a = Some th ∧ phi a = Some ph ∧
           length (avalue th) = length (avalue ph).

(** The same call with another value for [binned]. *)
Definition with_binned (b : bool) (a : arguments) : arguments :=
  {| freq := freq a; obs_time := obs_time a; obs := obs a;
     obs_pos := obs_pos a; pixels := pixels a; theta := theta a;
     phi := phi a; nside := nside a; lonlat := lonlat a; binned := b;
     return_comps := return_comps a; coord_out := coord_out a;
     colorcorr_table := colorcorr_table a |}.

(** The argument combinations that the interface rejects. *)
Definition invalid_combination (a : arguments) : Prop :=
  (pixels a ≠ None ∧ nside a = None) ∨
  (pixels a ≠ None ∧ (theta a ≠ None ∨ phi a ≠ None)) ∨
  (binned a = true ∧ nside a = None) ∨
  (theta a ≠ None ∧ phi a = None) ∨
  (theta a = None ∧ phi a ≠ None).

(** The same call with another value for [return_comps]. *)
Definition with_return_comps (b : bool) (a : arguments) : arguments :=
  {| freq := freq a; obs_time := obs_time a; obs := obs a;
     obs_pos := obs_pos a; pixels := pixels a; theta := theta a;
     phi := phi a; nside := nside a; lonlat := lonlat a; binned := binned a;
     return_comps := b; coord_out := coord_out a;
     colorcorr_table := colorcorr_table a |}.

(** Lines 332-335 and 354-357: a unit vector given in the frame [coord_out]
    is rotated to ecliptic coordinates. *)
Definition to_ecliptic (coord_out : coord) (v : Vec3) : Vec3 :=
  if decide (coord_out ≠ E) then Rotator coord_out v else v.

(** The line of sight of the request at position [i] of the input: the
    vector of its pixel, or of its angles in the unit asked for by
    [lonlat]. *)
Definition line_of_sight_at (a : arguments) (i : nat) : option Vec3 :=
  match pixels a, theta a, phi a with
  | Some p, _, _ =>
      (λ q, to_ecliptic (coord_out a) (pix2vec (default 0%Z (nside a)) q))
        <$> pixel_sequence p !! i
  | None, Some th, Some ph =>
      match avalue (conv a th) !! i, avalue (conv a ph) !! i with
      | Some t, Some f => Some (to_ecliptic (coord_out a) (ang2vec t f (lonlat a)))
      | _, _ => None
      end
  | None, _, _ => None
  end.

(** The calls that the checks of lines 153-196 turn down. *)
Definition rejected (a : arguments) : Prop :=
  lower (obs a) ∉ observers ∨ invalid_combination a ∨
  (pixels a ≠ None ∧ lonlat a = true).

(** What healpy is asked for, for [n] distinct directions: the vectors,
    after the pixels when angles are binned, then the rotation when
    [coord_out] is not ecliptic, then the size of the map when binned. *)
Definition healpy_events (a : arguments) (n : nat) : list event :=
  match pixels a with
  | Some _ => [EvPix2Vec n]
  | None => if binned a then [EvAng2Pix n; EvAng2Vec n] else [EvAng2Vec n]
  end
  ++ (if decide (coord_out a ≠ E) then [EvRotator (coord_out a)] else [])
  ++ (if binned a then [EvNside2Npix (default 0%Z (nside a))] else []).

(** The calls of the integrator: one for each component, in the order of
    the model, from the same positions and along the same lines of sight. *)
Definition integrator_events (self : Zodipy) (observer_pos earth_pos : Vec3)
    (unit_vectors : list Vec3) : list event :=
  (λ lc, EvTrapezoidal lc.1 observer_pos earth_pos unit_vectors)
    <$> comps (_model self).

(** A call to the ephemeris asks for the Earth, and a call of the
    integrator is given these positions of the Earth and of the observer. *)
Definition from_positions (earth_pos observer_pos : Vec3) (ev : event) : Prop :=
  match ev with
  | EvGetBody body => body = "Earth"%string
  | EvTrapezoidal _ o e _ => o = observer_pos ∧ e = earth_pos
  | _ => True
  end.

(** The requested directions as [np.unique] is given them: the pixels, or
    the angles in the unit asked for by [lonlat]. *)
Definition directions (a : arguments) : list direction :=
  match pixels a, theta a, phi a with
  | Some p, _, _ => AtPixel <$> pixel_sequence p
  | None, Some th, Some ph =>
      zip_with AtAngles (avalue (conv a th)) (avalue (conv a ph))
  | None, _, _ => []
  end.

(** The number of distinct directions among the requests. *)
Definition distinct_directions (a : arguments) : nat :=
  match pixels a, theta a, phi a with
  | Some p, _, _ => length (unique Z.compare (pixel_sequence p))
  | None, Some th, Some ph =>
      length (unique cmp_column (zip (avalue (conv a th)) (avalue (conv a ph))))
  | None, _, _ => 0
  end.

End Interface.
End Zodipy.

(** ** [_decorators.py], the angles *)

Module AngleValidation.
Import Zodipy.

(** An angle [Quantity] as the caller passes it: of dimension 0, or a
    one-dimensional array. *)
Inductive angle_arg :=
| AngleScalar (unit : angle_unit) (x : R)
| AngleArray (unit : angle_unit) (xs : list R).

(** The value of an angle in another unit. *)
Definition convert_value (from target : angle_unit) (x : R) : R :=
  match from, target with
  | rad, deg => x * (180 / PI)
  | deg, rad => x * (PI / 180)
  | _, _ => x
  end.

(** [q.to(unit)] *)
Definition to_angle_unit (target : angle_unit) (q : angle_arg) : angle_arg :=
  match q with
  | AngleScalar u x => AngleScalar target (convert_value u target x)
  | AngleArray u xs => AngleArray target (convert_value u target <$> xs)
  end.

(** [np.expand_dims(q, axis=0)] when [q.ndim == 0] *)
Definition expand_scalar (q : angle_arg) : angles :=
  match q with
  | AngleScalar u x => mkAngles u [x]
  | AngleArray u xs => mkAngles u xs
  end.

(** [lonlat] is looked up among the keyword arguments and is [None] when
    the caller has not passed it; the keyword arguments go on to the
    function as they came. *)
Definition validate_angles {A} (function : angles → angles → option bool → Run A)
    (theta phi : angle_arg) (lonlat : option bool) : Run A :=
  let theta := if lonlat is Some _ then to_angle_unit deg theta
               else to_angle_unit rad theta in
  let phi := if lonlat is Some _ then to_angle_unit deg phi
             else to_angle_unit rad phi in
  function (expand_scalar theta) (expand_scalar phi) lonlat.

(** *** Vocabulary of the statements *)

(** [q.size] *)
Definition size (q : angle_arg) : nat :=
  match q with
  | AngleScalar _ _ => 1
  | AngleArray _ xs => length xs
  end.

(** The angles of a quantity, in radians. *)
Definition radians (q : angles) : list R :=
  convert_value (aunit q) rad <$> avalue q.

End AngleValidation.

(** ** A concrete setting

    Small instances of the collaborators, on which the definitions can be
    run: an ephemeris with the Earth on the x axis, a sky of resolution 1
    whose angles used below all fall in pixel 0, and an integrator that
    returns the first coordinate of each line of sight. *)

Module Sample.
Import Numpy SourceFunctions Zodipy.

(** CODATA 2018 *)
#[export] Instance codata : Constants :=
  {| h := 6.62607015e-34; c := 299792458; k_B := 1.380649e-23 |}.

#[export] Instance ephemeris : Ephemeris :=
  {| Time := unit;
     ephemeris_value := "de432s";
     bodies := ["sun"; "mercury"; "venus"; "earth-moon-barycenter"; "earth";
                "moon"; "mars"; "jupiter"; "saturn"; "uranus"; "neptune";
                "pluto"]%string;
     get_body := λ _ _, mkVec3 1 0 0 |}.

#[export] Instance healpy : Healpy :=
  {| pix2vec := λ _ p, mkVec3 (IZR p + 1) 0 0;
     ang2vec := λ t p _, mkVec3 (t + 1) p 0;
     ang2pix := λ _ _ _ _, 0%Z;
     Rotator := λ _ v, mkVec3 (- vx v) (- vy v) (vz v) |}.

#[export] Instance package : Package :=
  {| Component := unit;
     X_0 := λ _, mkVec3 0 0 0;
     SpectralTable := unit;
     PhaseCoeffs := unit;
     LineOfSight := unit;
     ColorCorr := unit;
     interp_phase_coeffs := λ _ _ _, tt;
     interp_comp_spectral_params := λ _ _ _ _ _ _, Some (1, 0);
     trapezoidal := λ _ _ _ _ _ unit_vectors _ _ _ _ _ _ _, vx <$> unit_vectors |}.

Definition model : InterplanetaryDustModel :=
  {| comps := [(CLOUD, tt); (RING, tt)];
     emissivities := tt; emissivity_spectrum := tt;
     albedos := tt; albedo_spectrum := tt;
     phase_coeffs := tt; phase_coeffs_spectrum := tt;
     T_0 := 286; delta := 0.467 |}.

Definition interface : Zodipy :=
  {| _model := model; _line_of_sights := λ _, Some tt |}.

(** [get_emission(freq, t, pixels=..., nside=..., binned=..., return_comps=True)] *)
Definition call_pixels (freq : spectral) (ps : list Z) (nside : Z) (binned : bool)
    : arguments :=
  {| freq := freq; obs_time := tt; obs := "earth"; obs_pos := None;
     pixels := Some (PixSeq ps); theta := None; phi := None;
     nside := Some nside; lonlat := false; binned := binned;
     return_comps := true; coord_out := E; colorcorr_table := None |}.

(** [get_emission(freq, t, theta=..., phi=..., nside=..., binned=..., return_comps=True)],
    the angles in radians *)
Definition call_angles (th ph : list R) (nside : Z) (binned : bool) : arguments :=
  {| freq := Frequency 25e12; obs_time := tt; obs := "earth"; obs_pos := None;
     pixels := None; theta := Some (mkAngles rad th); phi := Some (mkAngles rad ph);
     nside := Some nside; lonlat := false; binned := binned;
     return_comps := true; coord_out := E; colorcorr_table := None |}.

(** [get_emission(25 THz, t, obs=name, ...)] with the given pointing *)
Definition call_from (name : string) (px : option pixels_arg) (th ph : option angles)
    (ns : option Z) (b : bool) : arguments :=
  {| freq := Frequency 25e12; obs_time := tt; obs := name; obs_pos := None;
     pixels := px; theta := th; phi := ph; nside := ns; lonlat := false;
     binned := b; return_comps := false; coord_out := E; colorcorr_table := None |}.

(** [get_emission(25 THz, t, obs=name, obs_pos=pos, pixels=ps, nside=nside)] *)
Definition call_at (name : string) (pos : Vec3) (ps : list Z) (nside : Z)
    : arguments :=
  {| freq := Frequency 25e12; obs_time := tt; obs := name; obs_pos := Some pos;
     pixels := Some (PixSeq ps); theta := None; phi := None;
     nside := Some nside; lonlat := false; binned := false;
     return_comps := false; coord_out := E; colorcorr_table := None |}.

(** [get_emission(25 THz, t, pixels=ps, nside=nside, binned=binned,
    return_comps=True, coord_out="G")] *)
Definition call_galactic (ps : list Z) (nside : Z) (binned : bool) : arguments :=
  {| freq := Frequency 25e12; obs_time := tt; obs := "earth"; obs_pos := None;
     pixels := Some (PixSeq ps); theta := None; phi := None;
     nside := Some nside; lonlat := false; binned := binned;
     return_comps := true; coord_out := G; colorcorr_table := None |}.

(** CODATA 2018, in binary64 *)
#[export] Instance codata64 : Float64.Constants :=
  {| Float64.h := 6.62607015e-34; Float64.c := 299792458;
     Float64.k_B := 1.380649e-23 |}.

(** A library that what [Float64.Libm] assumes holds of: [exp] and [expm1]
    to first order below the overflow, powers by repeated multiplication,
    sums from left to right. *)
#[export] Instance libm : Float64.Libm.
Proof.
  refine {| Float64.np_exp := λ x, (1 + x)%float;
            Float64.np_expm1 := λ x, if (710 <=? x)%float then infinity else x;
            Float64.c_pow := λ x y,
              if (y =? 2)%float then (x * x)%float
              else if (y =? 3)%float then (x * x * x)%float
              else if (y =? 5)%float then (x * x * x * x * x)%float
              else nan;
            Float64.np_sum := λ l,
              match l with
              | [] => 0%float
              | x :: l' => foldl PrimFloat.add x l'
              end |}.
  - reflexivity.
  - intros x Hx. by rewrite Hx.
  - intros x y _ _. reflexivity.
Defined.

(** A DIRBE-like interface object for [validate_frequency]: tabulated from
    1.25 to 240 micron. *)
Definition dirbe_attrs : Decorators.zodipy_attrs :=
  {| Decorators.extrapolate := false;
     Decorators.model_name := "DIRBE";
     Decorators.spectrum := [1.25; 2.2; 3.5; 4.9; 12; 25; 60; 100; 140; 240];
     Decorators.spectrum_unit := micron |}.

End Sample.

(** * Properties *)

(** ** The source functions *)

Module SourceFunctionsFacts.
Import Numpy SourceFunctions.



Section Planck.
Context `{Constants}.
Hypothesis h_pos : 0 < h.
Hypothesis c_pos : 0 < c.
Hypothesis k_B_pos : 0 < k_B.

Lemma blackbody_emission_float (σ : store) (T freq : R) :
  blackbody_emission (PFloat T) (PFloat freq) σ
  = (Ok (Scalar (planck T (freq * 1e9))), σ).
Proof. reflexivity. Qed.

Lemma expm1_pos (x : R) : 0 < x → 0 < exp x - 1.
Proof.
  intros Hx. pose proof (exp_increasing 0 x Hx) as Hi.
  rewrite exp_0 in Hi. lra.
Qed.

Lemma prefactor_pos (nu : R) : 0 < nu → 0 < 2 * h * nu ^ 3 / c ^ 2.
Proof.
  intros Hnu. apply Rdiv_lt_0_compat.
  - assert (0 < nu ^ 3) by (apply pow_lt; lra).
    apply Rmult_lt_0_compat; lra.
  - apply pow_lt; lra.
Qed.

Lemma exponent_pos (T nu : R) : 0 < T → 0 < nu → 0 < h * nu / (k_B * T).
Proof.
  intros HT Hnu. apply Rdiv_lt_0_compat; apply Rmult_lt_0_compat; lra.
Qed.

Lemma exponent_decreasing (T1 T2 nu : R) :
  0 < T1 → T1 < T2 → 0 < nu → h * nu / (k_B * T2) < h * nu / (k_B * T1).
Proof.
  intros H1 H12 Hnu. unfold Rdiv.
  assert (0 < k_B * T1) by (apply Rmult_lt_0_compat; lra).
  assert (k_B * T1 < k_B * T2) by (apply Rmult_lt_compat_l; lra).
  apply Rmult_lt_compat_l; [apply Rmult_lt_0_compat; lra|].
  apply Rinv_lt_contravar; [apply Rmult_lt_0_compat; lra|lra].
Qed.

Lemma planck_pos (T nu : R) : 0 < T → 0 < nu → 0 < planck T nu.
Proof.
  intros HT Hnu. unfold planck. apply Rdiv_lt_0_compat.
  - by apply prefactor_pos.
  - apply expm1_pos. by apply exponent_pos.
Qed.

Lemma planck_increasing (T1 T2 nu : R) :
  0 < T1 → T1 < T2 → 0 < nu → planck T1 nu < planck T2 nu.
Proof.
  intros H1 H12 Hnu. unfold planck, Rdiv at 1 3.
  apply Rmult_lt_compat_l; [by apply prefactor_pos|].
  apply Rinv_lt_contravar.
  - apply Rmult_lt_0_compat; apply expm1_pos; apply exponent_pos; lra.
  - pose proof (exp_increasing _ _ (exponent_decreasing T1 T2 nu H1 H12 Hnu)).
    lra.
Qed.

(** In exact arithmetic: at temperatures [0 < T1 < T2] and a frequency
    [freq > 0] in GHz, [blackbody_emission] returns Planck's law at
    [freq * 1e9] Hz, its value is positive, and the value at [T1] is below
    the value at [T2]. *)
Lemma blackbody_emission_planck_exact (σ : store) (T1 T2 freq : R) :
  0 < T1 → T1 < T2 → 0 < freq →
  ∃ B1 B2,
    blackbody_emission (PFloat T1) (PFloat freq) σ = (Ok (Scalar B1), σ) ∧
    blackbody_emission (PFloat T2) (PFloat freq) σ = (Ok (Scalar B2), σ) ∧
    B1 = (2 * h * (freq * 1e9) ^ 3 / c ^ 2)
         / (exp (h * (freq * 1e9) / (k_B * T1)) - 1) ∧
    B2 = (2 * h * (freq * 1e9) ^ 3 / c ^ 2)
         / (exp (h * (freq * 1e9) / (k_B * T2)) - 1) ∧
    0 < B1 ∧ 0 < B2 ∧ B1 < B2.
Proof.
  intros H1 H12 Hf.
  assert (Hnu : 0 < freq * 1e9) by lra.
  do 2 eexists. split; [apply blackbody_emission_float|].
  split; [apply blackbody_emission_float|].
  split; [reflexivity|]. split; [reflexivity|].
  split; [|split].
  - apply (planck_pos T1 (freq * 1e9)); lra.
  - apply (planck_pos T2 (freq * 1e9)); lra.
  - apply (planck_increasing T1 T2 (freq * 1e9)); lra.
Qed.
End Planck.

(** *** Which calls leave their arguments alone *)

Lemma interplanetary_temperature_pure (σ : store) (R_ : pyval) (T_0 delta : R) :
  (interplanetary_temperature R_ T_0 delta σ).2 = σ.
Proof.
  unfold interplanetary_temperature, mbind, Py_bind, bind, load.
  destruct R_ as [x|l]; cbn; [done|]. by destruct (σ !! l).
Qed.

Lemma phase_function_pure (σ : store) (Theta : pyval) (C : list R) :
  (phase_function Theta C σ).2 = σ.
Proof.
  unfold phase_function, mbind, Py_bind, bind, lift, load, item.
  destruct (C !! 0%nat); [|done].
  destruct (C !! 1%nat); [|done].
  destruct Theta as [x|l]; cbn.
  - by destruct (C !! 2%nat).
  - destruct (σ !! l); [|done]. by destruct (C !! 2%nat).
Qed.

Lemma blackbody_emission_float_pure `{Constants} (σ : store) (T : pyval) (freq : R) :
  (blackbody_emission T (PFloat freq) σ).2 = σ.
Proof.
  unfold blackbody_emission, mbind, Py_bind, bind, lift, load, imul.
  destruct T as [x|l]; cbn; [done|].
  destruct (σ !! l); cbn; [|done].
  repeat match goal with
         | |- context [map2 ?f ?a ?b] => destruct (map2 f a b); cbn
         end; done.
Qed.

Lemma blackbody_emission_array_freq `{Constants}
    (σ : store) (T : R) (l : loc) (xs : list R) :
  σ !! l = Some xs →
  (blackbody_emission (PFloat T) (PArray l) σ).2
  = <[l := (λ x, x * 1e9) <$> xs]> σ.
Proof.
  intros Hl.
  unfold blackbody_emission, mbind, Py_bind, bind, lift, load, imul.
  rewrite Hl. cbv beta iota. rewrite lookup_insert_eq. cbv beta iota.
  repeat match goal with
         | |- context [map2 ?f ?a ?b] => destruct (map2 f a b); cbv beta iota
         end; done.
Qed.

(** C8, at an array frequency: after [blackbody_emission(300.0, freq)] with
    [freq = np.array([30.0])] the caller's array holds [30e9]: the call has
    overwritten its argument. *)
Theorem blackbody_emission_overwrites_freq `{Constants} :
  let σ : store := {[ 0%nat := [30] ]} in
  let σ' := (blackbody_emission (PFloat 300) (PArray 0%nat) σ).2 in
  σ !! 0%nat = Some [30] ∧
  σ' !! 0%nat = Some [30 * 1e9] ∧
  σ' !! 0%nat ≠ σ !! 0%nat.
Proof.
  intros σ σ'.
  assert (Hσ : σ !! 0%nat = Some [30]) by apply lookup_singleton_eq.
  assert (Hσ' : σ' !! 0%nat = Some [30 * 1e9]).
  { unfold σ'. rewrite (blackbody_emission_array_freq σ 300 0%nat [30] Hσ).
    by rewrite lookup_insert_eq. }
  split; [done|]. split; [done|].
  rewrite Hσ, Hσ'. intros Heq. injection Heq as Heq. lra.
Qed.

Lemma blackbody_emission_wavelen_overwrites_wavelen `{Constants} :
  let σ : store := {[ 0%nat := [25] ]} in
  let σ' := (blackbody_emission_wavelen (PFloat 300) (PArray 0%nat) σ).2 in
  σ' !! 0%nat = Some [25 * 1e-6] ∧ σ' !! 0%nat ≠ σ !! 0%nat.
Proof.
  intros σ σ'.
  assert (Hσ : σ !! 0%nat = Some [25]) by apply lookup_singleton_eq.
  assert (Hσ' : σ' !! 0%nat = Some [25 * 1e-6]).
  { unfold σ', blackbody_emission_wavelen, mbind, Py_bind, bind, lift, load, imul.
    rewrite Hσ. cbv beta iota. rewrite lookup_insert_eq. cbv beta iota.
    cbn [map2 map1 snd]. by rewrite lookup_insert_eq. }
  split; [done|].
  rewrite Hσ, Hσ'. intros Heq. injection Heq as Heq. lra.
Qed.

End SourceFunctionsFacts.

(** ** The array helpers *)

Module ArraysFacts.
Import Arrays.

Lemma Rcompare_refl (x : R) : Rcompare x x = Eq.
Proof. destruct (Rcompare_spec x x); [done|lra|lra]. Qed.

Lemma Rcompare_Eq_inv (x y : R) : Rcompare x y = Eq → x = y.
Proof. destruct (Rcompare_spec x y); [done|discriminate|discriminate]. Qed.

Lemma Rcompare_Lt (x y : R) : x < y → Rcompare x y = Lt.
Proof. intros Hxy. destruct (Rcompare_spec x y); [lra|done|lra]. Qed.

Lemma Rcompare_Gt (x y : R) : y < x → Rcompare x y = Gt.
Proof. intros Hxy. destruct (Rcompare_spec x y); [lra|lra|done]. Qed.

Lemma cmp_column_Eq (a b : R * R) : cmp_column a b = Eq ↔ a = b.
Proof.
  unfold cmp_column. destruct a as [a1 a2], b as [b1 b2]; cbn. split.
  - destruct (Rcompare a1 b1) eqn:H1; try discriminate.
    intros H2. apply Rcompare_Eq_inv in H1, H2. by subst.
  - intros [= -> ->]. by rewrite !Rcompare_refl.
Qed.

(** *** [np.unique] *)

Section UniqueFacts.
Context {A : Type} (cmp : A → A → comparison).
Hypothesis cmp_Eq : ∀ x y, cmp x y = Eq ↔ x = y.

Lemma same_true (x y : A) : same cmp x y = true ↔ x = y.
Proof.
  unfold same. rewrite <- cmp_Eq. destruct (cmp x y); split; congruence.
Qed.

Lemma elem_of_insert_sorted (x y : A) (l : list A) :
  y ∈ insert_sorted cmp x l ↔ y = x ∨ y ∈ l.
Proof.
  induction l as [|z l IH]; cbn.
  - rewrite elem_of_cons. tauto.
  - destruct (cmp x z) eqn:Hc.
    + apply cmp_Eq in Hc as ->. rewrite !elem_of_cons. tauto.
    + rewrite !elem_of_cons. tauto.
    + rewrite !elem_of_cons, IH. tauto.
Qed.

Lemma elem_of_unique (y : A) (l : list A) : y ∈ unique cmp l ↔ y ∈ l.
Proof.
  unfold unique. induction l as [|x l IH]; cbn; [done|].
  rewrite elem_of_insert_sorted, IH, elem_of_cons. tauto.
Qed.

Lemma index_of_lookup (x : A) (u : list A) :
  x ∈ u → u !! index_of cmp x u = Some x.
Proof.
  induction u as [|y u IH]; [by intros ?%elem_of_nil|].
  intros Hx. cbn. destruct (same cmp x y) eqn:Hs.
  - apply same_true in Hs as ->. done.
  - cbn. apply IH. apply elem_of_cons in Hx as [->|Hx]; [|done].
    assert (same cmp y y = true) by by apply same_true. congruence.
Qed.

(** The inverse indices rebuild the input from the distinct values. *)
Lemma unique_inverse_lookup (l : list A) (i : nat) (x : A) :
  l !! i = Some x →
  ∃ k, (unique_inverse cmp l).2 !! i = Some k ∧
       (unique_inverse cmp l).1 !! k = Some x.
Proof.
  intros Hi. exists (index_of cmp x (unique cmp l)). cbn. split.
  - by rewrite list_lookup_fmap, Hi.
  - apply index_of_lookup, elem_of_unique. by eapply list_elem_of_lookup_2.
Qed.
End UniqueFacts.

(** Equal inputs get equal inverse indices. *)
Lemma unique_inverse_repeat {A} (cmp : A → A → comparison) (l : list A) (i j : nat) :
  l !! i = l !! j → (unique_inverse cmp l).2 !! i = (unique_inverse cmp l).2 !! j.
Proof. intros Hij. cbn. by rewrite !list_lookup_fmap, Hij. Qed.

Lemma unique_inverse_length {A} (cmp : A → A → comparison) (l : list A) :
  length (unique_inverse cmp l).2 = length l.
Proof. cbn. by rewrite length_fmap. Qed.

(** *** Indexing *)

Lemma normalize_index_nat (n j : nat) (k : nat) :
  normalize_index n (Z.of_nat j) = Ok k → k = j ∧ (j < n)%nat.
Proof.
  unfold normalize_index. repeat case_decide; intros [= <-]; lia.
Qed.

Lemma normalize_index_lt (n : nat) (i : Z) (k : nat) :
  normalize_index n i = Ok k → (k < n)%nat.
Proof.
  unfold normalize_index. repeat case_decide; intros [= <-]; lia.
Qed.

Lemma normalize_index_cases (n : nat) (i : Z) (k : nat) :
  normalize_index n i = Ok k → (i = Z.of_nat k ∨ i + Z.of_nat n = Z.of_nat k)%Z.
Proof.
  unfold normalize_index. repeat case_decide; intros [= <-]; lia.
Qed.

Lemma normalize_indices_Ok (n : nat) (idx : list Z) (js : list nat) :
  normalize_indices n idx = Ok js →
  Forall2 (λ i j, normalize_index n i = Ok j) idx js.
Proof.
  revert js. induction idx as [|i idx IH]; intros js; cbn.
  - intros [= <-]. constructor.
  - destruct (normalize_index n i) as [j|] eqn:Hi; [|done].
    destruct (normalize_indices n idx) as [js'|] eqn:Hidx; [|done].
    intros [= <-]. constructor; [done|]. by apply IH.
Qed.

Lemma take_all_Ok {A} (a : list A) (js : list nat) (xs : list A) :
  take_all a js = Ok xs →
  Forall2 (λ j x, a !! j = Some x) js xs.
Proof.
  revert xs. induction js as [|j js IH]; intros xs; cbn.
  - intros [= <-]. constructor.
  - destruct (a !! j) as [x|] eqn:Hj; [|done].
    destruct (take_all a js) as [xs'|] eqn:Hjs; [|done].
    intros [= <-]. constructor; [done|]. by apply IH.
Qed.

(** [a[idx]] with non-negative indices holds [a[idx[i]]] at position [i]. *)
Lemma getitem_nat_lookup {A} (a : list A) (js : list nat) (xs : list A) :
  getitem a (Z.of_nat <$> js) = Ok xs →
  length xs = length js ∧
  ∀ i j, js !! i = Some j → ∃ x, xs !! i = Some x ∧ a !! j = Some x.
Proof.
  unfold getitem.
  destruct (normalize_indices (length a) (Z.of_nat <$> js)) as [ks|] eqn:Hn; [|done].
  intros Ht. apply normalize_indices_Ok in Hn. apply take_all_Ok in Ht.
  apply Forall2_fmap_l in Hn.
  split.
  - apply Forall2_length in Hn, Ht. lia.
  - intros i j Hj.
    destruct (Forall2_lookup_l _ _ _ _ _ Hn Hj) as (k & Hk & Hjk).
    apply normalize_index_nat in Hjk as [-> _].
    destruct (Forall2_lookup_l _ _ _ _ _ Ht Hk) as (x & Hx & Hax).
    eauto.
Qed.

Lemma write_all_length {A} (a : list A) (js : list nat) (vs : list A) :
  length (write_all a js vs) = length a.
Proof.
  revert a vs. induction js as [|j js IH]; intros a vs; [done|].
  destruct vs as [|v vs]; [done|]. cbn. by rewrite IH, length_insert.
Qed.

(** Cells that no index names keep their content. *)
Lemma write_all_other {A} (a : list A) (js : list nat) (vs : list A) (q : nat) :
  q ∉ js → write_all a js vs !! q = a !! q.
Proof.
  revert a vs. induction js as [|j js IH]; intros a vs Hq; [done|].
  destruct vs as [|v vs]; [done|]. cbn.
  apply not_elem_of_cons in Hq as [Hqj Hq].
  rewrite IH by done. by apply list_lookup_insert_ne.
Qed.

Lemma setitem_length {A} (a : list A) (idx : list Z) (vals a' : list A) :
  setitem a idx vals = Ok a' → length a' = length a.
Proof.
  unfold setitem.
  destruct (normalize_indices _ _) as [js|]; [|done].
  destruct (broadcast_to _ _) as [vs|]; [|done].
  intros [= <-]. apply write_all_length.
Qed.

Lemma setitem_other {A} (a : list A) (idx : list Z) (vals a' : list A) (q : nat) :
  setitem a idx vals = Ok a' →
  (∀ p, p ∈ idx → normalize_index (length a) p ≠ Ok q) →
  a' !! q = a !! q.
Proof.
  unfold setitem.
  destruct (normalize_indices _ _) as [js|] eqn:Hn; [|done].
  destruct (broadcast_to _ _) as [vs|]; [|done].
  intros [= <-] Hq. apply write_all_other.
  apply normalize_indices_Ok in Hn. intros Hin.
  apply list_elem_of_lookup in Hin as [i Hi].
  destruct (Forall2_lookup_r _ _ _ _ _ Hn Hi) as (p & Hp & Hpq).
  eapply Hq; [|done]. by eapply list_elem_of_lookup_2.
Qed.

Lemma imul_at_length (a : list R) (idx : list Z) (k a' : list R) :
  imul_at a idx k = Ok a' → length a' = length a.
Proof.
  unfold imul_at.
  destruct (getitem _ _) as [cells|]; [|done].
  destruct (broadcast_to _ _) as [ks|]; [|done].
  apply setitem_length.
Qed.

Lemma imul_at_other (a : list R) (idx : list Z) (k a' : list R) (q : nat) :
  imul_at a idx k = Ok a' →
  (∀ p, p ∈ idx → normalize_index (length a) p ≠ Ok q) →
  a' !! q = a !! q.
Proof.
  unfold imul_at.
  destruct (getitem _ _) as [cells|]; [|done].
  destruct (broadcast_to _ _) as [ks|]; [|done].
  apply setitem_other.
Qed.

Lemma lookup_zeros (n q : nat) : (q < n)%nat → zeros n !! q = Some 0.
Proof. intros Hq. unfold zeros. by apply lookup_replicate_2. Qed.

Lemma length_zeros (n : nat) : length (zeros n) = n.
Proof. apply length_replicate. Qed.

Lemma sum_axis0_length (n : nat) (rows : list (list R)) :
  Forall (λ row, length row = n) rows → length (sum_axis0 n rows) = n.
Proof.
  unfold sum_axis0. induction 1 as [|row rows Hrow _ IH]; cbn.
  - apply length_zeros.
  - rewrite length_zip_with, IH. lia.
Qed.

(** The total at a column is the sum of the column. *)
Lemma sum_axis0_lookup (n : nat) (rows : list (list R)) (i : nat) (col : list R) :
  (i < n)%nat →
  Forall2 (λ row v, row !! i = Some v) rows col →
  sum_axis0 n rows !! i = Some (foldr Rplus 0 col).
Proof.
  intros Hi. unfold sum_axis0. induction 1 as [|row v rows col Hv _ IH]; cbn.
  - by apply lookup_zeros.
  - rewrite lookup_zip_with, Hv, IH. done.
Qed.

(** *** The distinct values are distinct *)

Section Distinct.
Context {A : Type} (cmp : A → A → comparison).
Hypothesis cmp_Eq : ∀ x y, cmp x y = Eq ↔ x = y.
Hypothesis cmp_Gt : ∀ x y, cmp x y = Gt → cmp y x = Lt.
Hypothesis cmp_Lt_trans : ∀ x y z, cmp x y = Lt → cmp y z = Lt → cmp x z = Lt.

Lemma insert_sorted_increasing (x : A) (l : list A) :
  increasing cmp l → increasing cmp (insert_sorted cmp x l).
Proof.
  induction l as [|y l IH]; cbn.
  - done.
  - intros [Hy Hl]. destruct (cmp x y) eqn:Hc; cbn.
    + done.
    + split; [|done]. constructor; [done|].
      eapply Forall_impl; [exact Hy|]. intros z Hz. by eapply cmp_Lt_trans.
    + split; [|by apply IH].
      apply Forall_forall. intros z Hz.
      apply (elem_of_insert_sorted cmp cmp_Eq) in Hz as [->|Hz].
      * by apply cmp_Gt.
      * rewrite Forall_forall in Hy. by apply Hy.
Qed.

Lemma unique_increasing (l : list A) : increasing cmp (unique cmp l).
Proof.
  unfold unique. induction l as [|x l IH]; cbn; [done|].
  by apply insert_sorted_increasing.
Qed.

Lemma increasing_NoDup (l : list A) : increasing cmp l → NoDup l.
Proof.
  induction l as [|x l IH]; cbn.
  - constructor.
  - intros [Hx Hl]. constructor; [|by apply IH].
    intros Hin. rewrite Forall_forall in Hx. specialize (Hx x Hin).
    assert (cmp x x = Eq) by by apply cmp_Eq. congruence.
Qed.

Lemma unique_NoDup (l : list A) : NoDup (unique cmp l).
Proof. apply increasing_NoDup, unique_increasing. Qed.

(** An input without repeats has every count equal to one. *)
Lemma occurrences_NoDup (x : A) (l : list A) :
  NoDup l → x ∈ l → occurrences cmp x l = 1%nat.
Proof.
  induction 1 as [|y l Hy Hl IH]; [by intros ?%elem_of_nil|].
  intros Hx. cbn. destruct (same cmp y x) eqn:Hs.
  - apply (same_true cmp cmp_Eq) in Hs as ->. f_equal.
    clear IH Hx Hl. induction l as [|z l IH]; [done|]. cbn.
    apply not_elem_of_cons in Hy as [Hz Hy].
    destruct (same cmp z x) eqn:Hs'.
    + apply (same_true cmp cmp_Eq) in Hs'. congruence.
    + by apply IH.
  - apply IH. apply elem_of_cons in Hx as [->|Hx]; [|done].
    assert (same cmp y y = true) by by apply (same_true cmp cmp_Eq). congruence.
Qed.
End Distinct.

Lemma Z_compare_Gt (x y : Z) : (x ?= y)%Z = Gt → (y ?= x)%Z = Lt.
Proof. rewrite Z.compare_gt_iff, Z.compare_lt_iff. lia. Qed.

Lemma Z_compare_Lt_trans (x y z : Z) :
  (x ?= y)%Z = Lt → (y ?= z)%Z = Lt → (x ?= z)%Z = Lt.
Proof. rewrite !Z.compare_lt_iff. lia. Qed.

Lemma unique_pixels_NoDup (pixels : list Z) : NoDup (unique Z.compare pixels).
Proof.
  apply unique_NoDup.
  - apply Z.compare_eq_iff.
  - apply Z_compare_Gt.
  - apply Z_compare_Lt_trans.
Qed.

(** *** Writing at distinct cells *)

Lemma write_all_NoDup {A} (a : list A) (js : list nat) (vs : list A)
    (k j : nat) :
  NoDup js → length vs = length js →
  js !! k = Some j → (j < length a)%nat →
  write_all a js vs !! j = vs !! k.
Proof.
  intros Hnd. revert a vs k.
  induction Hnd as [|j0 js Hj0 Hnd IH]; intros a vs k Hlen Hk Hj; [done|].
  destruct vs as [|v vs]; [done|]. cbn in Hlen. cbn [write_all].
  destruct k as [|k]; cbn in Hk.
  - injection Hk as ->. rewrite write_all_other by done.
    by apply list_lookup_insert_eq.
  - cbn. apply IH; [lia|done|by rewrite length_insert].
Qed.

Lemma normalize_index_in_range (n : nat) (i : Z) :
  (0 ≤ i < Z.of_nat n)%Z → normalize_index n i = Ok (Z.to_nat i).
Proof. intros Hi. unfold normalize_index. by rewrite decide_True. Qed.

Lemma normalize_indices_in_range (n : nat) (idx : list Z) :
  Forall (λ i, 0 ≤ i < Z.of_nat n)%Z idx →
  normalize_indices n idx = Ok (Z.to_nat <$> idx).
Proof.
  induction 1 as [|i idx Hi _ IH]; cbn; [done|].
  by rewrite normalize_index_in_range, IH.
Qed.

Lemma NoDup_to_nat (idx : list Z) :
  Forall (λ i, 0 ≤ i)%Z idx → NoDup idx → NoDup (Z.to_nat <$> idx).
Proof.
  intros Hpos Hnd. induction Hnd as [|i idx Hi Hnd IH]; cbn; [constructor|].
  apply Forall_cons in Hpos as [Hi0 Hpos].
  constructor; [|by apply IH].
  intros Hin. apply list_elem_of_fmap in Hin as (i' & Heq & Hi').
  rewrite Forall_forall in Hpos. specialize (Hpos i' Hi').
  assert (i = i') by lia. congruence.
Qed.

Lemma broadcast_to_same {A} (n : nat) (vals : list A) :
  length vals = n → broadcast_to n vals = Ok vals.
Proof. intros Hn. unfold broadcast_to. by rewrite decide_True. Qed.

(** [a[idx] = vals] on distinct indices within the array puts [vals[k]] at
    [idx[k]]. *)
Lemma setitem_lookup {A} (a : list A) (idx : list Z) (vals a' : list A)
    (k : nat) (i : Z) :
  Forall (λ i, 0 ≤ i < Z.of_nat (length a))%Z idx → NoDup idx →
  length vals = length idx →
  setitem a idx vals = Ok a' →
  idx !! k = Some i →
  a' !! Z.to_nat i = vals !! k.
Proof.
  intros Hrange Hnd Hlen Hset Hk. unfold setitem in Hset.
  rewrite normalize_indices_in_range in Hset by done.
  rewrite broadcast_to_same in Hset by by rewrite length_fmap.
  injection Hset as <-.
  apply write_all_NoDup.
  - apply NoDup_to_nat; [|done]. eapply Forall_impl; [exact Hrange|]. cbn. lia.
  - by rewrite length_fmap.
  - by rewrite list_lookup_fmap, Hk.
  - rewrite Forall_forall in Hrange.
    specialize (Hrange i (list_elem_of_lookup_2 _ _ _ Hk)). lia.
Qed.

Lemma take_all_lookup {A} (a : list A) (js : list nat) (xs : list A) (k j : nat) :
  take_all a js = Ok xs → js !! k = Some j → xs !! k = a !! j.
Proof.
  intros Ht Hk. apply take_all_Ok in Ht.
  destruct (Forall2_lookup_l _ _ _ _ _ Ht Hk) as (x & Hx & Hax). congruence.
Qed.

Lemma getitem_lookup {A} (a : list A) (idx : list Z) (xs : list A)
    (k : nat) (i : Z) :
  Forall (λ i, 0 ≤ i < Z.of_nat (length a))%Z idx →
  getitem a idx = Ok xs →
  idx !! k = Some i →
  length xs = length idx ∧ xs !! k = a !! Z.to_nat i.
Proof.
  intros Hrange Hget Hk. unfold getitem in Hget.
  rewrite normalize_indices_in_range in Hget by done.
  split.
  - apply take_all_Ok, Forall2_length in Hget. by rewrite length_fmap in Hget.
  - eapply take_all_lookup; [done|]. by rewrite list_lookup_fmap, Hk.
Qed.

(** [a[idx] *= ks] on distinct indices within the array multiplies the cell
    [idx[k]] by [ks[k]]. *)
Lemma imul_at_lookup (a : list R) (idx : list Z) (ks a' : list R)
    (k : nat) (i : Z) (x c : R) :
  Forall (λ i, 0 ≤ i < Z.of_nat (length a))%Z idx → NoDup idx →
  length ks = length idx →
  imul_at a idx ks = Ok a' →
  idx !! k = Some i →
  a !! Z.to_nat i = Some x → ks !! k = Some c →
  a' !! Z.to_nat i = Some (x * c).
Proof.
  intros Hrange Hnd Hlen Hmul Hk Hx Hc. unfold imul_at in Hmul.
  destruct (getitem a idx) as [cells|] eqn:Hget; [|done].
  destruct (getitem_lookup a idx cells k i Hrange Hget Hk) as [Hcl Hcell].
  rewrite broadcast_to_same in Hmul by congruence.
  rewrite (setitem_lookup a idx (zip_with Rmult cells ks) a' k i Hrange Hnd);
    [|rewrite length_zip_with; lia|done|done].
  by rewrite lookup_zip_with, Hcell, Hx, Hc.
Qed.

(** *** Writing at a cell that one index names *)

Lemma write_all_once {A} (a : list A) (js : list nat) (vs : list A) (k j : nat) :
  js !! k = Some j → (∀ k', js !! k' = Some j → k' = k) →
  length vs = length js → (j < length a)%nat →
  write_all a js vs !! j = vs !! k.
Proof.
  revert a vs k. induction js as [|j0 js IH]; intros a vs k Hk Honce Hlen Hj; [done|].
  destruct vs as [|v vs]; [done|]. cbn in Hlen. cbn [write_all].
  destruct k as [|k]; cbn in Hk.
  - injection Hk as ->. rewrite write_all_other.
    + by apply list_lookup_insert_eq.
    + intros Hin. apply list_elem_of_lookup in Hin as [k' Hk'].
      specialize (Honce (S k') Hk'). lia.
  - cbn. apply IH; [done| |lia|by rewrite length_insert].
    intros k' Hk'. specialize (Honce (S k') Hk'). lia.
Qed.

Lemma setitem_lookup_once {A} (a : list A) (idx : list Z) (vals a' : list A)
    (k : nat) (i : Z) :
  Forall (λ i, 0 ≤ i < Z.of_nat (length a))%Z idx →
  idx !! k = Some i → (∀ k', idx !! k' = Some i → k' = k) →
  length vals = length idx →
  setitem a idx vals = Ok a' →
  a' !! Z.to_nat i = vals !! k.
Proof.
  intros Hrange Hk Honce Hlen Hset. unfold setitem in Hset.
  rewrite normalize_indices_in_range in Hset by done.
  rewrite broadcast_to_same in Hset by by rewrite length_fmap.
  injection Hset as <-. rewrite Forall_forall in Hrange.
  apply write_all_once.
  - by rewrite list_lookup_fmap, Hk.
  - intros k' Hk'. rewrite list_lookup_fmap in Hk'.
    destruct (idx !! k') as [i'|] eqn:Hi'; [|done]. cbn in Hk'.
    apply Honce. rewrite Hi'. f_equal.
    pose proof (Hrange i (list_elem_of_lookup_2 _ _ _ Hk)).
    pose proof (Hrange i' (list_elem_of_lookup_2 _ _ _ Hi')).
    injection Hk' as Hk'. lia.
  - by rewrite length_fmap.
  - specialize (Hrange i (list_elem_of_lookup_2 _ _ _ Hk)). lia.
Qed.

Lemma imul_at_lookup_once (a : list R) (idx : list Z) (ks a' : list R)
    (k : nat) (i : Z) (x c : R) :
  Forall (λ i, 0 ≤ i < Z.of_nat (length a))%Z idx →
  idx !! k = Some i → (∀ k', idx !! k' = Some i → k' = k) →
  length ks = length idx →
  imul_at a idx ks = Ok a' →
  a !! Z.to_nat i = Some x → ks !! k = Some c →
  a' !! Z.to_nat i = Some (x * c).
Proof.
  intros Hrange Hk Honce Hlen Hmul Hx Hc. unfold imul_at in Hmul.
  destruct (getitem a idx) as [cells|] eqn:Hget; [|done].
  destruct (getitem_lookup a idx cells k i Hrange Hget Hk) as [Hcl Hcell].
  rewrite broadcast_to_same in Hmul by congruence.
  rewrite (setitem_lookup_once a idx (zip_with Rmult cells ks) a' k i Hrange Hk Honce);
    [|rewrite length_zip_with; lia|done].
  by rewrite lookup_zip_with, Hcell, Hx, Hc.
Qed.

(** *** Counting through a map *)

Lemma occurrences_fmap {A B} (cmpA : A → A → comparison) (cmpB : B → B → comparison)
    (f : A → B) (x : A) (l : list A) :
  (∀ x y, cmpA x y = Eq ↔ x = y) → (∀ x y, cmpB x y = Eq ↔ x = y) →
  (∀ y, y ∈ l → f y = f x → y = x) →
  occurrences cmpB (f x) (f <$> l) = occurrences cmpA x l.
Proof.
  intros HA HB. induction l as [|y l IH]; intros Hinj; [done|]. cbn.
  rewrite IH by (intros z Hz; apply Hinj; by right).
  destruct (same cmpA y x) eqn:Hs.
  - apply (same_true cmpA HA) in Hs as ->.
    assert (same cmpB (f x) (f x) = true) as -> by by apply (same_true cmpB HB).
    done.
  - destruct (same cmpB (f y) (f x)) eqn:Hs'; [|done].
    apply (same_true cmpB HB) in Hs'. apply Hinj in Hs'; [|by left]. subst y.
    assert (same cmpA x x = true) by by apply (same_true cmpA HA). congruence.
Qed.

Lemma cmp_column_Gt (a b : R * R) : cmp_column a b = Gt → cmp_column b a = Lt.
Proof.
  unfold cmp_column. destruct a as [a1 a2], b as [b1 b2]; cbn.
  destruct (Rcompare_spec a1 b1) as [->|H1|H1].
  - rewrite Rcompare_refl. intros H2.
    destruct (Rcompare_spec a2 b2); try discriminate. by apply Rcompare_Lt.
  - discriminate.
  - intros _. by rewrite (Rcompare_Lt b1 a1).
Qed.

Lemma cmp_column_Lt_iff (a b : R * R) :
  cmp_column a b = Lt ↔ a.1 < b.1 ∨ (a.1 = b.1 ∧ a.2 < b.2).
Proof.
  unfold cmp_column. destruct a as [a1 a2], b as [b1 b2]; cbn.
  destruct (Rcompare_spec a1 b1) as [->|H1|H1].
  - destruct (Rcompare_spec a2 b2); split; try discriminate; try lra; intros; done.
  - split; [lra|done].
  - split; [discriminate|lra].
Qed.

Lemma cmp_column_Lt_trans (a b c : R * R) :
  cmp_column a b = Lt → cmp_column b c = Lt → cmp_column a c = Lt.
Proof. rewrite !cmp_column_Lt_iff. lra. Qed.

Lemma unique_columns_NoDup (cols : list (R * R)) : NoDup (unique cmp_column cols).
Proof.
  apply unique_NoDup.
  - apply cmp_column_Eq.
  - apply cmp_column_Gt.
  - apply cmp_column_Lt_trans.
Qed.

Lemma unique_counts_lookup {A} (cmp : A → A → comparison) (l : list A)
    (k : nat) (x : A) :
  unique cmp l !! k = Some x →
  (unique_counts cmp l).2 !! k = Some (occurrences cmp x l).
Proof. intros Hk. cbn. by rewrite list_lookup_fmap, Hk. Qed.

(** *** One distinct value in a cell of the map

    The arrays of the two branches side by side: [l] is what [np.unique] is
    given and [f] sends a distinct value to its pixel. *)

Lemma scatter_gather_once {X} (cmp : X → X → comparison) (f : X → Z)
    (l : list X) (npix : nat) (integrated row row' trow : list R)
    (i : nat) (x : X) :
  (∀ x y, cmp x y = Eq ↔ x = y) →
  (∀ x y, cmp x y = Gt → cmp y x = Lt) →
  (∀ x y z, cmp x y = Lt → cmp y z = Lt → cmp x z = Lt) →
  Forall (λ p, 0 ≤ p < Z.of_nat npix)%Z (f <$> l) →
  length integrated = length (unique cmp l) →
  setitem (zeros npix) (f <$> unique cmp l) integrated = Ok row →
  imul_at row (f <$> unique cmp l) (INR <$> (unique_counts cmp l).2) = Ok row' →
  getitem integrated (Z.of_nat <$> (unique_inverse cmp l).2) = Ok trow →
  l !! i = Some x →
  (∀ y, y ∈ l → f y = f x → y = x) →
  ∃ v, trow !! i = Some v ∧
       row' !! Z.to_nat (f x)
       = Some (v * INR (occurrences Z.compare (f x) (f <$> l))).
Proof.
  intros Heq Hgt Htrans Hrange Hlen Hset Hmul Hget Hi Hsole.
  set (u := unique cmp l) in *.
  assert (Hxl : x ∈ l) by by eapply list_elem_of_lookup_2.
  assert (Hk : u !! index_of cmp x u = Some x).
  { apply (index_of_lookup cmp Heq). by apply (elem_of_unique cmp Heq). }
  set (k := index_of cmp x u) in *.
  assert (Hfk : (f <$> u) !! k = Some (f x)) by by rewrite list_lookup_fmap, Hk.
  assert (Honce : ∀ k', (f <$> u) !! k' = Some (f x) → k' = k).
  { intros k' Hk'. rewrite list_lookup_fmap in Hk'.
    destruct (u !! k') as [y|] eqn:Hy; [|done]. injection Hk' as Hfy.
    assert (y = x) as ->.
    { apply Hsole; [|done]. apply (elem_of_unique cmp Heq).
      by eapply list_elem_of_lookup_2. }
    eapply NoDup_lookup; [|exact Hy|exact Hk].
    by apply unique_NoDup. }
  assert (Hu : Forall (λ p, 0 ≤ p < Z.of_nat npix)%Z (f <$> u)).
  { apply Forall_fmap, Forall_forall. intros y Hy. cbn.
    rewrite Forall_forall in Hrange. apply Hrange.
    apply list_elem_of_fmap_2. by apply (elem_of_unique cmp Heq). }
  destruct (lookup_lt_is_Some_2 integrated k) as [v Hv].
  { rewrite Hlen. by eapply lookup_lt_Some. }
  exists v. split.
  - apply getitem_nat_lookup in Hget as [_ Hget].
    destruct (Hget i k) as (w & Hw & Hw').
    { cbn. by rewrite list_lookup_fmap, Hi. }
    congruence.
  - pose proof (setitem_length _ _ _ _ Hset) as Hrowlen.
    rewrite length_zeros in Hrowlen.
    rewrite (occurrences_fmap cmp Z.compare f x l Heq Z.compare_eq_iff Hsole).
    apply (imul_at_lookup_once row (f <$> u) (INR <$> (unique_counts cmp l).2)
             row' k (f x) v).
    + by rewrite Hrowlen.
    + done.
    + done.
    + cbn. by rewrite !length_fmap.
    + done.
    + rewrite (setitem_lookup_once (zeros npix) (f <$> u) integrated row k (f x));
        [done|by rewrite length_zeros|done|done|by rewrite length_fmap|done].
    + by rewrite list_lookup_fmap, (unique_counts_lookup cmp l k x Hk).
Qed.

End ArraysFacts.

(** ** The trace monad *)

Module RunFacts.

Lemma bind_raise {A B} (e : exn) (f : A → Run B) :
  (Run.lift (Raise e) ≫= f) = ([], Raise e).
Proof. reflexivity. Qed.

Lemma bind_lift_Ok {A B} (a : A) (f : A → Run B) :
  (Run.lift (Ok a) ≫= f) = f a.
Proof.
  unfold mbind, Run_bind, Run.bind, Run.lift. by destruct (f a).
Qed.

Lemma bind_emit {B} (ev : event) (f : unit → Run B) :
  (Run.emit ev ≫= f) = (ev :: (f tt).1, (f tt).2).
Proof.
  unfold mbind, Run_bind, Run.bind, Run.emit. by destruct (f tt).
Qed.

(** A computation that returns went through each of its steps. *)
Lemma bind_Ok_inv {A B} (m : Run A) (f : A → Run B) (b : B) :
  (m ≫= f).2 = Ok b → ∃ a, m.2 = Ok a ∧ (f a).2 = Ok b.
Proof.
  unfold mbind, Run_bind, Run.bind. destruct m as [t [a|e]]; cbn.
  - destruct (f a) as [t' r] eqn:Hf. cbn. intros ->. exists a. by rewrite Hf.
  - done.
Qed.

Lemma bind_trace_prefix {A B} (m : Run A) (f : A → Run B) :
  m.1 `prefix_of` (m ≫= f).1.
Proof.
  unfold mbind, Run_bind, Run.bind. destruct m as [t [a|e]]; cbn.
  - destruct (f a) as [t' r]. cbn. by apply prefix_app_r.
  - done.
Qed.

End RunFacts.

(** ** [get_emission] *)

Module ZodipyFacts.
Import Arrays ArraysFacts RunFacts Zodipy.

Section Interface.
Context `{Ephemeris, Healpy, Package}.

(** *** The checks of the arguments *)

Lemma get_emission_raise (self : Zodipy) (a : arguments) (e : exn) :
  check_arguments a = Raise e → get_emission self a = ([], Raise e).
Proof. intros Hc. unfold get_emission. rewrite Hc. apply bind_raise. Qed.

Lemma get_emission_checked (self : Zodipy) (a : arguments) (p : pointing) :
  check_arguments a = Ok p → get_emission self a = compute self a p.
Proof. intros Hc. unfold get_emission. rewrite Hc. apply bind_lift_Ok. Qed.

Lemma check_arguments_unsupported (a : arguments) :
  lower (obs a) ∉ observers →
  check_arguments a
  = Raise (ValueError (MsgUnsupportedObserver (obs a) ephemeris_value)).
Proof. intros Hn. unfold check_arguments. by rewrite decide_False. Qed.

Lemma check_arguments_invalid (a : arguments) :
  lower (obs a) ∈ observers → invalid_combination a →
  ∃ msg, check_arguments a = Raise (ValueError msg) ∧ complains_about a msg.
Proof.
  intros Hobs Hinv. unfold check_arguments. rewrite decide_True by done.
  unfold invalid_combination, complains_about in *.
  destruct (pixels a) as [px|], (nside a) as [ns|], (binned a),
    (theta a) as [th|], (phi a) as [ph|], (lonlat a); cbn;
    try (eexists; split; [reflexivity|]; cbn; intuition congruence);
    exfalso; intuition congruence.
Qed.

(** C5: a call with an unsupported observer name, or with pixels but no
    nside, pixels together with angles, binned without nside, or only one
    of theta and phi, raises a [ValueError] whose message names a violation
    that is present, and raises it before any call to the ephemeris, the
    interpolation, healpy or the integrator: the trace is empty.  An
    unsupported observer is reported first. *)
Theorem invalid_arguments_fail_first (self : Zodipy) (a : arguments) :
  lower (obs a) ∉ observers ∨ invalid_combination a →
  ∃ msg,
    get_emission self a = ([], Raise (ValueError msg)) ∧
    complains_about a msg ∧
    (lower (obs a) ∉ observers →
     msg = MsgUnsupportedObserver (obs a) ephemeris_value).
Proof.
  intros Hbad.
  destruct (decide (lower (obs a) ∈ observers)) as [Hobs|Hobs].
  - destruct Hbad as [Hbad|Hbad]; [done|].
    destruct (check_arguments_invalid a Hobs Hbad) as (msg & Hc & Hmsg).
    exists msg. split; [by apply get_emission_raise|]. split; [done|].
    intros Hn. done.
  - eexists. split.
    + apply get_emission_raise. by apply check_arguments_unsupported.
    + split; [|done]. cbn. done.
Qed.

(** *** The observer at L2 *)





Lemma prepare_positions (self : Zodipy) (a : arguments) (s : shared)
    (earth_pos observer_pos : Vec3) :
  (resolve_positions a).2 = Ok (earth_pos, observer_pos) →
  (prepare self a).2 = Ok s →
  s_earth_pos s = earth_pos ∧ s_observer_pos s = observer_pos.
Proof.
  intros Hpos Hs. unfold prepare in Hs.
  apply bind_Ok_inv in Hs as ([e o] & Hpos' & Hs).
  apply bind_Ok_inv in Hs as ([] & _ & Hs).
  apply bind_Ok_inv in Hs as ([] & _ & Hs).
  apply bind_Ok_inv in Hs as (cloud & _ & Hs).
  injection Hs as <-. cbn. split; congruence.
Qed.


(** *** What a checked call looks at *)

Lemma avalue_conv (a : arguments) (q : angles) :
  ∃ g : R → R, avalue (conv a q) = g <$> avalue q.
Proof.
  unfold conv, to_deg. destruct (lonlat a), (aunit q); cbn.
  - eexists. reflexivity.
  - exists (λ x, x). by rewrite list_fmap_id.
  - exists (λ x, x). by rewrite list_fmap_id.
  - exists (λ x, x). by rewrite list_fmap_id.
Qed.

(** The pointing that the checks hand on: the pixels, or both angles. *)
Lemma check_arguments_Ok (a : arguments) (p : pointing) :
  check_arguments a = Ok p →
  (∃ px ns, pixels a = Some px ∧ nside a = Some ns ∧
            theta a = None ∧ phi a = None ∧
            p_pixels p = Some (pixel_sequence px)) ∨
  (pixels a = None ∧ p_pixels p = None ∧
   p_theta p = avalue <$> (conv a <$> theta a) ∧
   p_phi p = avalue <$> (conv a <$> phi a) ∧
   (is_Some (theta a) ↔ is_Some (phi a)) ∧
   (binned a = true → is_Some (nside a))).
Proof.
  unfold check_arguments, conv. case_decide; [|done].
  destruct (pixels a) as [px|], (nside a) as [ns|], (binned a),
    (theta a) as [th|], (phi a) as [ph|], (lonlat a); cbn;
    try discriminate; intros [= <-]; cbn;
    first [ solve [left; eauto 10]
          | right; repeat split; solve [done | eauto | by intros [? [=]] ] ].
Qed.

Lemma timestream_rows_Ok (self : Zodipy) (a : arguments) (s : shared)
    (unit_vectors : list Vec3) (indicies : list nat)
    (cs : list (CompLabel * Component)) (rows : list (list R)) :
  (timestream_rows self a s unit_vectors indicies cs).2 = Ok rows →
  Forall2 (λ lc row, ∃ integrated,
             (call_trapezoidal self a s unit_vectors lc.1 lc.2).2 = Ok integrated ∧
             getitem integrated (Z.of_nat <$> indicies) = Ok row)
    cs rows.
Proof.
  revert rows.
  induction cs as [|[label component] cs IH]; intros rows; cbn [timestream_rows].
  - intros [= <-]. constructor.
  - intros Hrun.
    apply bind_Ok_inv in Hrun as (integrated & Hint & Hrun).
    apply bind_Ok_inv in Hrun as (row & Hrow & Hrun).
    apply bind_Ok_inv in Hrun as (rows' & Hrows & Hrun).
    injection Hrun as <-. constructor; [|by apply IH].
    exists integrated. done.
Qed.

(** A checked call that returns has prepared the shared inputs and has
    run one of the two branches. *)
Lemma compute_inv (self : Zodipy) (a : arguments) (p : pointing)
    (out : emission_out) :
  (compute self a p).2 = Ok out →
  ∃ s ncols rows,
    (prepare self a).2 = Ok s ∧
    (if binned a then binned_emission self a p s
     else timestream_emission self a p s).2 = Ok (ncols, rows) ∧
    out = finish a ncols rows.
Proof.
  intros Hrun. unfold compute in Hrun.
  apply bind_Ok_inv in Hrun as (s & Hs & Hrun).
  apply bind_Ok_inv in Hrun as ([ncols rows] & Hrows & Hrun).
  injection Hrun as <-. eauto 10.
Qed.

Lemma timestream_emission_inv (self : Zodipy) (a : arguments) (p : pointing)
    (s : shared) (n : nat) (rows : list (list R)) :
  (timestream_emission self a p s).2 = Ok (n, rows) →
  ∃ (indicies : list nat) (unit_vectors : list Vec3),
    ((∃ pixels, p_pixels p = Some pixels ∧ n = length pixels ∧
                indicies = (unique_inverse Z.compare pixels).2 ∧
                (_rotated_pix2vec (unique Z.compare pixels)
                   (default 0%Z (nside a)) (coord_out a)).2
                = Ok unit_vectors) ∨
     (∃ cols, p_pixels p = None ∧
              columns (p_theta p) (p_phi p) = Ok cols ∧ n = length cols ∧
              indicies = (unique_inverse cmp_column cols).2 ∧
              (_rotated_ang2vec (unique cmp_column cols).*1
                 (unique cmp_column cols).*2 (lonlat a) (coord_out a)).2
              = Ok unit_vectors)) ∧
    Forall2 (λ lc row, ∃ integrated,
               (call_trapezoidal self a s unit_vectors lc.1 lc.2).2 = Ok integrated ∧
               getitem integrated (Z.of_nat <$> indicies) = Ok row)
      (comps (_model self)) rows.
Proof.
  intros Hrows. unfold timestream_emission in Hrows.
  apply bind_Ok_inv in Hrows as ([[n' indicies] unit_vectors] & Hsel & Hrows).
  apply bind_Ok_inv in Hrows as (rows' & Hrows & Hret).
  injection Hret as <- <-.
  exists indicies, unit_vectors. split.
  - destruct (p_pixels p) as [pixels|].
    + left. exists pixels. split; [done|].
      apply bind_Ok_inv in Hsel as (vs & Hvs & Hsel).
      injection Hsel as <- <- <-. done.
    + right.
      apply bind_Ok_inv in Hsel as (cols & Hcols & Hsel).
      apply bind_Ok_inv in Hsel as (vs & Hvs & Hsel).
      injection Hsel as <- <- <-. exists cols. done.
  - by eapply timestream_rows_Ok.
Qed.

(** *** Repeated directions in a timestream *)

Lemma agree_fmap (f : R → R) (i j : nat) (row : list R) :
  agree i j row → agree i j (f <$> row).
Proof.
  intros (v & Hi & Hj). exists (f v). by rewrite !list_lookup_fmap, Hi, Hj.
Qed.

Lemma agree_sum_axis0 (n i j : nat) (rows : list (list R)) :
  (i < n)%nat → (j < n)%nat →
  Forall (agree i j) rows → agree i j (sum_axis0 n rows).
Proof.
  intros Hi Hj. unfold sum_axis0. induction 1 as [|row rows Hrow _ IH]; cbn.
  - exists 0. by rewrite !lookup_zeros.
  - destruct Hrow as (v & Hvi & Hvj), IH as (w & Hwi & Hwj).
    exists (v + w). by rewrite !lookup_zip_with, Hvi, Hvj, Hwi, Hwj.
Qed.

Lemma agree_getitem (integrated row : list R) (indicies : list nat) (i j k : nat) :
  getitem integrated (Z.of_nat <$> indicies) = Ok row →
  indicies !! i = Some k → indicies !! j = Some k →
  agree i j row.
Proof.
  intros Hget Hi Hj. apply getitem_nat_lookup in Hget as [_ Hget].
  destruct (Hget i k Hi) as (x & Hxi & Hxk).
  destruct (Hget j k Hj) as (y & Hyj & Hyk).
  exists x. split; [done|]. congruence.
Qed.

Lemma agree_finish (a : arguments) (n i j : nat) (rows : list (list R)) :
  (i < n)%nat → (j < n)%nat →
  Forall (agree i j) rows →
  Forall (agree i j) (out_rows (finish a n rows)).
Proof.
  intros Hi Hj Hrows.
  assert (Hscaled : Forall (agree i j)
            (fmap (M := list) (λ x, x * MJy_per_W) <$> rows)).
  { apply Forall_fmap. eapply Forall_impl; [exact Hrows|].
    intros row Hrow. by apply agree_fmap. }
  unfold finish. destruct (return_comps a); cbn.
  - exact Hscaled.
  - constructor; [|constructor]. by apply agree_sum_axis0.
Qed.

(** Equal requests reach [np.unique] as equal entries. *)
Lemma requested_repeat (a : arguments) (p : pointing) (i j : nat) (d : direction) :
  check_arguments a = Ok p →
  requested a !! i = Some d → requested a !! j = Some d →
  (∀ pixels, p_pixels p = Some pixels →
     (i < length pixels)%nat ∧ (j < length pixels)%nat ∧
     pixels !! i = pixels !! j) ∧
  (∀ cols, p_pixels p = None → columns (p_theta p) (p_phi p) = Ok cols →
     (i < length cols)%nat ∧ (j < length cols)%nat ∧
     cols !! i = cols !! j).
Proof.
  intros Hc Hi Hj. unfold requested in *.
  destruct (check_arguments_Ok a p Hc)
    as [(px & ns & Hpx & _ & _ & _ & Hp)|(Hpx & Hp & Hth & Hph & _)];
    rewrite Hpx in Hi, Hj.
  - split; [|intros cols; congruence].
    intros pixels Hpixels. rewrite Hp in Hpixels. injection Hpixels as <-.
    rewrite list_lookup_fmap in Hi, Hj.
    destruct (pixel_sequence px !! i) as [pi|] eqn:Hpi; [|done].
    destruct (pixel_sequence px !! j) as [pj|] eqn:Hpj; [|done].
    apply lookup_lt_Some in Hpi as Hli. apply lookup_lt_Some in Hpj as Hlj.
    cbn in Hi, Hj. injection Hi as <-. injection Hj as ->. done.
  - split; [intros pixels; congruence|].
    intros cols _ Hcols. rewrite Hth, Hph in Hcols.
    destruct (theta a) as [th|]; [|done]. destruct (phi a) as [ph|]; [|done].
    cbn in Hcols. case_decide as Hlen; [|done]. injection Hcols as <-.
    apply lookup_zip_with_Some in Hi as (t & f & -> & Hti & Hfi).
    apply lookup_zip_with_Some in Hj as (t' & f' & [= <- <-] & Htj & Hfj).
    destruct (avalue_conv a th) as (g & ->).
    destruct (avalue_conv a ph) as (g' & ->).
    rewrite length_zip, !length_fmap.
    apply lookup_lt_Some in Hti as Hli. apply lookup_lt_Some in Htj as Hlj.
    apply lookup_lt_Some in Hfi as Hmi. apply lookup_lt_Some in Hfj as Hmj.
    split; [lia|]. split; [lia|].
    rewrite !lookup_zip_with, !list_lookup_fmap.
    by rewrite Hti, Htj, Hfi, Hfj.
Qed.

(** In a call that is not binned, two input positions that hold the same
    direction (the same pixel, or the same theta and phi) hold the same
    value in every row of the result, that is for every component and for
    the total. *)
Lemma repeated_direction_same_value (self : Zodipy) (a : arguments)
    (out : emission_out) (i j : nat) (d : direction) :
  binned a = false →
  Run.outcome (get_emission self a) = Ok out →
  requested a !! i = Some d →
  requested a !! j = Some d →
  ∀ row, row ∈ out_rows out → ∃ v, row !! i = Some v ∧ row !! j = Some v.
Proof.
  intros Hb Hrun Hi Hj. unfold Run.outcome in Hrun.
  apply bind_Ok_inv in Hrun as (p & Hc & Hrun). cbn in Hc.
  apply compute_inv in Hrun as (s & n & rows & _ & Hrun & ->).
  rewrite Hb in Hrun.
  destruct (timestream_emission_inv self a p s n rows Hrun)
    as (indicies & unit_vectors & Hsel & Hrows).
  destruct (requested_repeat a p i j d Hc Hi Hj) as [Hpix Hcol].
  assert (Hsame : (i < n)%nat ∧ (j < n)%nat ∧
                  ∃ k, indicies !! i = Some k ∧ indicies !! j = Some k).
  { destruct Hsel as [(pixels & Hp & -> & -> & _)|(cols & Hp & Hcols & -> & -> & _)].
    - destruct (Hpix pixels Hp) as (Hli & Hlj & Heq).
      split; [done|]. split; [done|].
      pose proof (unique_inverse_repeat Z.compare pixels i j Heq) as Hrep.
      destruct (lookup_lt_is_Some_2 (unique_inverse Z.compare pixels).2 i)
        as [k Hk]; [by rewrite unique_inverse_length|].
      exists k. split; [done|]. by rewrite <- Hrep.
    - destruct (Hcol cols Hp Hcols) as (Hli & Hlj & Heq).
      split; [done|]. split; [done|].
      pose proof (unique_inverse_repeat cmp_column cols i j Heq) as Hrep.
      destruct (lookup_lt_is_Some_2 (unique_inverse cmp_column cols).2 i)
        as [k Hk]; [by rewrite unique_inverse_length|].
      exists k. split; [done|]. by rewrite <- Hrep. }
  destruct Hsame as (Hli & Hlj & k & Hki & Hkj).
  assert (Hagree : Forall (agree i j) rows).
  { apply Forall_forall. intros row Hrow.
    apply list_elem_of_lookup in Hrow as [c Hc'].
    destruct (Forall2_lookup_r _ _ _ _ _ Hrows Hc')
      as (lc & _ & integrated & _ & Hget).
    by eapply agree_getitem. }
  intros row Hrow.
  pose proof (agree_finish a n i j rows Hli Hlj Hagree) as Hall.
  rewrite Forall_forall in Hall. by apply Hall.
Qed.

(** *** The binned map *)

Lemma binned_rows_Ok (self : Zodipy) (a : arguments) (s : shared)
    (unit_vectors : list Vec3) (npix : nat) (unique_pixels : list Z)
    (cs : list (CompLabel * Component)) (rows : list (list R)) :
  (binned_rows self a s unit_vectors npix unique_pixels cs).2 = Ok rows →
  Forall2 (λ lc row, ∃ integrated,
             (call_trapezoidal self a s unit_vectors lc.1 lc.2).2 = Ok integrated ∧
             setitem (zeros npix) unique_pixels integrated = Ok row)
    cs rows.
Proof.
  revert rows.
  induction cs as [|[label component] cs IH]; intros rows; cbn [binned_rows].
  - intros [= <-]. constructor.
  - intros Hrun.
    apply bind_Ok_inv in Hrun as (integrated & Hint & Hrun).
    apply bind_Ok_inv in Hrun as (row & Hrow & Hrun).
    apply bind_Ok_inv in Hrun as (rows' & Hrows & Hrun).
    injection Hrun as <-. constructor; [|by apply IH].
    exists integrated. done.
Qed.

Lemma scale_rows_Ok (rows rows' : list (list R)) (unique_pixels : list Z)
    (counts : list nat) :
  scale_rows rows unique_pixels counts = Ok rows' →
  Forall2 (λ row row', imul_at row unique_pixels (INR <$> counts) = Ok row')
    rows rows'.
Proof.
  revert rows'. induction rows as [|row rows IH]; intros rows'; cbn.
  - intros [= <-]. constructor.
  - destruct (imul_at row _ _) as [row'|] eqn:Hrow; [|done].
    destruct (scale_rows rows _ _) as [rs|] eqn:Hrs; [|done].
    intros [= <-]. constructor; [done|]. by apply IH.
Qed.

Lemma binned_emission_inv (self : Zodipy) (a : arguments) (p : pointing)
    (s : shared) (n : nat) (rows' : list (list R)) :
  (binned_emission self a p s).2 = Ok (n, rows') →
  n = map_size a ∧
  ∃ (unique_pixels : list Z) (counts : list nat) (unit_vectors : list Vec3)
    (rows : list (list R)),
    ((∃ pixels, p_pixels p = Some pixels ∧
                unique_pixels = unique Z.compare pixels ∧
                counts = (unique_counts Z.compare pixels).2 ∧
                (_rotated_pix2vec unique_pixels (default 0%Z (nside a))
                   (coord_out a)).2
                = Ok unit_vectors) ∨
     (∃ cols, p_pixels p = None ∧
              columns (p_theta p) (p_phi p) = Ok cols ∧
              unique_pixels
              = (λ c, ang2pix (default 0%Z (nside a)) c.1 c.2 (lonlat a))
                  <$> unique cmp_column cols ∧
              counts = (unique_counts cmp_column cols).2 ∧
              (_rotated_ang2vec (unique cmp_column cols).*1
                 (unique cmp_column cols).*2 (lonlat a) (coord_out a)).2
              = Ok unit_vectors)) ∧
    Forall2 (λ lc row, ∃ integrated,
               (call_trapezoidal self a s unit_vectors lc.1 lc.2).2 = Ok integrated ∧
               setitem (zeros (map_size a)) unique_pixels integrated = Ok row)
      (comps (_model self)) rows ∧
    Forall2 (λ row row', imul_at row unique_pixels (INR <$> counts) = Ok row')
      rows rows'.
Proof.
  intros Hrows. unfold binned_emission in Hrows.
  apply bind_Ok_inv in Hrows
    as ([[unique_pixels counts] unit_vectors] & Hsel & Hrows).
  apply bind_Ok_inv in Hrows as ([] & _ & Hrows).
  apply bind_Ok_inv in Hrows as (rows & Hrows & Hscale).
  apply bind_Ok_inv in Hscale as (rows'' & Hscale & Hret).
  injection Hret as <- <-. split; [done|].
  exists unique_pixels, counts, unit_vectors, rows.
  split; [|split].
  - destruct (p_pixels p) as [pixels|].
    + left. exists pixels. split; [done|].
      apply bind_Ok_inv in Hsel as (vs & Hvs & Hsel).
      injection Hsel as <- <- <-. done.
    + right.
      apply bind_Ok_inv in Hsel as (cols & Hcols & Hsel).
      apply bind_Ok_inv in Hsel as ([] & _ & Hsel).
      apply bind_Ok_inv in Hsel as (vs & Hvs & Hsel).
      injection Hsel as <- <- <-. exists cols. done.
  - by apply binned_rows_Ok.
  - by apply scale_rows_Ok.
Qed.

(** Every pixel that the map is written at is the pixel of a requested
    direction. *)
Lemma written_pixels_requested (a : arguments) (p : pointing)
    (unique_pixels : list Z) :
  check_arguments a = Ok p →
  ((∃ pixels, p_pixels p = Some pixels ∧
              unique_pixels = unique Z.compare pixels) ∨
   (∃ cols, p_pixels p = None ∧
            columns (p_theta p) (p_phi p) = Ok cols ∧
            unique_pixels
            = (λ c, ang2pix (default 0%Z (nside a)) c.1 c.2 (lonlat a))
                <$> unique cmp_column cols)) →
  ∀ x, x ∈ unique_pixels → x ∈ pixelized a.
Proof.
  intros Hc Hsel x Hx. unfold pixelized.
  destruct (check_arguments_Ok a p Hc)
    as [(px & ns & Hpx & _ & _ & _ & Hp)|(Hpx & Hp & Hth & Hph & _)];
    rewrite Hpx.
  - destruct Hsel as [(pixels & Hpix & ->)|(cols & Hnone & _)]; [|congruence].
    rewrite Hp in Hpix. injection Hpix as <-.
    exact (proj1 (elem_of_unique Z.compare Z.compare_eq_iff x _) Hx).
  - destruct Hsel as [(pixels & Hpix & _)|(cols & _ & Hcols & ->)]; [congruence|].
    rewrite Hth, Hph in Hcols.
    destruct (theta a) as [th|]; [|done]. destruct (phi a) as [ph|]; [|done].
    cbn in Hcols. case_decide; [|done]. injection Hcols as <-.
    apply list_elem_of_fmap in Hx as (c & -> & Hcu).
    apply (proj1 (elem_of_unique cmp_column cmp_column_Eq c _)) in Hcu.
    rewrite zip_with_zip. apply list_elem_of_fmap. exists c. by destruct c.
Qed.

Lemma not_addressed (n q : nat) (p : Z) :
  p ≠ Z.of_nat q → (p + Z.of_nat n)%Z ≠ Z.of_nat q →
  normalize_index n p ≠ Ok q.
Proof.
  intros Hp Hpn Hq. apply normalize_index_cases in Hq. lia.
Qed.

Lemma zero_sum_axis0 (n q : nat) (rows : list (list R)) :
  (q < n)%nat →
  Forall (λ row, row !! q = Some 0) rows →
  sum_axis0 n rows !! q = Some 0.
Proof.
  intros Hq. unfold sum_axis0. induction 1 as [|row rows Hrow _ IH]; cbn.
  - by apply lookup_zeros.
  - rewrite lookup_zip_with, Hrow, IH. cbn. f_equal. lra.
Qed.

Lemma zero_finish (a : arguments) (n q : nat) (rows : list (list R)) :
  (q < n)%nat →
  Forall (λ row, length row = n ∧ row !! q = Some 0) rows →
  Forall (λ row, length row = n ∧ row !! q = Some 0) (out_rows (finish a n rows)).
Proof.
  intros Hq Hrows.
  assert (Hscaled : Forall (λ row, length row = n ∧ row !! q = Some 0)
            (fmap (M := list) (λ x, x * MJy_per_W) <$> rows)).
  { apply Forall_fmap. eapply Forall_impl; [exact Hrows|].
    intros row [Hlen Hrow]. cbn. rewrite length_fmap, list_lookup_fmap, Hrow.
    split; [done|]. cbn. f_equal. lra. }
  unfold finish. destruct (return_comps a); cbn.
  - exact Hscaled.
  - constructor; [|constructor]. split.
    + apply sum_axis0_length. eapply Forall_impl; [exact Hscaled|]. by intros ? [].
    + apply zero_sum_axis0; [done|].
      eapply Forall_impl; [exact Hscaled|]. by intros ? [].
Qed.

(** C10: in the map of a binned call, a cell that no requested pixel
    addresses holds exactly 0 in every row, that is for every component and
    for the total.  A pixel index [p] addresses the cell [p], or the cell
    [p + npix] when it is negative; for indices within the map a cell is
    addressed exactly when its pixel occurs among the pixelized input. *)
Theorem binned_map_zero_elsewhere (self : Zodipy) (a : arguments)
    (out : emission_out) (q : nat) :
  binned a = true →
  Run.outcome (get_emission self a) = Ok out →
  (q < map_size a)%nat →
  (∀ p, p ∈ pixelized a →
        p ≠ Z.of_nat q ∧ (p + Z.of_nat (map_size a))%Z ≠ Z.of_nat q) →
  ∀ row, row ∈ out_rows out → length row = map_size a ∧ row !! q = Some 0.
Proof.
  intros Hb Hrun Hq Hfree. unfold Run.outcome in Hrun.
  apply bind_Ok_inv in Hrun as (p & Hc & Hrun). cbn in Hc.
  apply compute_inv in Hrun as (s & n & rows' & _ & Hrun & ->).
  rewrite Hb in Hrun.
  destruct (binned_emission_inv self a p s n rows' Hrun)
    as (-> & unique_pixels & counts & unit_vectors & rows & Hsel & Hrows & Hscale).
  assert (Hwritten : ∀ x, x ∈ unique_pixels → x ∈ pixelized a).
  { apply (written_pixels_requested a p); [done|].
    destruct Hsel as [(pixels & ? & ? & _)|(cols & ? & ? & ? & _)]; eauto 10. }
  assert (Hother : ∀ n x, n = map_size a → x ∈ unique_pixels →
                     normalize_index n x ≠ Ok q).
  { intros n x -> Hx. destruct (Hfree x (Hwritten x Hx)). by apply not_addressed. }
  assert (Hzero : Forall (λ row, length row = map_size a ∧ row !! q = Some 0) rows').
  { apply Forall_forall. intros row' Hrow'.
    apply list_elem_of_lookup in Hrow' as [i Hi].
    destruct (Forall2_lookup_r _ _ _ _ _ Hscale Hi) as (row & Hrow & Hmul).
    destruct (Forall2_lookup_r _ _ _ _ _ Hrows Hrow)
      as (lc & _ & integrated & _ & Hset).
    pose proof (setitem_length _ _ _ _ Hset) as Hlen.
    rewrite length_zeros in Hlen.
    split.
    - rewrite (imul_at_length _ _ _ _ Hmul). exact Hlen.
    - rewrite (imul_at_other _ _ _ _ q Hmul).
      + rewrite (setitem_other _ _ _ _ q Hset).
        * by apply lookup_zeros.
        * intros x Hx. apply Hother; [by rewrite length_zeros|done].
      + intros x Hx. by apply Hother. }
  intros row Hrow.
  pose proof (zero_finish a (map_size a) q rows' Hq Hzero) as Hall.
  rewrite Forall_forall in Hall. by apply Hall.
Qed.

(** *** What a binned map holds at a requested pixel *)

Lemma rotated_pix2vec_length (pixels : list Z) (nside : Z) (coord_out : coord)
    (unit_vectors : list Vec3) :
  (_rotated_pix2vec pixels nside coord_out).2 = Ok unit_vectors →
  length unit_vectors = length pixels.
Proof.
  unfold _rotated_pix2vec. rewrite bind_emit. cbn [snd].
  case_decide; [rewrite bind_emit|]; cbn; intros [= <-]; by rewrite ?length_fmap.
Qed.

Lemma call_trapezoidal_length (self : Zodipy) (a : arguments) (s : shared)
    (unit_vectors : list Vec3) (label : CompLabel) (component : Component)
    (integrated : list R) :
  one_value_per_line_of_sight →
  (call_trapezoidal self a s unit_vectors label component).2 = Ok integrated →
  length integrated = length unit_vectors.
Proof.
  intros Hone. unfold call_trapezoidal.
  destruct (_line_of_sights self label); [|done].
  destruct (s_spectral s label) as [[emissivity albedo]|]; [|done].
  rewrite bind_emit. cbn. intros [= <-]. apply Hone.
Qed.

(** For pixel input within the map: the cell of a requested pixel holds the
    integrated emission of that pixel times the number of times the pixel
    occurs in the input, in MJy/sr. *)
Lemma binned_pixels_value (self : Zodipy) (a : arguments) (px : pixels_arg)
    (out : emission_out) :
  one_value_per_line_of_sight →
  binned a = true → return_comps a = true →
  pixels a = Some px →
  Forall (λ p, 0 ≤ p < Z.of_nat (map_size a))%Z (pixel_sequence px) →
  (get_emission self a).2 = Ok out →
  ∃ s unit_vectors rows,
    out = PerComponent rows ∧
    (prepare self a).2 = Ok s ∧
    (_rotated_pix2vec (unique Z.compare (pixel_sequence px))
       (default 0%Z (nside a)) (coord_out a)).2 = Ok unit_vectors ∧
    Forall2 (λ lc row, ∃ integrated,
               (call_trapezoidal self a s unit_vectors lc.1 lc.2).2 = Ok integrated ∧
               length row = map_size a ∧
               ∀ k p, unique Z.compare (pixel_sequence px) !! k = Some p →
                 ∃ v, integrated !! k = Some v ∧
                      row !! Z.to_nat p
                      = Some (v * INR (occurrences Z.compare p (pixel_sequence px))
                              * MJy_per_W))
      (comps (_model self)) rows.
Proof.
  intros Hone Hb Hrc Hpx Hrange Hrun.
  apply bind_Ok_inv in Hrun as (p & Hc & Hrun). cbn in Hc.
  apply compute_inv in Hrun as (s & n & rows' & Hs & Hrun & ->).
  rewrite Hb in Hrun.
  destruct (binned_emission_inv self a p s n rows' Hrun)
    as (-> & unique_pixels & counts & unit_vectors & rows & Hsel & Hrows & Hscale).
  destruct (check_arguments_Ok a p Hc)
    as [(px' & ns & Hpx' & _ & _ & _ & Hp)|(Hnone & _)]; [|congruence].
  assert (px' = px) as -> by congruence.
  destruct Hsel as [(pixels & Hpix & -> & -> & Hvec)|(cols & Hnone & _)];
    [|congruence].
  assert (pixels = pixel_sequence px) as -> by congruence.
  set (u := unique Z.compare (pixel_sequence px)) in *.
  assert (Hu : Forall (λ p, 0 ≤ p < Z.of_nat (map_size a))%Z u).
  { apply Forall_forall. intros x Hx. rewrite Forall_forall in Hrange.
    apply Hrange. exact (proj1 (elem_of_unique Z.compare Z.compare_eq_iff x _) Hx). }
  assert (Hnd : NoDup u) by apply unique_pixels_NoDup.
  exists s, unit_vectors, (fmap (M := list) (λ x, x * MJy_per_W) <$> rows').
  split; [unfold finish; by rewrite Hrc|].
  split; [done|]. split; [done|].
  apply Forall2_fmap_r.
  apply Forall2_same_length_lookup. split.
  { apply Forall2_length in Hrows, Hscale. lia. }
  intros i lc row' Hlc Hrow'.
  destruct (Forall2_lookup_r _ _ _ _ _ Hscale Hrow') as (row & Hrow & Hmul).
  destruct (Forall2_lookup_lr _ _ _ _ _ _ Hrows Hlc Hrow)
    as (integrated & Hint & Hset).
  pose proof (call_trapezoidal_length _ _ _ _ _ _ _ Hone Hint) as Hlen.
  rewrite (rotated_pix2vec_length _ _ _ _ Hvec) in Hlen.
  pose proof (setitem_length _ _ _ _ Hset) as Hrowlen.
  rewrite length_zeros in Hrowlen.
  exists integrated. split; [done|]. split.
  { rewrite length_fmap, (imul_at_length _ _ _ _ Hmul). done. }
  intros k x Hk.
  destruct (lookup_lt_is_Some_2 integrated k) as [v Hv].
  { rewrite Hlen. by eapply lookup_lt_Some. }
  exists v. split; [done|].
  rewrite list_lookup_fmap.
  rewrite (imul_at_lookup row u (INR <$> (unique_counts Z.compare (pixel_sequence px)).2)
             row' k x v (INR (occurrences Z.compare x (pixel_sequence px)))).
  - done.
  - by rewrite Hrowlen.
  - done.
  - cbn. by rewrite !length_fmap.
  - done.
  - done.
  - rewrite (setitem_lookup (zeros (map_size a)) u integrated row k x);
      [done|by rewrite length_zeros|done|done|done|done].
  - by rewrite list_lookup_fmap, (unique_counts_lookup Z.compare _ k x Hk).
Qed.

(** X21: for pixels that are all different and within the map, the binned
    map holds at each requested pixel the value that the timestream holds at
    the position of that pixel in the input. *)
Lemma binned_matches_timestream (self : Zodipy) (a : arguments) (px : pixels_arg)
    (map_rows ts_rows : list (list R)) :
  one_value_per_line_of_sight →
  return_comps a = true →
  pixels a = Some px →
  NoDup (pixel_sequence px) →
  Forall (λ p, 0 ≤ p < Z.of_nat (map_size a))%Z (pixel_sequence px) →
  (get_emission self (with_binned true a)).2 = Ok (PerComponent map_rows) →
  (get_emission self (with_binned false a)).2 = Ok (PerComponent ts_rows) →
  Forall2 (λ mrow trow,
             ∀ i p, pixel_sequence px !! i = Some p →
               ∃ v, trow !! i = Some v ∧ mrow !! Z.to_nat p = Some v)
    map_rows ts_rows.
Proof.
  intros Hone Hrc Hpx Hnd Hrange Hmap Hts.
  destruct (binned_pixels_value self (with_binned true a) px _ Hone eq_refl
              Hrc Hpx Hrange Hmap)
    as (s & unit_vectors & rows & [= <-] & Hs & Hvec & Hcells).
  apply bind_Ok_inv in Hts as (p & Hc & Hts). cbn in Hc.
  apply compute_inv in Hts as (s' & n & rows' & Hs' & Hts & Hout).
  change (prepare self (with_binned false a)) with (prepare self a) in Hs'.
  change (prepare self (with_binned true a)) with (prepare self a) in Hs.
  assert (s' = s) as -> by congruence.
  cbn [binned with_binned] in Hts.
  destruct (timestream_emission_inv self _ p s n rows' Hts)
    as (indicies & unit_vectors' & Hsel & Hrows).
  destruct (check_arguments_Ok _ p Hc)
    as [(px' & ns & Hpx' & _ & _ & _ & Hp)|(Hnone & _)];
    [|cbn in Hnone; congruence].
  cbn in Hpx'. assert (px' = px) as -> by congruence.
  destruct Hsel as [(pixels & Hpix & -> & -> & Hvec')|(cols & Hnone & _)];
    [|congruence].
  assert (pixels = pixel_sequence px) as -> by congruence.
  cbn [nside coord_out with_binned] in Hvec, Hvec'.
  assert (unit_vectors' = unit_vectors) as -> by congruence.
  unfold finish in Hout. cbn [return_comps with_binned] in Hout.
  rewrite Hrc in Hout. injection Hout as ->.
  apply Forall2_fmap_r.
  apply Forall2_same_length_lookup. split.
  { apply Forall2_length in Hcells, Hrows. lia. }
  intros c mrow trow Hmrow Htrow.
  destruct (Forall2_lookup_r _ _ _ _ _ Hcells Hmrow)
    as (lc & Hlc & integrated & Hint & _ & Hcell).
  destruct (Forall2_lookup_lr _ _ _ _ _ _ Hrows Hlc Htrow)
    as (integrated' & Hint' & Hget).
  change (call_trapezoidal self (with_binned false a)) with (call_trapezoidal self a)
    in Hint'.
  change (call_trapezoidal self (with_binned true a)) with (call_trapezoidal self a)
    in Hint.
  assert (integrated' = integrated) as -> by congruence.
  intros i x Hi.
  set (u := unique Z.compare (pixel_sequence px)) in *.
  assert (Hxl : x ∈ pixel_sequence px) by by eapply list_elem_of_lookup_2.
  assert (Hk : u !! index_of Z.compare x u = Some x).
  { apply (index_of_lookup Z.compare Z.compare_eq_iff).
    exact (proj2 (elem_of_unique Z.compare Z.compare_eq_iff x _) Hxl). }
  destruct (Hcell _ _ Hk) as (v & Hv & Hm).
  apply getitem_nat_lookup in Hget as [_ Hget].
  destruct (Hget i (index_of Z.compare x u)) as (w & Hw & Hw').
  { cbn. by rewrite list_lookup_fmap, Hi. }
  assert (w = v) as -> by congruence.
  exists (v * MJy_per_W). split.
  - by rewrite list_lookup_fmap, Hw.
  - rewrite Hm.
    rewrite (occurrences_NoDup Z.compare Z.compare_eq_iff x _ Hnd Hxl).
    cbn [INR]. f_equal. lra.
Qed.


(** *** What the checks do not look at *)

(** Pixels with a resolution, and nothing else about the pointing, pass the
    checks whatever the pixel indices are. *)
Lemma check_arguments_any_pixels (a : arguments) (px : pixels_arg) (ns : Z) :
  lower (obs a) ∈ observers →
  pixels a = Some px → nside a = Some ns →
  theta a = None → phi a = None → lonlat a = false →
  check_arguments a
  = Ok {| p_pixels := Some (pixel_sequence px); p_theta := None; p_phi := None |}.
Proof.
  intros Hobs Hpx Hns Hth Hph Hll. unfold check_arguments.
  rewrite decide_True by done. rewrite Hpx, Hns, Hth, Hph, Hll.
  by destruct (binned a).
Qed.

(** A call that passes the checks starts by asking the ephemeris for the
    Earth: the frequency has not been looked at by then. *)
Lemma checked_call_queries_ephemeris (self : Zodipy) (a : arguments) (p : pointing) :
  check_arguments a = Ok p →
  ∃ t, (get_emission self a).1 = EvGetBody "Earth" :: t.
Proof.
  intros Hc. rewrite (get_emission_checked self a p Hc).
  assert (Hpre : [EvGetBody "Earth"] `prefix_of` (compute self a p).1).
  { etrans; [|apply bind_trace_prefix].
    etrans; [|apply bind_trace_prefix].
    etrans; [|apply bind_trace_prefix].
    unfold call_get_body. by rewrite bind_emit. }
  destruct Hpre as [t Ht]. exists t. by rewrite Ht.
Qed.


(** *** Calls that return *)

Lemma bind_Ok {A B} (m : Run A) (f : A → Run B) (x : A) (y : B) :
  m.2 = Ok x → (f x).2 = Ok y → (m ≫= f).2 = Ok y.
Proof.
  unfold mbind, Run_bind, Run.bind. destruct m as [t r]. cbn. intros ->.
  destruct (f x) as [t' r']. done.
Qed.

Lemma resolve_positions_Ok (a : arguments) :
  ∃ earth_pos observer_pos, (resolve_positions a).2 = Ok (earth_pos, observer_pos).
Proof.
  unfold resolve_positions, call_get_body.
  destruct (obs_pos a); [|destruct (String.eqb _ _)]; eexists _, _; reflexivity.
Qed.

Lemma prepare_Ok (self : Zodipy) (a : arguments) :
  configured self a →
  ∃ s, (prepare self a).2 = Ok s ∧
       s_spectral s
       = interp_comp_spectral_params (to_unit (freq a) GHz)
           (emissivities (_model self)) (emissivity_spectrum (_model self))
           (albedos (_model self)) (albedo_spectrum (_model self)).
Proof.
  intros [[cloud Hcloud] _].
  destruct (resolve_positions_Ok a) as (earth_pos & observer_pos & Hpos).
  eexists. split.
  - unfold prepare.
    eapply bind_Ok; [exact Hpos|]. cbn beta iota.
    rewrite !bind_emit. cbn [snd]. rewrite Hcloud, bind_lift_Ok. reflexivity.
  - reflexivity.
Qed.

Lemma call_trapezoidal_Ok (self : Zodipy) (a : arguments) (s : shared)
    (unit_vectors : list Vec3) (label : CompLabel) (component : Component) :
  is_Some (_line_of_sights self label) → is_Some (s_spectral s label) →
  ∃ integrated,
    (call_trapezoidal self a s unit_vectors label component).2 = Ok integrated.
Proof.
  intros [los Hlos] [[emissivity albedo] Hsp]. unfold call_trapezoidal.
  rewrite Hlos, Hsp. eexists. reflexivity.
Qed.

Lemma index_of_lt {A} (cmp : A → A → comparison) (x : A) (l : list A) :
  (∀ x y, cmp x y = Eq ↔ x = y) → x ∈ l →
  (index_of cmp x (unique cmp l) < length (unique cmp l))%nat.
Proof.
  intros Heq Hx. eapply lookup_lt_Some.
  apply (index_of_lookup cmp Heq). by apply (elem_of_unique cmp Heq).
Qed.

Lemma take_all_returns {A} (a : list A) (js : list nat) :
  Forall (λ j, j < length a)%nat js → ∃ xs, take_all a js = Ok xs.
Proof.
  induction 1 as [|j js Hj _ [xs IH]]; cbn; [by eauto|].
  destruct (lookup_lt_is_Some_2 a j Hj) as [x ->]. rewrite IH. by eauto.
Qed.

Lemma getitem_nat_returns {A} (a : list A) (js : list nat) :
  Forall (λ j, j < length a)%nat js →
  ∃ xs, getitem a (Z.of_nat <$> js) = Ok xs.
Proof.
  intros Hjs. unfold getitem.
  rewrite normalize_indices_in_range.
  - apply take_all_returns. do 2 apply Forall_fmap.
    eapply Forall_impl; [exact Hjs|]. cbn. lia.
  - apply Forall_fmap. eapply Forall_impl; [exact Hjs|]. cbn. lia.
Qed.

Lemma timestream_rows_returns (self : Zodipy) (a : arguments) (s : shared)
    (unit_vectors : list Vec3) (indicies : list nat)
    (cs : list (CompLabel * Component)) :
  one_value_per_line_of_sight →
  Forall (λ j, j < length unit_vectors)%nat indicies →
  (∀ lc, lc ∈ cs →
     is_Some (_line_of_sights self lc.1) ∧ is_Some (s_spectral s lc.1)) →
  ∃ rows, (timestream_rows self a s unit_vectors indicies cs).2 = Ok rows.
Proof.
  intros Hone Hidx. induction cs as [|[label component] cs IH]; intros Hcs.
  - by eexists.
  - destruct (Hcs (label, component)) as [Hlos Hsp]; [by left|].
    destruct (call_trapezoidal_Ok self a s unit_vectors label component Hlos Hsp)
      as [integrated Hint].
    pose proof (call_trapezoidal_length _ _ _ _ _ _ _ Hone Hint) as Hlen.
    destruct (getitem_nat_returns integrated indicies) as [row Hrow];
      [by rewrite Hlen|].
    destruct IH as [rows Hrows]; [intros lc Hlc; apply Hcs; by right|].
    exists (row :: rows). cbn [timestream_rows].
    eapply bind_Ok; [exact Hint|]. rewrite Hrow, bind_lift_Ok.
    eapply bind_Ok; [exact Hrows|]. reflexivity.
Qed.


Lemma rotated_pix2vec_Ok (pixels : list Z) (nside : Z) (coord_out : coord) :
  ∃ unit_vectors,
    (_rotated_pix2vec pixels nside coord_out).2 = Ok unit_vectors ∧
    length unit_vectors = length pixels.
Proof.
  unfold _rotated_pix2vec. rewrite bind_emit. cbn [snd].
  case_decide; [rewrite bind_emit|]; eexists; (split; [reflexivity|]);
    by rewrite ?length_fmap.
Qed.

Lemma rotated_ang2vec_Ok (cols : list (R * R)) (lonlat : bool) (coord_out : coord) :
  ∃ unit_vectors,
    (_rotated_ang2vec cols.*1 cols.*2 lonlat coord_out).2 = Ok unit_vectors ∧
    length unit_vectors = length cols.
Proof.
  unfold _rotated_ang2vec. rewrite bind_emit. cbn [snd].
  case_decide; [rewrite bind_emit|]; eexists; (split; [reflexivity|]);
    rewrite ?length_fmap, length_zip_with, !length_fmap; lia.
Qed.

Lemma unique_inverse_lt {A} (cmp : A → A → comparison) (l : list A) :
  (∀ x y, cmp x y = Eq ↔ x = y) →
  Forall (λ j, j < length (unique cmp l))%nat (unique_inverse cmp l).2.
Proof.
  intros Heq. cbn. apply Forall_fmap, Forall_forall. intros x Hx. cbn.
  by apply index_of_lt.
Qed.

Lemma columns_Ok (a : arguments) (p : pointing) (th ph : angles) :
  theta a = Some th → phi a = Some ph →
  length (avalue th) = length (avalue ph) →
  p_theta p = avalue <$> (conv a <$> theta a) →
  p_phi p = avalue <$> (conv a <$> phi a) →
  ∃ cols, columns (p_theta p) (p_phi p) = Ok cols.
Proof.
  intros Hth Hph Hlen -> ->. rewrite Hth, Hph. cbn.
  destruct (avalue_conv a th) as (g & ->).
  destruct (avalue_conv a ph) as (g' & ->).
  rewrite decide_True by (by rewrite !length_fmap). by eauto.
Qed.

Lemma timestream_emission_returns (self : Zodipy) (a : arguments) (p : pointing)
    (s : shared) :
  one_value_per_line_of_sight →
  (∀ lc, lc ∈ comps (_model self) →
     is_Some (_line_of_sights self lc.1) ∧ is_Some (s_spectral s lc.1)) →
  pointing_given a →
  check_arguments a = Ok p →
  ∃ n rows, (timestream_emission self a p s).2 = Ok (n, rows).
Proof.
  intros Hone Hcs Hpt Hc. unfold timestream_emission.
  destruct (check_arguments_Ok a p Hc)
    as [(px & ns & Hpx & _ & _ & _ & Hp)|(Hpx & Hp & Hth & Hph & _)];
    rewrite Hp.
  - destruct (rotated_pix2vec_Ok (unique Z.compare (pixel_sequence px))
                (default 0%Z (nside a)) (coord_out a))
      as (unit_vectors & Hvec & Hlen).
    destruct (timestream_rows_returns self a s unit_vectors
                (unique_inverse Z.compare (pixel_sequence px)).2
                (comps (_model self)) Hone) as [rows Hrows]; [|done|].
    { rewrite Hlen. apply unique_inverse_lt, Z.compare_eq_iff. }
    eexists _, rows. cbn [unique_inverse].
    eapply bind_Ok; [eapply bind_Ok; [exact Hvec|reflexivity]|].
    cbn beta iota. eapply bind_Ok; [exact Hrows|]. reflexivity.
  - destruct Hpt as [[px' Hpx']|(th & ph & Hth' & Hph' & Hlen)]; [congruence|].
    destruct (columns_Ok a p th ph Hth' Hph' Hlen Hth Hph) as [cols Hcols].
    destruct (rotated_ang2vec_Ok (unique cmp_column cols) (lonlat a) (coord_out a))
      as (unit_vectors & Hvec & Hlenv).
    destruct (timestream_rows_returns self a s unit_vectors
                (unique_inverse cmp_column cols).2
                (comps (_model self)) Hone) as [rows Hrows]; [|done|].
    { rewrite Hlenv. apply unique_inverse_lt, cmp_column_Eq. }
    eexists _, rows. rewrite Hcols, bind_lift_Ok. cbn [unique_inverse].
    eapply bind_Ok; [eapply bind_Ok; [exact Hvec|reflexivity]|].
    cbn beta iota. eapply bind_Ok; [exact Hrows|]. reflexivity.
Qed.

(** A checked call for a timestream returns, when the model is configured,
    the pointing is given, and the integrator keeps its contract. *)
Lemma timestream_returns (self : Zodipy) (a : arguments) (p : pointing) :
  one_value_per_line_of_sight →
  configured self a → pointing_given a →
  binned a = false →
  check_arguments a = Ok p →
  ∃ out, Run.outcome (get_emission self a) = Ok out.
Proof.
  intros Hone Hconf Hpt Hb Hc. unfold Run.outcome.
  rewrite (get_emission_checked self a p Hc).
  destruct (prepare_Ok self a Hconf) as (s & Hs & Hsp).
  destruct (timestream_emission_returns self a p s Hone) as (n & rows & Hrows);
    [|done|done|].
  { intros lc Hlc. rewrite Hsp. by apply Hconf. }
  eexists. unfold compute.
  eapply bind_Ok; [exact Hs|]. rewrite Hb.
  eapply bind_Ok; [exact Hrows|]. reflexivity.
Qed.

Lemma setitem_returns {A} (a : list A) (idx : list Z) (vals : list A) :
  Forall (λ i, 0 ≤ i < Z.of_nat (length a))%Z idx →
  length vals = length idx →
  ∃ a', setitem a idx vals = Ok a'.
Proof.
  intros Hrange Hlen. unfold setitem.
  rewrite normalize_indices_in_range by done.
  rewrite broadcast_to_same by (by rewrite length_fmap). by eauto.
Qed.

Lemma getitem_returns {A} (a : list A) (idx : list Z) :
  Forall (λ i, 0 ≤ i < Z.of_nat (length a))%Z idx →
  ∃ xs, getitem a idx = Ok xs ∧ length xs = length idx.
Proof.
  intros Hrange. unfold getitem.
  rewrite normalize_indices_in_range by done.
  destruct (take_all_returns a (Z.to_nat <$> idx)) as [xs Hxs].
  { apply Forall_fmap. eapply Forall_impl; [exact Hrange|]. cbn. lia. }
  exists xs. split; [done|].
  apply take_all_Ok, Forall2_length in Hxs. by rewrite length_fmap in Hxs.
Qed.

Lemma imul_at_returns (a : list R) (idx : list Z) (ks : list R) :
  Forall (λ i, 0 ≤ i < Z.of_nat (length a))%Z idx →
  length ks = length idx →
  ∃ a', imul_at a idx ks = Ok a'.
Proof.
  intros Hrange Hlen. unfold imul_at.
  destruct (getitem_returns a idx Hrange) as (cells & -> & Hcells).
  rewrite broadcast_to_same by congruence.
  apply setitem_returns; [done|]. rewrite length_zip_with. lia.
Qed.

Lemma binned_rows_returns (self : Zodipy) (a : arguments) (s : shared)
    (unit_vectors : list Vec3) (npix : nat) (unique_pixels : list Z)
    (cs : list (CompLabel * Component)) :
  one_value_per_line_of_sight →
  length unit_vectors = length unique_pixels →
  Forall (λ i, 0 ≤ i < Z.of_nat npix)%Z unique_pixels →
  (∀ lc, lc ∈ cs →
     is_Some (_line_of_sights self lc.1) ∧ is_Some (s_spectral s lc.1)) →
  ∃ rows, (binned_rows self a s unit_vectors npix unique_pixels cs).2 = Ok rows ∧
          Forall (λ row, length row = npix) rows.
Proof.
  intros Hone Hlen Hrange. induction cs as [|[label component] cs IH]; intros Hcs.
  - by eexists.
  - destruct (Hcs (label, component)) as [Hlos Hsp]; [by left|].
    destruct (call_trapezoidal_Ok self a s unit_vectors label component Hlos Hsp)
      as [integrated Hint].
    pose proof (call_trapezoidal_length _ _ _ _ _ _ _ Hone Hint) as Hleni.
    destruct (setitem_returns (zeros npix) unique_pixels integrated) as [row Hrow];
      [by rewrite length_zeros|congruence|].
    destruct IH as (rows & Hrows & Hlens); [intros lc Hlc; apply Hcs; by right|].
    exists (row :: rows). split.
    + cbn [binned_rows].
      eapply bind_Ok; [exact Hint|]. rewrite Hrow, bind_lift_Ok.
      eapply bind_Ok; [exact Hrows|]. reflexivity.
    + constructor; [|done].
      rewrite (setitem_length _ _ _ _ Hrow). apply length_zeros.
Qed.

Lemma scale_rows_returns (rows : list (list R)) (npix : nat)
    (unique_pixels : list Z) (counts : list nat) :
  Forall (λ row, length row = npix) rows →
  Forall (λ i, 0 ≤ i < Z.of_nat npix)%Z unique_pixels →
  length counts = length unique_pixels →
  ∃ rows', scale_rows rows unique_pixels counts = Ok rows'.
Proof.
  intros Hrows Hrange Hlen. induction Hrows as [|row rows Hrow _ [rows' IH]]; cbn.
  - by eauto.
  - destruct (imul_at_returns row unique_pixels (INR <$> counts)) as [row' ->].
    + by rewrite Hrow.
    + by rewrite length_fmap.
    + rewrite IH. by eauto.
Qed.

Lemma binned_emission_returns (self : Zodipy) (a : arguments) (p : pointing)
    (s : shared) :
  one_value_per_line_of_sight →
  (∀ lc, lc ∈ comps (_model self) →
     is_Some (_line_of_sights self lc.1) ∧ is_Some (s_spectral s lc.1)) →
  pointing_given a →
  check_arguments a = Ok p →
  Forall (λ i, 0 ≤ i < Z.of_nat (map_size a))%Z (pixelized a) →
  ∃ n rows, (binned_emission self a p s).2 = Ok (n, rows).
Proof.
  intros Hone Hcs Hpt Hc Hrange. unfold binned_emission.
  assert (Hwritten : ∀ u,
            ((∃ pixels, p_pixels p = Some pixels ∧ u = unique Z.compare pixels) ∨
             (∃ cols, p_pixels p = None ∧
                      columns (p_theta p) (p_phi p) = Ok cols ∧
                      u = (λ c, ang2pix (default 0%Z (nside a)) c.1 c.2 (lonlat a))
                            <$> unique cmp_column cols)) →
            Forall (λ i, 0 ≤ i < Z.of_nat (map_size a))%Z u).
  { intros u Hu. apply Forall_forall. intros x Hx.
    rewrite Forall_forall in Hrange. apply Hrange.
    by apply (written_pixels_requested a p u Hc Hu). }
  destruct (check_arguments_Ok a p Hc)
    as [(px & ns & Hpx & _ & _ & _ & Hp)|(Hpx & Hp & Hth & Hph & _)].
  - rewrite Hp.
    set (u := unique Z.compare (pixel_sequence px)).
    destruct (rotated_pix2vec_Ok u (default 0%Z (nside a)) (coord_out a))
      as (unit_vectors & Hvec & Hlen).
    assert (Hu : Forall (λ i, 0 ≤ i < Z.of_nat (map_size a))%Z u).
    { apply Hwritten. left. by eauto. }
    destruct (binned_rows_returns self a s unit_vectors (map_size a) u
                (comps (_model self)) Hone Hlen Hu Hcs) as (rows & Hrows & Hlens).
    destruct (scale_rows_returns rows (map_size a) u
                (unique_counts Z.compare (pixel_sequence px)).2 Hlens Hu)
      as [rows' Hrows']; [by cbn; rewrite length_fmap|].
    eexists _, rows'. cbn [unique_counts].
    eapply bind_Ok; [eapply bind_Ok; [exact Hvec|reflexivity]|].
    cbn beta iota. rewrite bind_emit. cbn [snd]. eapply bind_Ok; [exact Hrows|].
    cbn [unique_counts snd] in Hrows'. unfold u in *.
    rewrite Hrows', bind_lift_Ok. reflexivity.
  - destruct Hpt as [[px' Hpx']|(th & ph & Hth' & Hph' & Hlen)]; [congruence|].
    destruct (columns_Ok a p th ph Hth' Hph' Hlen Hth Hph) as [cols Hcols].
    rewrite Hp, Hcols, bind_lift_Ok.
    set (u := (λ c, ang2pix (default 0%Z (nside a)) c.1 c.2 (lonlat a))
                <$> unique cmp_column cols).
    destruct (rotated_ang2vec_Ok (unique cmp_column cols) (lonlat a) (coord_out a))
      as (unit_vectors & Hvec & Hlenv).
    assert (Hu : Forall (λ i, 0 ≤ i < Z.of_nat (map_size a))%Z u).
    { apply Hwritten. right. by eauto 10. }
    destruct (binned_rows_returns self a s unit_vectors (map_size a) u
                (comps (_model self)) Hone) as (rows & Hrows & Hlens);
      [by unfold u; rewrite length_fmap|done|done|].
    destruct (scale_rows_returns rows (map_size a) u
                (unique_counts cmp_column cols).2 Hlens Hu)
      as [rows' Hrows']; [by unfold u; cbn; rewrite !length_fmap|].
    eexists _, rows'. cbn [unique_counts].
    rewrite bind_emit. cbn [snd].
    eapply bind_Ok; [eapply bind_Ok; [exact Hvec|reflexivity]|].
    cbn beta iota. rewrite bind_emit. cbn [snd]. eapply bind_Ok; [exact Hrows|].
    cbn [unique_counts snd] in Hrows'. unfold u in *.
    rewrite Hrows', bind_lift_Ok. reflexivity.
Qed.

(** A checked call for a binned map returns, when moreover every requested
    pixel is a pixel of the map. *)
Lemma binned_returns (self : Zodipy) (a : arguments) (p : pointing) :
  one_value_per_line_of_sight →
  configured self a → pointing_given a →
  binned a = true →
  check_arguments a = Ok p →
  Forall (λ i, 0 ≤ i < Z.of_nat (map_size a))%Z (pixelized a) →
  ∃ out, Run.outcome (get_emission self a) = Ok out.
Proof.
  intros Hone Hconf Hpt Hb Hc Hrange. unfold Run.outcome.
  rewrite (get_emission_checked self a p Hc).
  destruct (prepare_Ok self a Hconf) as (s & Hs & Hsp).
  destruct (binned_emission_returns self a p s Hone) as (n & rows & Hrows);
    [|done|done|done|].
  { intros lc Hlc. rewrite Hsp. by apply Hconf. }
  eexists. unfold compute.
  eapply bind_Ok; [exact Hs|]. rewrite Hb.
  eapply bind_Ok; [exact Hrows|]. reflexivity.
Qed.


(** *** A cell of the map that one direction falls in *)

Lemma pixelized_columns (a : arguments) (th ph : angles) :
  pixels a = None → theta a = Some th → phi a = Some ph →
  pixelized a
  = (λ c, ang2pix (default 0%Z (nside a)) c.1 c.2 (lonlat a))
      <$> zip (avalue (conv a th)) (avalue (conv a ph)).
Proof.
  intros Hpx Hth Hph. unfold pixelized. rewrite Hpx, Hth, Hph.
  rewrite zip_with_zip. apply list_fmap_ext. by intros _ [t f] _.
Qed.

(** X20: for any pointing within the map: if all the requests that fall in
    the pixel of request [i] are for the direction of request [i], the map
    holds at that pixel the timestream value of request [i] times the number
    of requests that fall in the pixel. *)
Lemma binned_cell_of_one_direction (self : Zodipy) (a : arguments)
    (map_rows ts_rows : list (list R)) (i : nat) (d : direction) (p : Z) :
  one_value_per_line_of_sight →
  return_comps a = true →
  Forall (λ p, 0 ≤ p < Z.of_nat (map_size a))%Z (pixelized a) →
  Run.outcome (get_emission self (with_binned true a)) = Ok (PerComponent map_rows) →
  Run.outcome (get_emission self (with_binned false a)) = Ok (PerComponent ts_rows) →
  requested a !! i = Some d →
  pixelized a !! i = Some p →
  (∀ j, pixelized a !! j = Some p → requested a !! j = Some d) →
  Forall2 (λ mrow trow,
             ∃ v, trow !! i = Some v ∧
                  mrow !! Z.to_nat p
                  = Some (v * INR (occurrences Z.compare p (pixelized a))))
    map_rows ts_rows.
Proof.
  intros Hone Hrc Hrange Hmap Hts Hd Hp Hsole. unfold Run.outcome in Hmap, Hts.
  (* the binned call *)
  apply bind_Ok_inv in Hmap as (pb & Hcb & Hmap). cbn [Run.lift snd] in Hcb.
  apply compute_inv in Hmap as (s & nb & rowsb & Hs & Hmap & Houtb).
  cbn [binned with_binned] in Hmap.
  destruct (binned_emission_inv self _ pb s nb rowsb Hmap)
    as (-> & u_pixels & counts & unit_vectors & rows & Hselb & Hrows & Hscale).
  unfold finish in Houtb. cbn [return_comps with_binned] in Houtb.
  rewrite Hrc in Houtb. injection Houtb as ->.
  (* the timestream call *)
  apply bind_Ok_inv in Hts as (pt & Hct & Hts). cbn [Run.lift snd] in Hct.
  apply compute_inv in Hts as (s' & nt & rowst & Hs' & Hts & Houtt).
  cbn [binned with_binned] in Hts.
  destruct (timestream_emission_inv self _ pt s' nt rowst Hts)
    as (indicies & unit_vectors' & Hselt & Hrowst).
  unfold finish in Houtt. cbn [return_comps with_binned] in Houtt.
  rewrite Hrc in Houtt. injection Houtt as ->.
  change (prepare self (with_binned false a)) with (prepare self a) in Hs'.
  change (prepare self (with_binned true a)) with (prepare self a) in Hs.
  assert (s' = s) as -> by congruence.
  change (map_size (with_binned true a)) with (map_size a) in *.
  cbn [nside coord_out lonlat with_binned] in Hselb, Hselt.
  (* the rows, component by component *)
  apply Forall2_fmap. apply Forall2_same_length_lookup. split.
  { apply Forall2_length in Hrows, Hscale, Hrowst. lia. }
  intros c mrow trow Hmrow Htrow.
  destruct (Forall2_lookup_r _ _ _ _ _ Hscale Hmrow) as (row & Hrow & Hmul).
  destruct (Forall2_lookup_r _ _ _ _ _ Hrows Hrow)
    as (lc & Hlc & integrated & Hint & Hset).
  destruct (Forall2_lookup_lr _ _ _ _ _ _ Hrowst Hlc Htrow)
    as (integrated' & Hint' & Hget).
  change (call_trapezoidal self (with_binned false a)) with (call_trapezoidal self a)
    in Hint'.
  change (call_trapezoidal self (with_binned true a)) with (call_trapezoidal self a)
    in Hint.
  pose proof (call_trapezoidal_length _ _ _ _ _ _ _ Hone Hint) as Hlen.
  assert (Hcell : ∃ v, trow !! i = Some v ∧
            mrow !! Z.to_nat p
            = Some (v * INR (occurrences Z.compare p (pixelized a)))).
  { destruct (check_arguments_Ok _ pb Hcb)
      as [(px & ns & Hpx & _ & _ & _ & Hpb)|(Hpx & Hpb & Hthb & Hphb & _)];
    destruct (check_arguments_Ok _ pt Hct)
      as [(px' & ns' & Hpx' & _ & _ & _ & Hpt)|(Hpx' & Hpt & Htht & Hpht & _)];
    cbn [pixels theta phi with_binned] in *; try congruence.
    - (* pixels *)
      assert (px' = px) as -> by congruence.
      destruct Hselb as [(l & Hl & -> & -> & Hvec)|(cols & Hnone & _)];
        [|congruence].
      destruct Hselt as [(l' & Hl' & -> & -> & Hvec')|(cols & Hnone & _)];
        [|congruence].
      assert (l = pixel_sequence px) as -> by congruence.
      assert (l' = pixel_sequence px) as -> by congruence.
      assert (unit_vectors' = unit_vectors) as -> by congruence.
      assert (integrated' = integrated) as -> by congruence.
      assert (Hpix : pixelized a = pixel_sequence px)
        by (unfold pixelized; by rewrite Hpx).
      rewrite Hpix in *.
      rewrite (rotated_pix2vec_length _ _ _ _ Hvec) in Hlen.
      rewrite <- (list_fmap_id (unique Z.compare (pixel_sequence px))) in Hset, Hmul.
      destruct (scatter_gather_once Z.compare (@Datatypes.id Z) (pixel_sequence px) (map_size a)
                  integrated row mrow trow i p Z.compare_eq_iff Z_compare_Gt
                  Z_compare_Lt_trans) as (v & Hv & Hm);
        [by rewrite list_fmap_id|done|done|done|done|done|done|].
      exists v. by rewrite list_fmap_id in Hm.
    - (* angles *)
      destruct Hselb as [(l & Hl & _)|(cols & _ & Hcols & -> & -> & Hvec)];
        [congruence|].
      destruct Hselt as [(l & Hl & _)|(cols' & _ & Hcols' & -> & -> & Hvec')];
        [congruence|].
      assert (Hrep : ∀ j, requested a !! j = Some d → cols' !! i = cols' !! j).
      { intros j Hdj.
        destruct (requested_repeat (with_binned false a) pt i j d Hct Hd Hdj)
          as [_ Hrep].
        by destruct (Hrep cols' Hpt Hcols') as (_ & _ & ?). }
      change (conv (with_binned true a)) with (conv a) in Hthb, Hphb.
      change (conv (with_binned false a)) with (conv a) in Htht, Hpht.
      assert (cols' = cols) as -> by congruence.
      assert (unit_vectors' = unit_vectors) as -> by congruence.
      assert (integrated' = integrated) as -> by congruence.
      rewrite Hthb, Hphb in Hcols.
      destruct (theta a) as [th|] eqn:Hth; [|done].
      destruct (phi a) as [ph|] eqn:Hph; [|done].
      cbn in Hcols. case_decide as Hll; [|done]. injection Hcols as <-.
      rewrite (pixelized_columns a th ph Hpx Hth Hph) in *.
      set (f := λ c : R * R, ang2pix (default 0%Z (nside a)) c.1 c.2 (lonlat a)) in *.
      set (cols := zip (avalue (conv a th)) (avalue (conv a ph))) in *.
      rewrite list_lookup_fmap in Hp.
      destruct (cols !! i) as [x|] eqn:Hx; [|done]. injection Hp as <-.
      destruct (rotated_ang2vec_Ok (unique cmp_column cols) (lonlat a) (coord_out a))
        as (uv & Huv & Hlenuv).
      assert (uv = unit_vectors) as -> by congruence.
      rewrite Hlenuv in Hlen.
      apply (scatter_gather_once cmp_column f cols (map_size a)
               integrated row mrow trow i x cmp_column_Eq cmp_column_Gt
               cmp_column_Lt_trans); try done.
      intros y Hy Hfy. apply list_elem_of_lookup in Hy as [j Hj].
      assert (Hdj : requested a !! j = Some d).
      { apply Hsole. rewrite list_lookup_fmap, Hj. cbn. by rewrite Hfy. }
      specialize (Hrep j Hdj). congruence. }
  destruct Hcell as (v & Hv & Hm).
  exists (v * MJy_per_W). split.
  - by rewrite list_lookup_fmap, Hv.
  - rewrite list_lookup_fmap, Hm. cbn. f_equal. lra.
Qed.

End Interface.
End ZodipyFacts.

(** ** The decorators *)

Module DecoratorsFacts.
Import RunFacts Decorators.

Lemma validate_frequency_extrapolate {A} (function : R → Run A)
    (self : zodipy_attrs) (freq : spectral) :
  extrapolate self = true →
  validate_frequency function self freq = function (to_unit freq GHz).
Proof.
  intros He. unfold validate_frequency. rewrite He. cbn [negb].
  unfold mbind, mret, Run_bind, Run_ret, Run.bind, Run.ret.
  by destruct (function _).
Qed.

(** Within the tabulated range, bounds included, the wrapped function is
    called with the frequency in GHz. *)
Lemma validate_frequency_in_range {A} (function : R → Run A)
    (self : zodipy_attrs) (freq : spectral) (lo hi : R) :
  extrapolate self = false →
  amin (spectrum self) = Ok lo →
  amax (spectrum self) = Ok hi →
  lo <= to_unit freq (spectrum_unit self) <= hi →
  validate_frequency function self freq = function (to_unit freq GHz).
Proof.
  intros He Hlo Hhi [Hl Hh]. unfold validate_frequency.
  rewrite He, Hlo, Hhi. cbn [negb].
  rewrite !bind_lift_Ok.
  destruct (Rle_dec lo _); [|done]. destruct (Rle_dec _ hi); [|done].
  unfold mbind, mret, Run_bind, Run_ret, Run.bind, Run.ret.
  by destruct (function _).
Qed.

(** Beyond either bound the wrapper raises, and the wrapped function is not
    called. *)
Lemma validate_frequency_out_of_range {A} (function : R → Run A)
    (self : zodipy_attrs) (freq : spectral) (lo hi : R) :
  extrapolate self = false →
  amin (spectrum self) = Ok lo →
  amax (spectrum self) = Ok hi →
  to_unit freq (spectrum_unit self) < lo ∨ hi < to_unit freq (spectrum_unit self) →
  validate_frequency function self freq
  = ([], Raise (ValueError (MsgModelRange (model_name self) lo hi
                              (spectrum_unit self)))).
Proof.
  intros He Hlo Hhi Hout. unfold validate_frequency.
  rewrite He, Hlo, Hhi. cbn [negb].
  rewrite !bind_lift_Ok.
  destruct (Rle_dec lo _); [destruct (Rle_dec _ hi)|]; first [lra | reflexivity].
Qed.

Lemma validate_pixels_passes {A} (function : list Z → Z → Run A)
    (pixels : pixels_arg) (nside m : Z) :
  np_max pixels = Ok m →
  (m ≤ nside2npix nside)%Z →
  validate_pixels function pixels nside
  = function (match pixels with PixInt p => [p] | PixSeq ps => ps end) nside.
Proof.
  intros Hm Hle. unfold validate_pixels. rewrite Hm, bind_lift_Ok.
  destruct (Z.gtb_spec m (nside2npix nside)); [lia|done].
Qed.

Lemma validate_pixels_raises {A} (function : list Z → Z → Run A)
    (pixels : pixels_arg) (nside m : Z) :
  np_max pixels = Ok m →
  (nside2npix nside < m)%Z →
  validate_pixels function pixels nside = ([], Raise (ValueError MsgInvalidPixel)).
Proof.
  intros Hm Hle. unfold validate_pixels. rewrite Hm, bind_lift_Ok.
  destruct (Z.gtb_spec m (nside2npix nside)); [done|lia].
Qed.

End DecoratorsFacts.

(** ** Concrete calls *)

Module Scenarios.
Import Arrays ArraysFacts RunFacts Decorators DecoratorsFacts Zodipy ZodipyFacts.
Import Sample.

(** Run the definitions, leaving the arithmetic of the reals alone. *)
Ltac reduce_model :=
  cbv -[Rplus Rmult Rminus Rdiv Rinv Ropp IZR exp sqrt Rcompare Rle_dec PI
        Rpower Rmin Rmax Rlt Rle].

Ltac decide_Rcompare :=
  match goal with
  | |- context [Rcompare ?x ?y] =>
      first [ rewrite (Rcompare_Lt x y) by lra
            | rewrite (Rcompare_Gt x y) by lra
            | rewrite (Rcompare_refl x) ]
  end.

Ltac run_model := reduce_model; repeat (decide_Rcompare; reduce_model).

(** Equality of results, cell by cell. *)
Ltac same_cells :=
  repeat match goal with
         | |- @eq R _ _ => lra
         | |- @eq (list _) (_ :: _) (_ :: _) => apply (f_equal2 cons)
         | |- @eq (list _) [] [] => reflexivity
         | |- Ok _ = Ok _ => apply (f_equal (@Ok _))
         | |- PerComponent _ = PerComponent _ => apply (f_equal PerComponent)
         | |- Total _ = Total _ => apply (f_equal Total)
         | |- Some _ = Some _ => apply (f_equal (@Some _))
         end.


Lemma invalid_arguments_fail_first_witness :
  (lower (obs (call_from "mars-orbiter" (Some (PixInt 100)) None None (Some 32%Z) false))
     ∉ observers ∨
   invalid_combination
     (call_from "mars-orbiter" (Some (PixInt 100)) None None (Some 32%Z) false)) ∧
  ∃ msg,
    get_emission interface
      (call_from "mars-orbiter" (Some (PixInt 100)) None None (Some 32%Z) false)
    = ([], Raise (ValueError msg)) ∧
    complains_about
      (call_from "mars-orbiter" (Some (PixInt 100)) None None (Some 32%Z) false) msg ∧
    (lower (obs (call_from "mars-orbiter" (Some (PixInt 100)) None None (Some 32%Z) false))
       ∉ observers →
     msg = MsgUnsupportedObserver "mars-orbiter" "de432s").
Proof.
  assert (Hbad : lower (obs (call_from "mars-orbiter" (Some (PixInt 100)) None None
                               (Some 32%Z) false)) ∉ observers).
  { apply (bool_decide_unpack _). vm_compute. exact I. }
  split; [by left|].
  exact (invalid_arguments_fail_first interface
           (call_from "mars-orbiter" (Some (PixInt 100)) None None (Some 32%Z) false)
           (or_introl Hbad)).
Defined.

Lemma binned_map_zero_elsewhere_witness :
  binned (call_pixels (Frequency 25e12) [3; 1; 3]%Z 1 true) = true ∧
  Run.outcome
    (get_emission interface (call_pixels (Frequency 25e12) [3; 1; 3]%Z 1 true))
    = Ok (PerComponent
            [[0; 2e20; 0; 8e20; 0; 0; 0; 0; 0; 0; 0; 0];
             [0; 2e20; 0; 8e20; 0; 0; 0; 0; 0; 0; 0; 0]]) ∧
  (0 < map_size (call_pixels (Frequency 25e12) [3; 1; 3]%Z 1 true))%nat ∧
  (∀ p, p ∈ pixelized (call_pixels (Frequency 25e12) [3; 1; 3]%Z 1 true) →
        p ≠ Z.of_nat 0 ∧
        (p + Z.of_nat (map_size (call_pixels (Frequency 25e12) [3; 1; 3]%Z 1 true)))%Z
          ≠ Z.of_nat 0) ∧
  ∀ row,
    row ∈ out_rows (PerComponent
                      [[0; 2e20; 0; 8e20; 0; 0; 0; 0; 0; 0; 0; 0];
                       [0; 2e20; 0; 8e20; 0; 0; 0; 0; 0; 0; 0; 0]]) →
    length row = map_size (call_pixels (Frequency 25e12) [3; 1; 3]%Z 1 true) ∧
    row !! 0%nat = Some 0.
Proof.
  assert (Hrun : Run.outcome
                   (get_emission interface
                      (call_pixels (Frequency 25e12) [3; 1; 3]%Z 1 true))
                 = Ok (PerComponent
                         [[0; 2e20; 0; 8e20; 0; 0; 0; 0; 0; 0; 0; 0];
                          [0; 2e20; 0; 8e20; 0; 0; 0; 0; 0; 0; 0; 0]])).
  { run_model. same_cells. }
  assert (Hsize : (0 < map_size (call_pixels (Frequency 25e12) [3; 1; 3]%Z 1 true))%nat).
  { vm_compute. lia. }
  assert (Hfree : ∀ p, p ∈ pixelized (call_pixels (Frequency 25e12) [3; 1; 3]%Z 1 true) →
            p ≠ Z.of_nat 0 ∧
            (p + Z.of_nat (map_size (call_pixels (Frequency 25e12) [3; 1; 3]%Z 1 true)))%Z
              ≠ Z.of_nat 0).
  { intros p Hp. change (p ∈ [3; 1; 3]%Z) in Hp.
    change (map_size _) with 12%nat.
    rewrite !elem_of_cons in Hp. rewrite elem_of_nil in Hp. lia. }
  split; [reflexivity|].
  split; [exact Hrun|]. split; [exact Hsize|]. split; [exact Hfree|].
  exact (binned_map_zero_elsewhere interface
           (call_pixels (Frequency 25e12) [3; 1; 3]%Z 1 true) _ 0
           eq_refl Hrun Hsize Hfree).
Defined.

(** *** Two directions in one pixel of a binned map *)

(** C2, at [theta = [0.1, 0.2] rad], [phi = [0.1, 0.1] rad], [nside = 1],
    [binned = True]: both directions fall in pixel 0, the integrator returns
    1.1 for the first and 1.2 for the second, and the map holds at pixel 0
    the value of the second direction alone, times its own count 1.  The
    pixel occurs twice in the pixelized input. *)
Theorem binned_angles_in_one_pixel_overwrite :
  pixelized (call_angles [0.1; 0.2] [0.1; 0.1] 1 true) = [0; 0]%Z ∧
  occurrences Z.compare 0%Z
    (pixelized (call_angles [0.1; 0.2] [0.1; 0.1] 1 true)) = 2%nat ∧
  vx <$> [ang2vec 0.1 0.1 false; ang2vec 0.2 0.1 false] = [1.1; 1.2] ∧
  ∃ rows,
    (get_emission interface (call_angles [0.1; 0.2] [0.1; 0.1] 1 true)).2
      = Ok (PerComponent rows) ∧
    length rows = 2%nat ∧
    ∀ row, row ∈ rows →
      row !! 0%nat = Some (1.2 * 1 * 1e20) ∧
      row !! 0%nat ≠ Some (1.1 * 2 * 1e20) ∧
      row !! 0%nat ≠ Some (1.2 * 2 * 1e20) ∧
      row !! 0%nat ≠ Some ((1.1 * 1 + 1.2 * 1) * 1e20).
Proof.
  split; [reflexivity|]. split; [reflexivity|].
  split; [cbn [fmap list_fmap ang2vec healpy vx]; same_cells|].
  assert (Hrun : (get_emission interface (call_angles [0.1; 0.2] [0.1; 0.1] 1 true)).2
                 = Ok (PerComponent
                         [1.2e20 :: replicate 11 0; 1.2e20 :: replicate 11 0])).
  { run_model. same_cells. }
  eexists. split; [exact Hrun|]. split; [reflexivity|].
  intros row Hrow.
  assert (Hcell : row !! 0%nat = Some 1.2e20).
  { rewrite !elem_of_cons, elem_of_nil in Hrow.
    destruct Hrow as [->|[->|[]]]; reflexivity. }
  rewrite Hcell.
  split; [same_cells|].
  repeat split; intros [= Heq]; lra.
Qed.

(** *** A frequency outside the tabulated range *)

(** C3, at a wavelength of 1000 micron for a model tabulated from 1.25 to
    240 micron: [validate_frequency] raises before calling the function it
    wraps, but [get_emission] is not wrapped by it: the call resolves the
    positions, interpolates and integrates, and returns. *)
Theorem frequency_out_of_range_not_rejected :
  amin (spectrum dirbe_attrs) = Ok 1.25 ∧
  amax (spectrum dirbe_attrs) = Ok 240 ∧
  to_unit (Wavelength 1000e-6) micron = 1000 ∧
  (∀ A (function : R → Run A),
     validate_frequency function dirbe_attrs (Wavelength 1000e-6)
     = ([], Raise (ValueError (MsgModelRange "DIRBE" 1.25 240 micron)))) ∧
  (get_emission interface (call_pixels (Wavelength 1000e-6) [0]%Z 1 false)).1
    = [EvGetBody "Earth"; EvGetBody "earth"; EvInterpPhaseCoeffs;
       EvInterpSpectralParams; EvPix2Vec 1;
       EvTrapezoidal CLOUD (mkVec3 1 0 0) (mkVec3 1 0 0) [mkVec3 (0 + 1) 0 0];
       EvTrapezoidal RING (mkVec3 1 0 0) (mkVec3 1 0 0) [mkVec3 (0 + 1) 0 0]] ∧
  ∃ out,
    (get_emission interface (call_pixels (Wavelength 1000e-6) [0]%Z 1 false)).2
      = Ok out.
Proof.
  assert (Hmin : amin (spectrum dirbe_attrs) = Ok 1.25).
  { cbn [amin spectrum dirbe_attrs foldr]. f_equal.
    repeat match goal with
           | |- context [Rmin ?x ?y] =>
               first [ rewrite (Rmin_left x y) by lra
                     | rewrite (Rmin_right x y) by lra ]
           end. reflexivity. }
  assert (Hmax : amax (spectrum dirbe_attrs) = Ok 240).
  { cbn [amax spectrum dirbe_attrs foldr]. f_equal.
    repeat match goal with
           | |- context [Rmax ?x ?y] =>
               first [ rewrite (Rmax_left x y) by lra
                     | rewrite (Rmax_right x y) by lra ]
           end. reflexivity. }
  assert (Hconv : to_unit (Wavelength 1000e-6) micron = 1000).
  { unfold to_unit. lra. }
  split; [exact Hmin|]. split; [exact Hmax|]. split; [exact Hconv|].
  split; [|split].
  - intros A function.
    apply (validate_frequency_out_of_range function dirbe_attrs
             (Wavelength 1000e-6) 1.25 240 eq_refl Hmin Hmax).
    right. change (spectrum_unit dirbe_attrs) with micron. rewrite Hconv. lra.
  - reflexivity.
  - eexists. run_model. reflexivity.
Qed.

(** *** A pixel index beyond the map *)

(** C4, at [pixels = [12]], [nside = 1]: the map has the pixels 0 to 11,
    and [validate_pixels] calls the function it wraps with pixel 12, as it
    does with pixel -1; [get_emission], which is not wrapped by it, checks no
    pixel index: it resolves the positions, interpolates and integrates. *)
Theorem pixel_beyond_map_not_rejected :
  nside2npix 1 = 12%Z ∧
  (∀ A (function : list Z → Z → Run A),
     validate_pixels function (PixSeq [12]%Z) 1 = function [12]%Z 1%Z) ∧
  (∀ A (function : list Z → Z → Run A),
     validate_pixels function (PixSeq [-1]%Z) 1 = function [-1]%Z 1%Z) ∧
  (∀ A (function : list Z → Z → Run A),
     validate_pixels function (PixSeq [13]%Z) 1
     = ([], Raise (ValueError MsgInvalidPixel))) ∧
  (get_emission interface (call_pixels (Frequency 25e12) [12]%Z 1 false)).1
    = [EvGetBody "Earth"; EvGetBody "earth"; EvInterpPhaseCoeffs;
       EvInterpSpectralParams; EvPix2Vec 1;
       EvTrapezoidal CLOUD (mkVec3 1 0 0) (mkVec3 1 0 0) [mkVec3 (12 + 1) 0 0];
       EvTrapezoidal RING (mkVec3 1 0 0) (mkVec3 1 0 0) [mkVec3 (12 + 1) 0 0]] ∧
  (get_emission interface (call_pixels (Frequency 25e12) [12]%Z 1 true)).1
    = [EvGetBody "Earth"; EvGetBody "earth"; EvInterpPhaseCoeffs;
       EvInterpSpectralParams; EvPix2Vec 1; EvNside2Npix 1;
       EvTrapezoidal CLOUD (mkVec3 1 0 0) (mkVec3 1 0 0) [mkVec3 (12 + 1) 0 0]] ∧
  (get_emission interface (call_pixels (Frequency 25e12) [12]%Z 1 true)).2
    = Raise IndexError.
Proof.
  split; [reflexivity|].
  split; [intros A function;
          by apply (validate_pixels_passes function (PixSeq [12]%Z) 1 12)|].
  split; [intros A function;
          by apply (validate_pixels_passes function (PixSeq [-1]%Z) 1 (-1))|].
  split; [intros A function;
          by apply (validate_pixels_raises function (PixSeq [13]%Z) 1 13)|].
  split; [reflexivity|]. split; [reflexivity|].
  run_model. reflexivity.
Qed.

End Scenarios.

(** ** The source functions on arrays *)

Module SourceFunctionsArrays.
Import Numpy SourceFunctions SourceFunctionsFacts.

Lemma map2_same_length (f : R → R → R) (xs ys : list R) :
  length xs = length ys →
  map2 f (Array xs) (Array ys) = Ok (Array (zip_with f xs ys)).
Proof. intros Hlen. unfold map2. by rewrite decide_True. Qed.

Lemma map2_mismatch (f : R → R → R) (xs ys : list R) :
  length xs ≠ length ys → length xs ≠ 1%nat → length ys ≠ 1%nat →
  map2 f (Array xs) (Array ys)
  = Raise (ValueError (MsgNumpy "operands could not be broadcast together")).
Proof.
  intros Hlen Hx Hy. unfold map2. rewrite decide_False by done.
  destruct xs as [|x [|x' xs]], ys as [|y [|y' ys]]; cbn in *; done.
Qed.

(** X3: for a temperature array and a frequency array of the same length,
    held in two different arrays, [blackbody_emission] returns Planck's law
    entry by entry at the frequencies times [1e9], and the caller's
    frequency array holds the frequencies times [1e9] afterwards; the
    temperature array is as before. *)
Theorem blackbody_emission_arrays `{Constants}
    (σ : store) (lT lf : loc) (Ts fs : list R) :
  lT ≠ lf →
  σ !! lT = Some Ts → σ !! lf = Some fs →
  length Ts = length fs →
  ∃ σ',
    blackbody_emission (PArray lT) (PArray lf) σ
    = (Ok (Array (zip_with (λ t f, planck t (f * 1e9)) Ts fs)), σ') ∧
    σ' !! lf = Some ((λ f, f * 1e9) <$> fs) ∧
    ∀ l, l ≠ lf → σ' !! l = σ !! l.
Proof.
  intros Hne HT Hf Hlen.
  exists (<[lf := (λ f, f * 1e9) <$> fs]> σ).
  split; [|split].
  - unfold blackbody_emission, mbind, Py_bind, bind, lift, load, imul.
    rewrite Hf. cbv beta iota. rewrite lookup_insert_eq. cbv beta iota.
    rewrite lookup_insert_ne by done. rewrite HT. cbv beta iota.
    rewrite map2_same_length by (by rewrite length_fmap).
    unfold map1.
    rewrite map2_same_length
      by (rewrite !length_fmap, length_zip_with, !length_fmap; lia).
    do 3 f_equal.
    apply list_eq. intros i.
    rewrite !lookup_zip_with, !list_lookup_fmap, !lookup_zip_with,
      !list_lookup_fmap.
    destruct (fs !! i) as [f|], (Ts !! i) as [t|]; done.
  - apply lookup_insert_eq.
  - intros l Hl. by rewrite lookup_insert_ne.
Qed.

Lemma blackbody_emission_arrays_witness :
  ∃ σ',
    @blackbody_emission Sample.codata (PArray 0%nat) (PArray 1%nat)
      {[ 0%nat := [200; 300]; 1%nat := [30; 60] ]}
    = (Ok (Array (zip_with (λ t f, @planck Sample.codata t (f * 1e9))
                    [200; 300] [30; 60])), σ') ∧
    σ' !! 1%nat = Some ((λ f, f * 1e9) <$> [30; 60]) ∧
    ∀ l, l ≠ 1%nat →
      σ' !! l = ({[ 0%nat := [200; 300]; 1%nat := [30; 60] ]} : store) !! l.
Proof.
  apply (@blackbody_emission_arrays Sample.codata
           {[ 0%nat := [200; 300]; 1%nat := [30; 60] ]} 0%nat 1%nat
           [200; 300] [30; 60]).
  - done.
  - reflexivity.
  - reflexivity.
  - reflexivity.
Defined.

(** X4: for a temperature array and a frequency array whose lengths differ
    and are both other than 1, [blackbody_emission] raises numpy's
    [ValueError], and the caller's frequency array has by then been
    multiplied by [1e9]. *)
Theorem blackbody_emission_shape_mismatch `{Constants}
    (σ : store) (lT lf : loc) (Ts fs : list R) :
  lT ≠ lf →
  σ !! lT = Some Ts → σ !! lf = Some fs →
  length Ts ≠ length fs → length Ts ≠ 1%nat → length fs ≠ 1%nat →
  blackbody_emission (PArray lT) (PArray lf) σ
  = (Raise (ValueError (MsgNumpy "operands could not be broadcast together")),
     <[lf := (λ f, f * 1e9) <$> fs]> σ).
Proof.
  intros Hne HT Hf Hlen HT1 Hf1.
  unfold blackbody_emission, mbind, Py_bind, bind, lift, load, imul.
  rewrite Hf. cbv beta iota. rewrite lookup_insert_eq. cbv beta iota.
  rewrite lookup_insert_ne by done. rewrite HT. cbv beta iota.
  by rewrite map2_mismatch by (rewrite ?length_fmap; congruence).
Qed.

Lemma blackbody_emission_shape_mismatch_witness :
  @blackbody_emission Sample.codata (PArray 0%nat) (PArray 1%nat)
    {[ 0%nat := [200; 300]; 1%nat := [30; 60; 90] ]}
  = (Raise (ValueError (MsgNumpy "operands could not be broadcast together")),
     <[1%nat := (λ f, f * 1e9) <$> [30; 60; 90]]>
       {[ 0%nat := [200; 300]; 1%nat := [30; 60; 90] ]}).
Proof.
  apply (@blackbody_emission_shape_mismatch Sample.codata
           {[ 0%nat := [200; 300]; 1%nat := [30; 60; 90] ]} 0%nat 1%nat
           [200; 300] [30; 60; 90]).
  - done.
  - reflexivity.
  - reflexivity.
  - cbn. lia.
  - cbn. lia.
  - cbn. lia.
Defined.

(** X6: whatever their arguments, [interplanetary_temperature] and
    [phase_function] write to no array of the caller, and neither does
    [blackbody_emission] when the frequency is a float: the store after the
    call is the store before it, also when the call raises. *)
Theorem float_frequency_and_reads_leave_arrays_alone `{Constants}
    (σ : store) (v : pyval) (T_0 delta freq : R) (C : list R) :
  (interplanetary_temperature v T_0 delta σ).2 = σ ∧
  (phase_function v C σ).2 = σ ∧
  (blackbody_emission v (PFloat freq) σ).2 = σ ∧
  (blackbody_emission_wavelen v (PFloat freq) σ).2 = σ.
Proof.
  split; [apply interplanetary_temperature_pure|].
  split; [apply phase_function_pure|].
  split; [apply blackbody_emission_float_pure|].
  unfold blackbody_emission_wavelen, mbind, Py_bind, bind, lift, load, imul.
  destruct v as [x|l]; cbn; [done|].
  destruct (σ !! l); cbn; [|done].
  repeat match goal with
         | |- context [map2 ?f ?a ?b] => destruct (map2 f a b); cbn
         end; done.
Qed.

(** X7: [phase_function] with fewer than three coefficients raises
    [IndexError], for every array [Theta], and leaves the array alone. *)
Theorem phase_function_short_coefficients
    (σ : store) (l : loc) (Theta C : list R) :
  σ !! l = Some Theta →
  (length C < 3)%nat →
  phase_function (PArray l) C σ = (Raise IndexError, σ).
Proof.
  intros Hl Hlen.
  unfold phase_function, mbind, Py_bind, bind, lift, load, item.
  destruct C as [|c0 [|c1 [|c2 C]]]; cbn in *; rewrite ?Hl; try done. lia.
Qed.

Lemma phase_function_short_coefficients_witness :
  phase_function (PArray 0%nat) [1; 2] {[ 0%nat := [0; 1] ]}
  = (Raise IndexError, {[ 0%nat := [0; 1] ]}).
Proof.
  apply (phase_function_short_coefficients {[ 0%nat := [0; 1] ]} 0%nat [0; 1] [1; 2]).
  - apply lookup_singleton_eq.
  - cbn. lia.
Defined.

End SourceFunctionsArrays.

(** ** The source functions in binary64 *)

Module Float64Facts.
Import Float64.

(** Whatever is divided by an infinity is a zero or a nan. *)
Lemma div_infinity_not_positive (x : float) : (0 <? x / infinity)%float = false.
Proof.
  rewrite ltb_spec, div_spec.
  change (Prim2SF infinity) with (S754_infinity false).
  change (Prim2SF 0) with (S754_zero false).
  by destruct (Prim2SF x) as [[]|[]| |[] m e].
Qed.

Lemma ltb_irrefl (x : float) : (x <? x)%float = false.
Proof.
  rewrite ltb_spec. unfold SFltb, SFcompare.
  destruct (Prim2SF x) as [[]|[]| |[] m e]; try done.
  - by rewrite Z.compare_refl, Pos.compare_cont_refl.
  - by rewrite Z.compare_refl, Pos.compare_cont_refl.
Qed.

Section Functions.
Context `{Libm, Constants}.

Lemma float_pow_Ok (x y r : float) : float_pow x y = Ok r → r = c_pow x y.
Proof. unfold float_pow. case_match; congruence. Qed.

(** Where [h nu / (k_B T)] is 710 or more, [np.expm1] is infinite and the
    emission is Planck's numerator over an infinity. *)
Lemma blackbody_emission_overflow (T freq B : float) :
  blackbody_emission T freq = Ok B →
  (710 <=? (h * (freq * 1e9)) / (k_B * T))%float = true →
  B = ((2 * h * c_pow (freq * 1e9) 3) / c_pow c 2 / infinity)%float.
Proof.
  unfold blackbody_emission. intros Hrun Hbig.
  destruct (float_pow _ _) as [cube|e] eqn:Hpow; [|done].
  apply float_pow_Ok in Hpow as ->.
  rewrite (np_expm1_overflow _ Hbig) in Hrun. congruence.
Qed.

Lemma blackbody_emission_wavelen_overflow (T wavelen B : float) :
  blackbody_emission_wavelen T wavelen = Ok B →
  (710 <=? (h * c) / (wavelen * 1e-6 * k_B * T))%float = true →
  B = ((2 * h * c_pow c 2) / c_pow (wavelen * 1e-6) 5 / infinity)%float.
Proof.
  unfold blackbody_emission_wavelen. intros Hrun Hbig.
  destruct (float_pow _ _) as [w5|e] eqn:Hpow; [|done].
  apply float_pow_Ok in Hpow as ->.
  rewrite (np_expm1_overflow _ Hbig) in Hrun. congruence.
Qed.

(** X1: for Python floats [T] and [wavelen]: where [h c / (w k_B T)], as
    computed in binary64 at [w = wavelen * 1e-6], is 710 or more,
    [np.expm1] overflows and [blackbody_emission_wavelen], when it returns,
    returns Planck's numerator divided by an infinity: a zero or a nan, and
    no positive value. *)
Theorem blackbody_emission_wavelen_underflow (T wavelen B : float) :
  blackbody_emission_wavelen T wavelen = Ok B →
  (710 <=? (h * c) / (wavelen * 1e-6 * k_B * T))%float = true →
  B = ((2 * h * c_pow c 2) / c_pow (wavelen * 1e-6) 5 / infinity)%float ∧
  (0 <? B)%float = false.
Proof.
  intros Hrun Hbig.
  pose proof (blackbody_emission_wavelen_overflow T wavelen B Hrun Hbig) as ->.
  split; [done|]. apply div_infinity_not_positive.
Qed.

End Functions.

Lemma blackbody_emission_wavelen_underflow_witness :
  @blackbody_emission_wavelen Sample.libm Sample.codata64 10 1.25 = Ok 0%float ∧
  (710 <=? (@h Sample.codata64 * @c Sample.codata64)
           / (1.25 * 1e-6 * @k_B Sample.codata64 * 10))%float = true ∧
  0%float
  = ((2 * @h Sample.codata64 * @c_pow Sample.libm (@c Sample.codata64) 2)
     / @c_pow Sample.libm (1.25 * 1e-6) 5 / infinity)%float ∧
  (0 <? 0)%float = false.
Proof.
  split; [vm_compute; reflexivity|]. split; [vm_compute; reflexivity|].
  apply (@blackbody_emission_wavelen_underflow Sample.libm Sample.codata64
           10 1.25 0).
  - vm_compute. reflexivity.
  - vm_compute. reflexivity.
Defined.

(** *** Planck's law, exactly and in binary64 *)

(** C7, in exact arithmetic and in binary64.  In exact arithmetic, at
    temperatures [0 < T1 < T2] and a frequency [freq > 0] in GHz,
    [blackbody_emission] returns Planck's law at [freq * 1e9] Hz, which is
    positive and lower at [T1] than at [T2].
    In binary64, on Python floats, it raises [OverflowError] when
    [(freq * 1e9) ** 3] overflows and otherwise returns the same formula
    computed in binary64; where [h nu / (k_B T)] is 710 or more that value
    is a zero or a nan, and not positive. *)
Theorem blackbody_emission_planck_in_binary64 :
  (∀ (K : SourceFunctions.Constants),
     0 < SourceFunctions.h → 0 < SourceFunctions.c → 0 < SourceFunctions.k_B →
     ∀ (σ : Numpy.store) (T1 T2 freq : R),
       0 < T1 → T1 < T2 → 0 < freq →
       ∃ B1 B2,
         SourceFunctions.blackbody_emission (Numpy.PFloat T1) (Numpy.PFloat freq) σ
           = (Ok (Numpy.Scalar B1), σ) ∧
         SourceFunctions.blackbody_emission (Numpy.PFloat T2) (Numpy.PFloat freq) σ
           = (Ok (Numpy.Scalar B2), σ) ∧
         B1 = (2 * SourceFunctions.h * (freq * 1e9) ^ 3 / SourceFunctions.c ^ 2)
              / (exp (SourceFunctions.h * (freq * 1e9) / (SourceFunctions.k_B * T1)) - 1) ∧
         B2 = (2 * SourceFunctions.h * (freq * 1e9) ^ 3 / SourceFunctions.c ^ 2)
              / (exp (SourceFunctions.h * (freq * 1e9) / (SourceFunctions.k_B * T2)) - 1) ∧
         0 < B1 ∧ 0 < B2 ∧ B1 < B2) ∧
  (∀ (L : Libm) (K : Constants) (T freq : float),
     blackbody_emission T freq
     = (if is_finite (freq * 1e9) && is_infinity (c_pow (freq * 1e9) 3)
        then Raise OverflowError
        else Ok ((2 * h * c_pow (freq * 1e9) 3) / c_pow c 2
                 / np_expm1 ((h * (freq * 1e9)) / (k_B * T)))%float) ∧
     ∀ B, blackbody_emission T freq = Ok B →
          (710 <=? (h * (freq * 1e9)) / (k_B * T))%float = true →
          B = ((2 * h * c_pow (freq * 1e9) 3) / c_pow c 2 / infinity)%float ∧
          (0 <? B)%float = false).
Proof.
  split.
  - intros K Hh Hc Hk σ T1 T2 freq H1 H12 Hf.
    by apply SourceFunctionsFacts.blackbody_emission_planck_exact.
  - intros L K T freq. split.
    + unfold blackbody_emission, float_pow.
      change (is_finite 3) with true. rewrite andb_true_r.
      by destruct (_ && _).
    + intros B Hrun Hbig.
      pose proof (blackbody_emission_overflow T freq B Hrun Hbig) as ->.
      split; [done|]. apply div_infinity_not_positive.
Qed.

Lemma blackbody_emission_planck_in_binary64_witness :
  (∃ B1 B2,
     @SourceFunctions.blackbody_emission Sample.codata
       (Numpy.PFloat 200) (Numpy.PFloat 30) ∅ = (Ok (Numpy.Scalar B1), ∅) ∧
     @SourceFunctions.blackbody_emission Sample.codata
       (Numpy.PFloat 300) (Numpy.PFloat 30) ∅ = (Ok (Numpy.Scalar B2), ∅) ∧
     0 < B1 ∧ 0 < B2 ∧ B1 < B2) ∧
  (∃ B, @blackbody_emission Sample.libm Sample.codata64 300 30 = Ok B ∧
        (0 <? B)%float = true) ∧
  @blackbody_emission Sample.libm Sample.codata64 300 1e100 = Raise OverflowError ∧
  (710 <=? (@h Sample.codata64 * (30 * 1e9)) / (@k_B Sample.codata64 * 0.001))%float
    = true ∧
  (0 <? 0)%float = false.
Proof.
  destruct blackbody_emission_planck_in_binary64 as [Hexact Hfloat].
  assert (Hh : 0 < @SourceFunctions.h Sample.codata)
    by (cbv [SourceFunctions.h Sample.codata]; lra).
  assert (Hc : 0 < @SourceFunctions.c Sample.codata)
    by (cbv [SourceFunctions.c Sample.codata]; lra).
  assert (Hk : 0 < @SourceFunctions.k_B Sample.codata)
    by (cbv [SourceFunctions.k_B Sample.codata]; lra).
  split.
  { destruct (Hexact Sample.codata Hh Hc Hk ∅ 200 300 30)
      as (B1 & B2 & H1 & H2 & _ & _ & Hp1 & Hp2 & Hlt); [lra..|].
    by exists B1, B2. }
  split.
  { eexists. split; [rewrite (proj1 (Hfloat Sample.libm Sample.codata64 _ _))|];
      vm_compute; reflexivity. }
  split.
  { rewrite (proj1 (Hfloat Sample.libm Sample.codata64 _ _)).
    vm_compute. reflexivity. }
  split; [vm_compute; reflexivity|].
  assert (Hrun : @blackbody_emission Sample.libm Sample.codata64 0.001 30 = Ok 0%float)
    by (vm_compute; reflexivity).
  apply (proj2 (Hfloat Sample.libm Sample.codata64 0.001 30) 0 Hrun)%float.
  vm_compute. reflexivity.
Defined.

(** C7 as stated fails at [freq = 30] GHz and [T = 0.001], [0.002] K, with
    the CODATA constants: [h nu / (k_B T)] is about 1440 and 720, [np.expm1]
    overflows, and whatever the C library is the value returned at either
    temperature is the same zero or nan: it is not positive and the value at
    the higher temperature is not above the value at the lower one. *)
Lemma blackbody_emission_not_positive_at_low_temperature :
  (0 <? 0.001)%float = true ∧ (0.001 <? 0.002)%float = true ∧
  (0 <? 30)%float = true ∧
  @blackbody_emission Sample.libm Sample.codata64 0.001 30 = Ok 0%float ∧
  @blackbody_emission Sample.libm Sample.codata64 0.002 30 = Ok 0%float ∧
  (0 <? 0)%float = false ∧
  ∀ (L : Libm) (B1 B2 : float),
    @blackbody_emission L Sample.codata64 0.001 30 = Ok B1 →
    @blackbody_emission L Sample.codata64 0.002 30 = Ok B2 →
    B1 = B2 ∧ (0 <? B1)%float = false ∧ (0 <? B2)%float = false ∧
    (B1 <? B2)%float = false.
Proof.
  split; [vm_compute; reflexivity|]. split; [vm_compute; reflexivity|].
  split; [vm_compute; reflexivity|]. split; [vm_compute; reflexivity|].
  split; [vm_compute; reflexivity|]. split; [vm_compute; reflexivity|].
  intros L B1 B2 H1 H2.
  apply blackbody_emission_overflow in H1; [|vm_compute; reflexivity].
  apply blackbody_emission_overflow in H2; [|vm_compute; reflexivity].
  subst B1 B2. split; [done|].
  split; [apply div_infinity_not_positive|].
  split; [apply div_infinity_not_positive|]. apply ltb_irrefl.
Qed.

(** *** The phase function, exactly and in binary64 *)




End Float64Facts.

(** ** The decorators, for every input *)

Module DecoratorsRanges.
Import RunFacts Decorators DecoratorsFacts Zodipy AngleValidation.

Lemma foldr_Rmin_spec (x : R) (xs : list R) :
  foldr Rmin x xs ∈ x :: xs ∧ ∀ y, y ∈ x :: xs → foldr Rmin x xs <= y.
Proof.
  induction xs as [|z xs [IHin IHle]]; cbn.
  - split; [by left|]. intros y Hy. apply list_elem_of_singleton in Hy as ->. lra.
  - split.
    + destruct (Rmin_case z (foldr Rmin x xs) (λ m, m = z ∨ m = foldr Rmin x xs))
        as [->| ->]; [by left|by right| |].
      * right. by left.
      * apply elem_of_cons in IHin as [Heq|Hin]; [rewrite Heq; by left|].
        right. by right.
    + intros y Hy.
      pose proof (Rmin_l z (foldr Rmin x xs)). pose proof (Rmin_r z (foldr Rmin x xs)).
      apply elem_of_cons in Hy as [->|Hy].
      * specialize (IHle x (ltac:(by left))). lra.
      * apply elem_of_cons in Hy as [->|Hy]; [lra|].
        specialize (IHle y (ltac:(by right))). lra.
Qed.

Lemma foldr_Rmax_spec (x : R) (xs : list R) :
  foldr Rmax x xs ∈ x :: xs ∧ ∀ y, y ∈ x :: xs → y <= foldr Rmax x xs.
Proof.
  induction xs as [|z xs [IHin IHle]]; cbn.
  - split; [by left|]. intros y Hy. apply list_elem_of_singleton in Hy as ->. lra.
  - split.
    + destruct (Rmax_case z (foldr Rmax x xs) (λ m, m = z ∨ m = foldr Rmax x xs))
        as [->| ->]; [by left|by right| |].
      * right. by left.
      * apply elem_of_cons in IHin as [Heq|Hin]; [rewrite Heq; by left|].
        right. by right.
    + intros y Hy.
      pose proof (Rmax_l z (foldr Rmax x xs)). pose proof (Rmax_r z (foldr Rmax x xs)).
      apply elem_of_cons in Hy as [->|Hy].
      * specialize (IHle x (ltac:(by left))). lra.
      * apply elem_of_cons in Hy as [->|Hy]; [lra|].
        specialize (IHle y (ltac:(by right))). lra.
Qed.

(** X9: when [extrapolate] is off and the model has a tabulated spectrum,
    [validate_frequency] compares the frequency, in the unit of the
    spectrum, with the least and the greatest tabulated value: within these
    bounds, the bounds included, it calls the function with the frequency in
    GHz; outside it raises a [ValueError] that names the model and the two
    bounds, and does not call the function. *)
Theorem validate_frequency_tabulated_range {A} (function : R → Run A)
    (self : zodipy_attrs) (freq : spectral) :
  extrapolate self = false →
  spectrum self ≠ [] →
  ∃ lo hi,
    lo ∈ spectrum self ∧ hi ∈ spectrum self ∧
    (∀ x, x ∈ spectrum self → lo <= x <= hi) ∧
    (lo <= to_unit freq (spectrum_unit self) <= hi →
     validate_frequency function self freq = function (to_unit freq GHz)) ∧
    (to_unit freq (spectrum_unit self) < lo ∨ hi < to_unit freq (spectrum_unit self) →
     validate_frequency function self freq
     = ([], Raise (ValueError (MsgModelRange (model_name self) lo hi
                                 (spectrum_unit self))))).
Proof.
  intros He Hne.
  destruct (spectrum self) as [|x xs] eqn:Hsp; [done|].
  destruct (foldr_Rmin_spec x xs) as [Hlo_in Hlo].
  destruct (foldr_Rmax_spec x xs) as [Hhi_in Hhi].
  exists (foldr Rmin x xs), (foldr Rmax x xs).
  split; [done|]. split; [done|].
  split; [intros y Hy; split; [by apply Hlo|by apply Hhi]|].
  split.
  - intros Hin.
    apply (validate_frequency_in_range function self freq
             (foldr Rmin x xs) (foldr Rmax x xs) He);
      [by rewrite Hsp|by rewrite Hsp|done].
  - intros Hout.
    unfold validate_frequency. rewrite He, Hsp. cbn [negb amin amax].
    rewrite !bind_lift_Ok.
    destruct (Rle_dec _ _); [destruct (Rle_dec _ _)|]; first [lra | reflexivity].
Qed.

Lemma validate_frequency_tabulated_range_witness :
  ∃ lo hi,
    lo ∈ spectrum Sample.dirbe_attrs ∧ hi ∈ spectrum Sample.dirbe_attrs ∧
    (∀ x, x ∈ spectrum Sample.dirbe_attrs → lo <= x <= hi) ∧
    (lo <= to_unit (Wavelength 25e-6) (spectrum_unit Sample.dirbe_attrs) <= hi →
     validate_frequency (λ f, Run.ret f) Sample.dirbe_attrs (Wavelength 25e-6)
     = Run.ret (to_unit (Wavelength 25e-6) GHz)) ∧
    (to_unit (Wavelength 25e-6) (spectrum_unit Sample.dirbe_attrs) < lo ∨
     hi < to_unit (Wavelength 25e-6) (spectrum_unit Sample.dirbe_attrs) →
     validate_frequency (λ f, Run.ret f) Sample.dirbe_attrs (Wavelength 25e-6)
     = ([], Raise (ValueError (MsgModelRange (model_name Sample.dirbe_attrs) lo hi
                                 (spectrum_unit Sample.dirbe_attrs))))).
Proof.
  apply (validate_frequency_tabulated_range (λ f, Run.ret f) Sample.dirbe_attrs
           (Wavelength 25e-6)).
  - reflexivity.
  - discriminate.
Defined.

Lemma foldr_Zmax_le (n p : Z) (ps : list Z) :
  (foldr Z.max p ps ≤ n)%Z ↔ Forall (λ q, q ≤ n)%Z (p :: ps).
Proof.
  induction ps as [|q ps IH]; cbn.
  - rewrite Forall_singleton. done.
  - rewrite !Forall_cons in *. rewrite Z.max_lub_iff, IH. tauto.
Qed.

(** X10: [validate_pixels] raises numpy's [ValueError] on an empty pixel
    sequence; otherwise it calls the function, with a single pixel as a
    one-element sequence, exactly when no pixel is above
    [hp.nside2npix(nside)], and raises "invalid pixel number" without calling
    it when one is.  There is no lower bound: negative pixels pass. *)
Theorem validate_pixels_upper_bound {A} (function : list Z → Z → Run A)
    (pixels : pixels_arg) (nside : Z) :
  validate_pixels function pixels nside
  = match pixel_sequence pixels with
    | [] => ([], Raise (ValueError (MsgNumpy "zero-size array to reduction operation maximum which has no identity")))
    | _ =>
        if decide (Forall (λ p, p ≤ nside2npix nside)%Z (pixel_sequence pixels))
        then function (pixel_sequence pixels) nside
        else ([], Raise (ValueError MsgInvalidPixel))
    end.
Proof.
  unfold validate_pixels.
  destruct pixels as [p|[|p ps]]; cbn [np_max pixel_sequence].
  - rewrite bind_lift_Ok.
    destruct (Z.gtb_spec p (nside2npix nside)).
    + rewrite decide_False; [done|]. rewrite Forall_singleton. lia.
    + rewrite decide_True; [done|]. rewrite Forall_singleton. lia.
  - reflexivity.
  - rewrite bind_lift_Ok.
    destruct (Z.gtb_spec (foldr Z.max p ps) (nside2npix nside)).
    + rewrite decide_False; [done|]. rewrite <- foldr_Zmax_le. lia.
    + rewrite decide_True; [done|]. by rewrite <- foldr_Zmax_le.
Qed.

Lemma convert_value_radians (u target : angle_unit) (x : R) :
  convert_value target rad (convert_value u target x) = convert_value u rad x.
Proof.
  pose proof PI_neq0.
  destruct u, target; unfold convert_value; try done. field. done.
Qed.

Lemma radians_converted (target : angle_unit) (q : angle_arg) :
  radians (expand_scalar (to_angle_unit target q)) = radians (expand_scalar q).
Proof.
  unfold radians. destruct q as [u x|u xs]; cbn.
  - by rewrite convert_value_radians.
  - rewrite <- list_fmap_compose. apply list_fmap_ext.
    intros _ x _. apply convert_value_radians.
Qed.

Lemma size_converted (target : angle_unit) (q : angle_arg) :
  aunit (expand_scalar (to_angle_unit target q)) = target ∧
  length (avalue (expand_scalar (to_angle_unit target q))) = size q.
Proof. destruct q; cbn; by rewrite ?length_fmap. Qed.

(** X11: [validate_angles] never raises by itself: it calls the function
    with both angles as one-dimensional arrays of the size they came with,
    holding the same angles; they are in degrees whenever the caller has
    passed a [lonlat] keyword, be it [True] or [False], and in radians when
    the caller has passed none. *)
Theorem validate_angles_unit_by_keyword {A}
    (function : angles → angles → option bool → Run A)
    (theta phi : angle_arg) (lonlat : option bool) :
  ∃ th ph,
    validate_angles function theta phi lonlat = function th ph lonlat ∧
    aunit th = match lonlat with Some true | Some false => deg | None => rad end ∧
    aunit ph = match lonlat with Some true | Some false => deg | None => rad end ∧
    length (avalue th) = size theta ∧
    length (avalue ph) = size phi ∧
    radians th = radians (expand_scalar theta) ∧
    radians ph = radians (expand_scalar phi).
Proof.
  unfold validate_angles.
  destruct lonlat as [[]|]; eexists _, _; (split; [reflexivity|]);
    rewrite !radians_converted;
    repeat split; apply size_converted.
Qed.

End DecoratorsRanges.


(** ** [get_emission], call by call *)

Module EmissionFacts.
Import Arrays ArraysFacts RunFacts Zodipy ZodipyFacts.

Lemma bind_run_Ok {A B} (m : Run A) (f : A → Run B) (x : A) :
  m.2 = Ok x → (m ≫= f) = (m.1 ++ (f x).1, (f x).2).
Proof.
  unfold mbind, Run_bind, Run.bind. destruct m as [t r]; cbn. intros ->.
  by destruct (f x).
Qed.

Lemma bind_run_Raise {A B} (m : Run A) (f : A → Run B) (e : exn) :
  m.2 = Raise e → (m ≫= f) = (m.1, Raise e).
Proof.
  unfold mbind, Run_bind, Run.bind. destruct m as [t r]; cbn. by intros ->.
Qed.

Lemma bind_run_pair {A B} (t : list event) (x : A) (f : A → Run B) :
  (((t, Ok x) : Run A) ≫= f) = (t ++ (f x).1, (f x).2).
Proof. by apply bind_run_Ok. Qed.

Lemma bind_ext {A B} (m : Run A) (f g : A → Run B) :
  (∀ x, f x = g x) → (m ≫= f) = (m ≫= g).
Proof.
  intros Hfg. unfold mbind, Run_bind, Run.bind. destruct m as [t [x|e]]; [|done].
  by rewrite Hfg.
Qed.

Lemma bind_trace_Forall {A B} (P : event → Prop) (m : Run A) (f : A → Run B) :
  Forall P m.1 → (∀ x, m.2 = Ok x → Forall P (f x).1) → Forall P (m ≫= f).1.
Proof.
  unfold mbind, Run_bind, Run.bind. destruct m as [t [x|e]]; cbn; intros Ht Hf;
    [|done].
  specialize (Hf x eq_refl). destruct (f x) as [t' r]. cbn in *.
  by apply Forall_app.
Qed.

Lemma lookup_fmap_inj_iff {A B} (f : A → B) (l : list A) (i j : nat) :
  (∀ x y, f x = f y → x = y) →
  (f <$> l) !! i = (f <$> l) !! j ↔ l !! i = l !! j.
Proof.
  intros Hf. rewrite !list_lookup_fmap.
  destruct (l !! i) as [x|], (l !! j) as [y|]; cbn; split; try done.
  - intros [= Hxy]. f_equal. by apply Hf.
  - by intros [= ->].
Qed.

(** The inverse indices of [np.unique] number the distinct values: two
    positions get one index exactly when they hold one value, every distinct
    value is the value of some position, and the index of a position leads
    back to its value. *)
Lemma unique_inverse_spec {A} (cmp : A → A → comparison) (l : list A) :
  (∀ x y, cmp x y = Eq ↔ x = y) →
  NoDup (unique cmp l) →
  (∀ i j, (unique_inverse cmp l).2 !! i = (unique_inverse cmp l).2 !! j
          ↔ l !! i = l !! j) ∧
  (∀ k, (k < length (unique cmp l))%nat
        ↔ ∃ i, (unique_inverse cmp l).2 !! i = Some k) ∧
  (∀ i k, (unique_inverse cmp l).2 !! i = Some k → unique cmp l !! k = l !! i).
Proof.
  intros Heq Hnd.
  assert (Hback : ∀ i k, (unique_inverse cmp l).2 !! i = Some k →
                         unique cmp l !! k = l !! i).
  { intros i k Hk. cbn in Hk. rewrite list_lookup_fmap in Hk.
    destruct (l !! i) as [x|] eqn:Hx; [|done]. cbn in Hk. injection Hk as <-.
    apply (index_of_lookup cmp Heq). apply (elem_of_unique cmp Heq).
    by eapply list_elem_of_lookup_2. }
  split; [|split; [|exact Hback]].
  - intros i j. split; [|apply unique_inverse_repeat].
    intros Hij. destruct ((unique_inverse cmp l).2 !! i) as [k|] eqn:Hi.
    + symmetry in Hij. by rewrite <- (Hback i k Hi), <- (Hback j k Hij).
    + symmetry in Hij. apply lookup_ge_None in Hi, Hij.
      rewrite unique_inverse_length in Hi, Hij.
      by rewrite (lookup_ge_None_2 l i), (lookup_ge_None_2 l j).
  - intros k. split.
    + intros Hk. destruct (lookup_lt_is_Some_2 _ _ Hk) as [x Hx].
      assert (Hin : x ∈ l).
      { apply (elem_of_unique cmp Heq). by eapply list_elem_of_lookup_2. }
      apply list_elem_of_lookup in Hin as [i Hi]. exists i.
      destruct (unique_inverse_lookup cmp Heq l i x Hi) as (k' & Hk' & Hu).
      cbn [unique_inverse fst] in Hu. rewrite Hk'. f_equal.
      by eapply NoDup_lookup.
    + intros [i Hi]. pose proof (Hback i k Hi) as Hk.
      cbn in Hi. rewrite list_lookup_fmap in Hi.
      destruct (l !! i) as [x|]; [|done].
      by eapply lookup_lt_Some.
Qed.

Section Interface.
Context `{Ephemeris, Healpy, Package}.

(** *** Which calls are turned down *)

Lemma check_arguments_cases (a : arguments) :
  (∃ p, check_arguments a = Ok p ∧ ¬ rejected a) ∨
  (∃ msg, check_arguments a = Raise (ValueError msg) ∧ rejected a).
Proof.
  unfold check_arguments, rejected, invalid_combination.
  destruct (decide (lower (obs a) ∈ observers)) as [Hobs|Hobs].
  - destruct (pixels a), (nside a), (binned a), (theta a), (phi a), (lonlat a);
      cbn;
      first [ solve [left; eexists; split; [reflexivity|]; intuition congruence]
            | solve [right; eexists; split; [reflexivity|]; intuition congruence] ].
  - right. eexists. split; [reflexivity|]. by left.
Qed.

(** X12: [get_emission] raises a [ValueError] before any call to the
    ephemeris, the interpolation, healpy or the integrator exactly for the
    calls with an unsupported observer, with pixels but no nside, with
    pixels together with angles, with [binned] but no nside, with only one
    of theta and phi, or with pixels and [lonlat].  Every other call gets
    past the checks and starts by asking the ephemeris for the Earth. *)
Theorem turned_down_without_work_iff (self : Zodipy) (a : arguments) :
  ((∃ msg, get_emission self a = ([], Raise (ValueError msg))) ↔
   (lower (obs a) ∉ observers ∨
    (pixels a ≠ None ∧ nside a = None) ∨
    (pixels a ≠ None ∧ (theta a ≠ None ∨ phi a ≠ None)) ∨
    (binned a = true ∧ nside a = None) ∨
    (theta a ≠ None ∧ phi a = None) ∨
    (theta a = None ∧ phi a ≠ None) ∨
    (pixels a ≠ None ∧ lonlat a = true))) ∧
  ((∃ p, check_arguments a = Ok p) ∧
   (∃ t, Run.trace (get_emission self a) = EvGetBody "Earth" :: t) ↔
   ¬ (lower (obs a) ∉ observers ∨
      (pixels a ≠ None ∧ nside a = None) ∨
      (pixels a ≠ None ∧ (theta a ≠ None ∨ phi a ≠ None)) ∨
      (binned a = true ∧ nside a = None) ∨
      (theta a ≠ None ∧ phi a = None) ∨
      (theta a = None ∧ phi a ≠ None) ∨
      (pixels a ≠ None ∧ lonlat a = true))).
Proof.
  assert (Hrej : rejected a ↔
            (lower (obs a) ∉ observers ∨
             (pixels a ≠ None ∧ nside a = None) ∨
             (pixels a ≠ None ∧ (theta a ≠ None ∨ phi a ≠ None)) ∨
             (binned a = true ∧ nside a = None) ∨
             (theta a ≠ None ∧ phi a = None) ∨
             (theta a = None ∧ phi a ≠ None) ∨
             (pixels a ≠ None ∧ lonlat a = true))).
  { unfold rejected, invalid_combination. tauto. }
  rewrite <- Hrej.
  destruct (check_arguments_cases a) as [(p & Hc & Hn)|(msg & Hc & Hr)].
  - destruct (checked_call_queries_ephemeris self a p Hc) as [t Ht].
    split.
    + split; [|done]. intros [msg Hrun]. rewrite Hrun in Ht. done.
    + split; [done|]. intros _. split; [by exists p|by exists t].
  - split.
    + split; [done|]. intros _. exists msg. by apply get_emission_raise.
    + split; [|done]. intros [[p Hp] _]. congruence.
Qed.

(** *** A call without a pointing *)

Lemma prepare_run (self : Zodipy) (a : arguments) (cloud : Component) :
  lookup_comp CLOUD (comps (_model self)) = Ok cloud →
  ∃ s, prepare self a
       = ((resolve_positions a).1 ++ [EvInterpPhaseCoeffs; EvInterpSpectralParams],
          Ok s).
Proof.
  intros Hcloud.
  destruct (resolve_positions_Ok a) as (earth_pos & observer_pos & Hpos).
  eexists. unfold prepare.
  rewrite (bind_run_Ok _ _ _ Hpos). cbn beta iota.
  rewrite !bind_emit. cbn [fst snd]. rewrite Hcloud, bind_lift_Ok.
  reflexivity.
Qed.

(** X14: a call with neither pixels nor angles passes the checks.  It
    asks the ephemeris for the positions and interpolates the spectral
    parameters, and only then raises numpy's [AxisError], from [np.unique];
    healpy and the integrator are not called. *)
Theorem missing_pointing_raises_after_preparation (self : Zodipy)
    (a : arguments) (cloud : Component) :
  lower (obs a) ∈ observers →
  pixels a = None → theta a = None → phi a = None →
  (binned a = true → nside a ≠ None) →
  lookup_comp CLOUD (comps (_model self)) = Ok cloud →
  get_emission self a
  = (Run.trace (resolve_positions a) ++ [EvInterpPhaseCoeffs; EvInterpSpectralParams],
     Raise AxisError).
Proof.
  intros Hobs Hpx Hth Hph Hns Hcloud.
  destruct (check_arguments_cases a) as [(p & Hc & _)|(msg & _ & Hr)].
  2: { unfold rejected, invalid_combination in Hr.
       destruct (binned a); intuition congruence. }
  destruct (check_arguments_Ok a p Hc)
    as [(px & ns & Hpx' & _)|(_ & Hp & Hpth & Hpph & _)]; [congruence|].
  rewrite Hth in Hpth. rewrite Hph in Hpph. cbn in Hpth, Hpph.
  rewrite (get_emission_checked self a p Hc). unfold compute.
  destruct (prepare_run self a cloud Hcloud) as [s Hs].
  rewrite (bind_run_Ok _ _ s (f_equal snd Hs)). rewrite Hs. cbn [fst snd].
  assert (Hbranch : (if binned a then binned_emission self a p s
                     else timestream_emission self a p s) = ([], Raise AxisError)).
  { destruct (binned a); unfold binned_emission, timestream_emission;
      rewrite Hp, Hpth, Hpph; reflexivity. }
  rewrite Hbranch. cbn. by rewrite app_nil_r.
Qed.

(** *** The shape of the result *)

Lemma pixels_of_checked (a : arguments) (p : pointing) (l : list Z) :
  check_arguments a = Ok p → p_pixels p = Some l →
  ∃ px, pixels a = Some px ∧ l = pixel_sequence px.
Proof.
  intros Hc Hl.
  destruct (check_arguments_Ok a p Hc)
    as [(px & ns & Hpx & _ & _ & _ & Hp)|(_ & Hp & _)]; [|congruence].
  exists px. split; [done|]. congruence.
Qed.

Lemma columns_of_checked (a : arguments) (p : pointing) (cols : list (R * R)) :
  check_arguments a = Ok p → p_pixels p = None →
  columns (p_theta p) (p_phi p) = Ok cols →
  ∃ th ph, pixels a = None ∧ theta a = Some th ∧ phi a = Some ph ∧
           length (avalue th) = length (avalue ph) ∧
           length (avalue (conv a th)) = length (avalue (conv a ph)) ∧
           cols = zip (avalue (conv a th)) (avalue (conv a ph)).
Proof.
  intros Hc Hnone Hcols.
  destruct (check_arguments_Ok a p Hc)
    as [(px & ns & _ & _ & _ & _ & Hp)|(Hpx & _ & Hth & Hph & _)]; [congruence|].
  rewrite Hth, Hph in Hcols.
  destruct (theta a) as [th|]; [|done]. destruct (phi a) as [ph|]; [|done].
  cbn in Hcols. case_decide as Hlen; [|done]. injection Hcols as <-.
  exists th, ph. repeat split; try done.
  destruct (avalue_conv a th) as (g & Hg). destruct (avalue_conv a ph) as (g' & Hg').
  rewrite Hg, Hg', !length_fmap in Hlen. done.
Qed.

Lemma branch_rows_shape (self : Zodipy) (a : arguments) (p : pointing)
    (s : shared) (n : nat) (rows : list (list R)) :
  (if binned a then binned_emission self a p s
   else timestream_emission self a p s).2 = Ok (n, rows) →
  length rows = length (comps (_model self)) ∧
  Forall (λ row, length row = n) rows.
Proof.
  destruct (binned a); intros Hrun.
  - destruct (binned_emission_inv self a p s n rows Hrun)
      as (-> & u & counts & uv & rows0 & _ & Hrows & Hscale).
    split.
    { apply Forall2_length in Hrows, Hscale. lia. }
    apply Forall_forall. intros row' Hrow'.
    apply list_elem_of_lookup in Hrow' as [i Hi].
    destruct (Forall2_lookup_r _ _ _ _ _ Hscale Hi) as (row & Hrow & Hmul).
    destruct (Forall2_lookup_r _ _ _ _ _ Hrows Hrow)
      as (lc & _ & integrated & _ & Hset).
    rewrite (imul_at_length _ _ _ _ Hmul), (setitem_length _ _ _ _ Hset).
    apply length_zeros.
  - destruct (timestream_emission_inv self a p s n rows Hrun)
      as (indicies & uv & Hsel & Hrows).
    split.
    { apply Forall2_length in Hrows. lia. }
    assert (Hn : length indicies = n).
    { destruct Hsel as [(l & _ & -> & -> & _)|(cols & _ & _ & -> & -> & _)];
        apply unique_inverse_length. }
    apply Forall_forall. intros row Hrow.
    apply list_elem_of_lookup in Hrow as [i Hi].
    destruct (Forall2_lookup_r _ _ _ _ _ Hrows Hi)
      as (lc & _ & integrated & _ & Hget).
    apply getitem_nat_lookup in Hget as [Hlen _]. congruence.
Qed.

Lemma timestream_size (self : Zodipy) (a : arguments) (p : pointing)
    (s : shared) (n : nat) (rows : list (list R)) :
  check_arguments a = Ok p →
  (timestream_emission self a p s).2 = Ok (n, rows) →
  n = length (requested a).
Proof.
  intros Hc Hrun.
  destruct (timestream_emission_inv self a p s n rows Hrun)
    as (indicies & uv & Hsel & _).
  unfold requested.
  destruct Hsel as [(l & Hl & -> & _)|(cols & Hnone & Hcols & -> & _)].
  - destruct (pixels_of_checked a p l Hc Hl) as (px & -> & ->).
    by rewrite length_fmap.
  - destruct (columns_of_checked a p cols Hc Hnone Hcols)
      as (th & ph & -> & -> & -> & Hlen & Hlen' & ->).
    rewrite length_zip, length_zip_with.
    destruct (avalue_conv a th) as (g & ->). destruct (avalue_conv a ph) as (g' & ->).
    by rewrite !length_fmap.
Qed.

Lemma finish_shape (a : arguments) (n : nat) (rows : list (list R)) :
  Forall (λ row, length row = n) rows →
  length (out_rows (finish a n rows))
  = (if return_comps a then length rows else 1%nat) ∧
  Forall (λ row, length row = n) (out_rows (finish a n rows)).
Proof.
  intros Hrows.
  assert (Hscaled : Forall (λ row, length row = n)
            (fmap (M := list) (λ x, x * MJy_per_W) <$> rows)).
  { apply Forall_fmap. eapply Forall_impl; [exact Hrows|].
    intros row Hrow. cbn. by rewrite length_fmap. }
  unfold finish. destruct (return_comps a); cbn.
  - by rewrite length_fmap.
  - split; [done|]. constructor; [|constructor]. by apply sum_axis0_length.
Qed.

(** X15: a call that the checks accept returns, when the model is
    configured, the pointing is given as a pixel or a non-empty sequence of
    pixels or as two arrays of angles of one length of at least two, the
    integrator gives one value per line of sight and, for a binned map,
    every requested pixel is a pixel of the map.  The result has one row per
    component, or a single row without [return_comps]; a row has one entry
    per request, or one entry per pixel of the map when [binned]. *)
Theorem accepted_call_returns_shaped (self : Zodipy) (a : arguments) :
  one_value_per_line_of_sight →
  configured self a → pointing_given a →
  (∀ px, pixels a = Some px → pixel_sequence px ≠ []) →
  (∀ th, theta a = Some th → (2 ≤ length (avalue th))%nat) →
  lower (obs a) ∈ observers → ¬ invalid_combination a →
  (pixels a ≠ None → lonlat a = false) →
  (binned a = true →
   Forall (λ p, 0 ≤ p < Z.of_nat (map_size a))%Z (pixelized a)) →
  ∃ out,
    Run.outcome (get_emission self a) = Ok out ∧
    length (out_rows out)
    = (if return_comps a then length (comps (_model self)) else 1%nat) ∧
    Forall (λ row, length row
                   = if binned a then map_size a else length (requested a))
      (out_rows out).
Proof.
  intros Hone Hconf Hpt _ _ Hobs Hinv Hll Hrange.
  destruct (check_arguments_cases a) as [(p & Hc & _)|(msg & _ & Hr)].
  2: { unfold rejected in Hr. destruct (lonlat a); intuition congruence. }
  assert (Hret : ∃ out, Run.outcome (get_emission self a) = Ok out).
  { destruct (binned a) eqn:Hb.
    - apply (binned_returns self a p); auto.
    - by apply (timestream_returns self a p). }
  destruct Hret as [out Hout]. exists out. split; [done|].
  unfold Run.outcome in Hout. rewrite (get_emission_checked self a p Hc) in Hout.
  apply compute_inv in Hout as (s & n & rows & Hs & Hrun & ->).
  destruct (branch_rows_shape self a p s n rows Hrun) as [Hcount Hlens].
  destruct (finish_shape a n rows Hlens) as [Hcount' Hlens'].
  split.
  - rewrite Hcount'. by rewrite Hcount.
  - destruct (binned a).
    + destruct (binned_emission_inv self a p s n rows Hrun) as [-> _]. done.
    + by rewrite <- (timestream_size self a p s n rows Hc Hrun).
Qed.

(** *** The total and the components *)

Lemma get_emission_run (self : Zodipy) (a : arguments) (p : pointing)
    (s : shared) (n : nat) (rows : list (list R)) :
  check_arguments a = Ok p →
  (prepare self a).2 = Ok s →
  (if binned a then binned_emission self a p s
   else timestream_emission self a p s).2 = Ok (n, rows) →
  get_emission self a
  = ((prepare self a).1
       ++ (if binned a then binned_emission self a p s
           else timestream_emission self a p s).1,
     Ok (finish a n rows)).
Proof.
  intros Hc Hs Hrun. rewrite (get_emission_checked self a p Hc). unfold compute.
  rewrite (bind_run_Ok _ _ _ Hs). rewrite (bind_run_Ok _ _ _ Hrun).
  cbn. by rewrite app_nil_r.
Qed.

Lemma prepared_model_has_components (self : Zodipy) (a : arguments) (s : shared) :
  (prepare self a).2 = Ok s → comps (_model self) ≠ [].
Proof.
  intros Hs. unfold prepare in Hs.
  apply bind_Ok_inv in Hs as ([e o] & _ & Hs).
  apply bind_Ok_inv in Hs as ([] & _ & Hs).
  apply bind_Ok_inv in Hs as ([] & _ & Hs).
  apply bind_Ok_inv in Hs as (cloud & Hcloud & _).
  cbn in Hcloud. intros Hnil. rewrite Hnil in Hcloud. done.
Qed.

Lemma timestream_rows_with_return_comps (self : Zodipy) (b : bool)
    (a : arguments) (s : shared) (unit_vectors : list Vec3)
    (indicies : list nat) (cs : list (CompLabel * Component)) :
  timestream_rows self (with_return_comps b a) s unit_vectors indicies cs
  = timestream_rows self a s unit_vectors indicies cs.
Proof.
  induction cs as [|[label component] cs IH]; [done|].
  cbn [timestream_rows]. rewrite IH. reflexivity.
Qed.

Lemma binned_rows_with_return_comps (self : Zodipy) (b : bool)
    (a : arguments) (s : shared) (unit_vectors : list Vec3) (npix : nat)
    (unique_pixels : list Z) (cs : list (CompLabel * Component)) :
  binned_rows self (with_return_comps b a) s unit_vectors npix unique_pixels cs
  = binned_rows self a s unit_vectors npix unique_pixels cs.
Proof.
  induction cs as [|[label component] cs IH]; [done|].
  cbn [binned_rows]. rewrite IH. reflexivity.
Qed.

Lemma branch_with_return_comps (self : Zodipy) (b : bool) (a : arguments)
    (p : pointing) (s : shared) :
  (if binned (with_return_comps b a)
   then binned_emission self (with_return_comps b a) p s
   else timestream_emission self (with_return_comps b a) p s)
  = (if binned a then binned_emission self a p s
     else timestream_emission self a p s).
Proof.
  cbn [binned with_return_comps]. destruct (binned a).
  - unfold binned_emission.
    change (map_size (with_return_comps b a)) with (map_size a).
    cbn [nside coord_out lonlat with_return_comps].
    apply bind_ext. intros [[u counts] uv].
    by rewrite binned_rows_with_return_comps.
  - unfold timestream_emission.
    cbn [nside coord_out lonlat with_return_comps].
    apply bind_ext. intros [[n indicies] uv].
    by rewrite timestream_rows_with_return_comps.
Qed.

(** X16: when the call with [return_comps=True] returns the rows of the
    components, the same call with [return_comps=False] makes the same calls
    to its collaborators and returns a single row of the same length, whose
    entry at each position is the sum of the entries of the component rows at
    that position. *)
Theorem total_is_sum_of_components (self : Zodipy) (a : arguments)
    (rows : list (list R)) :
  Run.outcome (get_emission self (with_return_comps true a)) = Ok (PerComponent rows) →
  ∃ total,
    get_emission self (with_return_comps false a)
    = (Run.trace (get_emission self (with_return_comps true a)), Ok (Total total)) ∧
    Forall (λ row, length row = length total) rows ∧
    ∀ i col, Forall2 (λ row v, row !! i = Some v) rows col →
             total !! i = Some (Numpy.sum col).
Proof.
  intros Hrun. unfold Run.outcome, Run.trace in *.
  apply bind_Ok_inv in Hrun as (p & Hc & Hrun). cbn [Run.lift snd] in Hc.
  apply compute_inv in Hrun as (s & n & rows' & Hs & Hbranch & Hout).
  unfold finish in Hout. cbn [return_comps with_return_comps] in Hout.
  injection Hout as ->.
  destruct (branch_rows_shape _ _ _ _ _ _ Hbranch) as [Hcount Hlens].
  pose proof (prepared_model_has_components _ _ _ Hs) as Hne.
  cbn [comps _model with_return_comps] in Hcount, Hne.
  set (scaled := fmap (M := list) (λ x, x * MJy_per_W) <$> rows') in *.
  assert (Hscaled : Forall (λ row, length row = n) scaled).
  { apply Forall_fmap. eapply Forall_impl; [exact Hlens|].
    intros row Hrow. cbn. by rewrite length_fmap. }
  exists (sum_axis0 n scaled).
  change (check_arguments a = Ok p) in Hc.
  change (prepare self (with_return_comps true a)) with (prepare self a) in Hs.
  rewrite (get_emission_run self (with_return_comps true a) p s n rows' Hc Hs Hbranch).
  rewrite branch_with_return_comps in Hbranch.
  rewrite (get_emission_run self (with_return_comps false a) p s n rows' Hc Hs)
    by (by rewrite branch_with_return_comps).
  rewrite !branch_with_return_comps.
  cbn [fst]. split; [reflexivity|].
  pose proof (sum_axis0_length n scaled Hscaled) as Hlen.
  split.
  - eapply Forall_impl; [exact Hscaled|]. intros row Hrow. cbn in *. congruence.
  - intros i col Hcol. apply sum_axis0_lookup; [|done].
    destruct scaled as [|row scaled'] eqn:Hsc.
    { apply (f_equal length) in Hsc. unfold scaled in Hsc.
      rewrite length_fmap in Hsc. cbn in Hsc.
      cbn [comps _model with_return_comps] in *.
      destruct (comps (_model self)); [done|]. cbn in Hcount. lia. }
    inversion Hcol as [|? v ? ? Hv _]; subst.
    apply lookup_lt_Some in Hv. apply Forall_cons in Hscaled as [Hrow _]. lia.
Qed.

(** *** The calls to healpy and to the integrator *)

Lemma rotated_pix2vec_run (pixels : list Z) (nside : Z) (coord_out : coord) :
  _rotated_pix2vec pixels nside coord_out
  = (EvPix2Vec (length pixels)
       :: (if decide (coord_out ≠ E) then [EvRotator coord_out] else []),
     Ok ((λ q, to_ecliptic coord_out (pix2vec nside q)) <$> pixels)).
Proof.
  unfold _rotated_pix2vec, to_ecliptic. rewrite bind_emit. case_decide.
  - rewrite bind_emit. cbn. by rewrite <- list_fmap_compose.
  - reflexivity.
Qed.

Lemma rotated_ang2vec_run (cols : list (R * R)) (lonlat : bool) (coord_out : coord) :
  _rotated_ang2vec cols.*1 cols.*2 lonlat coord_out
  = (EvAng2Vec (length cols)
       :: (if decide (coord_out ≠ E) then [EvRotator coord_out] else []),
     Ok ((λ c, to_ecliptic coord_out (ang2vec c.1 c.2 lonlat)) <$> cols)).
Proof.
  unfold _rotated_ang2vec, to_ecliptic. rewrite bind_emit, length_fmap.
  rewrite zip_with_fmap_l, zip_with_fmap_r, zip_with_diag.
  case_decide.
  - rewrite bind_emit. cbn. by rewrite <- list_fmap_compose.
  - reflexivity.
Qed.

Lemma call_trapezoidal_trace (self : Zodipy) (a : arguments) (s : shared)
    (unit_vectors : list Vec3) (label : CompLabel) (component : Component)
    (integrated : list R) :
  (call_trapezoidal self a s unit_vectors label component).2 = Ok integrated →
  (call_trapezoidal self a s unit_vectors label component).1
  = [EvTrapezoidal label (s_observer_pos s) (s_earth_pos s) unit_vectors].
Proof.
  unfold call_trapezoidal.
  destruct (_line_of_sights self label); [|done].
  destruct (s_spectral s label) as [[emissivity albedo]|]; [|done].
  by rewrite bind_emit.
Qed.

Lemma timestream_rows_trace (self : Zodipy) (a : arguments) (s : shared)
    (unit_vectors : list Vec3) (indicies : list nat)
    (cs : list (CompLabel * Component)) (rows : list (list R)) :
  (timestream_rows self a s unit_vectors indicies cs).2 = Ok rows →
  (timestream_rows self a s unit_vectors indicies cs).1
  = (λ lc, EvTrapezoidal lc.1 (s_observer_pos s) (s_earth_pos s) unit_vectors)
      <$> cs.
Proof.
  revert rows.
  induction cs as [|[label component] cs IH]; intros rows; cbn [timestream_rows];
    [done|].
  intros Hrun.
  apply bind_Ok_inv in Hrun as (integrated & Hint & Hrun).
  rewrite (bind_run_Ok _ _ _ Hint). cbn [fst].
  rewrite (call_trapezoidal_trace _ _ _ _ _ _ _ Hint).
  apply bind_Ok_inv in Hrun as (row & Hrow & Hrun). cbn [Run.lift snd] in Hrow.
  rewrite Hrow, bind_lift_Ok.
  apply bind_Ok_inv in Hrun as (rows' & Hrows & Hrun).
  rewrite (bind_run_Ok _ _ _ Hrows). cbn. by rewrite (IH _ Hrows), app_nil_r.
Qed.

Lemma binned_rows_trace (self : Zodipy) (a : arguments) (s : shared)
    (unit_vectors : list Vec3) (npix : nat) (unique_pixels : list Z)
    (cs : list (CompLabel * Component)) (rows : list (list R)) :
  (binned_rows self a s unit_vectors npix unique_pixels cs).2 = Ok rows →
  (binned_rows self a s unit_vectors npix unique_pixels cs).1
  = (λ lc, EvTrapezoidal lc.1 (s_observer_pos s) (s_earth_pos s) unit_vectors)
      <$> cs.
Proof.
  revert rows.
  induction cs as [|[label component] cs IH]; intros rows; cbn [binned_rows];
    [done|].
  intros Hrun.
  apply bind_Ok_inv in Hrun as (integrated & Hint & Hrun).
  rewrite (bind_run_Ok _ _ _ Hint). cbn [fst].
  rewrite (call_trapezoidal_trace _ _ _ _ _ _ _ Hint).
  apply bind_Ok_inv in Hrun as (row & Hrow & Hrun). cbn [Run.lift snd] in Hrow.
  rewrite Hrow, bind_lift_Ok.
  apply bind_Ok_inv in Hrun as (rows' & Hrows & Hrun).
  rewrite (bind_run_Ok _ _ _ Hrows). cbn. by rewrite (IH _ Hrows), app_nil_r.
Qed.

Lemma prepare_trace (self : Zodipy) (a : arguments) (s : shared) :
  (prepare self a).2 = Ok s →
  (prepare self a).1
  = (resolve_positions a).1 ++ [EvInterpPhaseCoeffs; EvInterpSpectralParams].
Proof.
  intros Hs. unfold prepare in Hs.
  apply bind_Ok_inv in Hs as ([e o] & _ & Hs).
  apply bind_Ok_inv in Hs as ([] & _ & Hs).
  apply bind_Ok_inv in Hs as ([] & _ & Hs).
  apply bind_Ok_inv in Hs as (cloud & Hcloud & _). cbn [Run.lift snd] in Hcloud.
  destruct (prepare_run self a cloud Hcloud) as [s' ->]. done.
Qed.

(** What [np.unique] is given in a checked call, and what comes out of it:
    the inverse indices and the lines of sight of a timestream. *)
Lemma timestream_selection (a : arguments) (p : pointing) (n : nat)
    (indicies : list nat) (unit_vectors : list Vec3) :
  check_arguments a = Ok p →
  ((∃ pixels, p_pixels p = Some pixels ∧ n = length pixels ∧
              indicies = (unique_inverse Z.compare pixels).2 ∧
              (_rotated_pix2vec (unique Z.compare pixels)
                 (default 0%Z (nside a)) (coord_out a)).2
              = Ok unit_vectors) ∨
   (∃ cols, p_pixels p = None ∧
            columns (p_theta p) (p_phi p) = Ok cols ∧ n = length cols ∧
            indicies = (unique_inverse cmp_column cols).2 ∧
            (_rotated_ang2vec (unique cmp_column cols).*1
               (unique cmp_column cols).*2 (lonlat a) (coord_out a)).2
            = Ok unit_vectors)) →
  (∃ px, pixels a = Some px ∧ p_pixels p = Some (pixel_sequence px) ∧
         n = length (pixel_sequence px) ∧
         indicies = (unique_inverse Z.compare (pixel_sequence px)).2 ∧
         unit_vectors
         = (λ q, to_ecliptic (coord_out a) (pix2vec (default 0%Z (nside a)) q))
             <$> unique Z.compare (pixel_sequence px)) ∨
  (∃ th ph, pixels a = None ∧ theta a = Some th ∧ phi a = Some ph ∧
            p_pixels p = None ∧
            columns (p_theta p) (p_phi p)
            = Ok (zip (avalue (conv a th)) (avalue (conv a ph))) ∧
            length (avalue (conv a th)) = length (avalue (conv a ph)) ∧
            n = length (zip (avalue (conv a th)) (avalue (conv a ph))) ∧
            indicies = (unique_inverse cmp_column
                          (zip (avalue (conv a th)) (avalue (conv a ph)))).2 ∧
            unit_vectors
            = (λ c, to_ecliptic (coord_out a) (ang2vec c.1 c.2 (lonlat a)))
                <$> unique cmp_column
                      (zip (avalue (conv a th)) (avalue (conv a ph)))).
Proof.
  intros Hc [(l & Hl & -> & -> & Hvec)|(cols & Hnone & Hcols & -> & -> & Hvec)].
  - destruct (pixels_of_checked a p l Hc Hl) as (px & Hpx & ->).
    left. exists px. rewrite rotated_pix2vec_run in Hvec. injection Hvec as <-.
    done.
  - destruct (columns_of_checked a p cols Hc Hnone Hcols)
      as (th & ph & Hpx & Hth & Hph & _ & Hlen & ->).
    right. exists th, ph. rewrite rotated_ang2vec_run in Hvec.
    injection Hvec as <-. done.
Qed.

Lemma timestream_emission_trace (self : Zodipy) (a : arguments) (p : pointing)
    (s : shared) (n : nat) (rows : list (list R)) :
  check_arguments a = Ok p → binned a = false →
  (timestream_emission self a p s).2 = Ok (n, rows) →
  ∃ indicies unit_vectors,
    ((∃ pixels, p_pixels p = Some pixels ∧ n = length pixels ∧
                indicies = (unique_inverse Z.compare pixels).2 ∧
                (_rotated_pix2vec (unique Z.compare pixels)
                   (default 0%Z (nside a)) (coord_out a)).2
                = Ok unit_vectors) ∨
     (∃ cols, p_pixels p = None ∧
              columns (p_theta p) (p_phi p) = Ok cols ∧ n = length cols ∧
              indicies = (unique_inverse cmp_column cols).2 ∧
              (_rotated_ang2vec (unique cmp_column cols).*1
                 (unique cmp_column cols).*2 (lonlat a) (coord_out a)).2
              = Ok unit_vectors)) ∧
    Forall2 (λ lc row, ∃ integrated,
               (call_trapezoidal self a s unit_vectors lc.1 lc.2).2 = Ok integrated ∧
               getitem integrated (Z.of_nat <$> indicies) = Ok row)
      (comps (_model self)) rows ∧
    length unit_vectors = distinct_directions a ∧
    (timestream_emission self a p s).1
    = healpy_events a (length unit_vectors)
        ++ integrator_events self (s_observer_pos s) (s_earth_pos s) unit_vectors.
Proof.
  intros Hc Hb Hrun.
  destruct (timestream_emission_inv self a p s n rows Hrun)
    as (indicies & unit_vectors & Hsel & Hrows).
  exists indicies, unit_vectors. split; [exact Hsel|]. split; [exact Hrows|].
  unfold healpy_events, integrator_events, distinct_directions. rewrite Hb.
  unfold timestream_emission in *.
  destruct (timestream_selection a p n indicies unit_vectors Hc Hsel)
    as [(px & Hpx & Hp & _ & _ & ->)
       |(th & ph & Hpx & Hth & Hph & Hnone & Hcols & _ & _ & _ & ->)].
  - rewrite Hpx. split; [by rewrite length_fmap|].
    rewrite Hp in *. cbn [unique_inverse] in *.
    rewrite rotated_pix2vec_run in *.
    rewrite bind_run_pair in *. cbn [fst snd mret Run_ret Run.ret] in *.
    rewrite bind_run_pair in *. cbn [fst snd] in *.
    apply bind_Ok_inv in Hrun as (rows' & Hrows' & _).
    rewrite (bind_run_Ok _ _ _ Hrows'). cbn [fst snd mret Run_ret Run.ret].
    rewrite (timestream_rows_trace _ _ _ _ _ _ _ Hrows'), !app_nil_r.
    by rewrite length_fmap.
  - rewrite Hpx, Hth, Hph. split; [by rewrite length_fmap|].
    rewrite Hnone, Hcols in *. rewrite bind_lift_Ok in *.
    cbn [unique_inverse] in *. rewrite rotated_ang2vec_run in *.
    rewrite bind_run_pair in *. cbn [fst snd mret Run_ret Run.ret] in *.
    rewrite bind_run_pair in *. cbn [fst snd] in *.
    apply bind_Ok_inv in Hrun as (rows' & Hrows' & _).
    rewrite (bind_run_Ok _ _ _ Hrows'). cbn [fst snd mret Run_ret Run.ret].
    rewrite (timestream_rows_trace _ _ _ _ _ _ _ Hrows'), !app_nil_r.
    by rewrite length_fmap.
Qed.

Lemma binned_emission_trace (self : Zodipy) (a : arguments) (p : pointing)
    (s : shared) (n : nat) (rows : list (list R)) :
  check_arguments a = Ok p → binned a = true →
  (binned_emission self a p s).2 = Ok (n, rows) →
  ∃ unit_vectors,
    length unit_vectors = distinct_directions a ∧
    (binned_emission self a p s).1
    = healpy_events a (length unit_vectors)
        ++ integrator_events self (s_observer_pos s) (s_earth_pos s) unit_vectors.
Proof.
  intros Hc Hb. unfold healpy_events, integrator_events, distinct_directions.
  rewrite Hb. unfold binned_emission.
  destruct (p_pixels p) as [l|] eqn:Hl.
  - destruct (pixels_of_checked a p l Hc Hl) as (px & -> & ->).
    cbn [unique_counts]. rewrite rotated_pix2vec_run.
    rewrite bind_run_pair. cbn [fst snd mret Run_ret Run.ret].
    rewrite bind_run_pair. cbn [fst snd]. rewrite bind_emit. cbn [fst snd].
    intros Hrun. apply bind_Ok_inv in Hrun as (rows' & Hrows & Hrun).
    rewrite (bind_run_Ok _ _ _ Hrows).
    apply bind_Ok_inv in Hrun as (rows'' & Hscale & _). cbn [Run.lift snd] in Hscale.
    rewrite Hscale, bind_lift_Ok. cbn [fst snd mret Run_ret Run.ret].
    exists ((λ q, to_ecliptic (coord_out a) (pix2vec (default 0%Z (nside a)) q))
              <$> unique Z.compare (pixel_sequence px)).
    split; [by rewrite length_fmap|].
    rewrite (binned_rows_trace _ _ _ _ _ _ _ _ Hrows).
    rewrite !app_nil_r, length_fmap. cbn. by rewrite <- !app_assoc.
  - destruct (columns (p_theta p) (p_phi p)) as [cols|e] eqn:Hcols; [|done].
    destruct (columns_of_checked a p cols Hc Hl Hcols)
      as (th & ph & -> & -> & -> & _ & _ & ->).
    rewrite bind_lift_Ok. cbn [unique_counts]. rewrite bind_emit.
    rewrite rotated_ang2vec_run.
    rewrite bind_run_pair. cbn [fst snd mret Run_ret Run.ret].
    rewrite bind_run_pair. cbn [fst snd]. rewrite bind_emit. cbn [fst snd].
    intros Hrun. apply bind_Ok_inv in Hrun as (rows' & Hrows & Hrun).
    rewrite (bind_run_Ok _ _ _ Hrows).
    apply bind_Ok_inv in Hrun as (rows'' & Hscale & _). cbn [Run.lift snd] in Hscale.
    rewrite Hscale, bind_lift_Ok. cbn [fst snd mret Run_ret Run.ret].
    exists ((λ c, to_ecliptic (coord_out a) (ang2vec c.1 c.2 (lonlat a)))
              <$> unique cmp_column (zip (avalue (conv a th)) (avalue (conv a ph)))).
    split; [by rewrite length_fmap|].
    rewrite (binned_rows_trace _ _ _ _ _ _ _ _ Hrows).
    rewrite !app_nil_r, length_fmap. cbn. by rewrite <- !app_assoc.
Qed.

(** A call that returns went through the checks, the preparation and one of
    the two branches, and its calls are theirs. *)
Lemma returned_run (self : Zodipy) (a : arguments) (out : emission_out) :
  Run.outcome (get_emission self a) = Ok out →
  ∃ p s n rows,
    check_arguments a = Ok p ∧
    (prepare self a).2 = Ok s ∧
    (if binned a then binned_emission self a p s
     else timestream_emission self a p s).2 = Ok (n, rows) ∧
    out = finish a n rows ∧
    (get_emission self a).1
    = (resolve_positions a).1
        ++ [EvInterpPhaseCoeffs; EvInterpSpectralParams]
        ++ (if binned a then binned_emission self a p s
            else timestream_emission self a p s).1.
Proof.
  intros Hrun. unfold Run.outcome in Hrun.
  apply bind_Ok_inv in Hrun as (p & Hc & Hrun). cbn [Run.lift snd] in Hc.
  apply compute_inv in Hrun as (s & n & rows & Hs & Hbranch & Hout).
  exists p, s, n, rows. split; [done|]. split; [done|]. split; [done|].
  split; [done|].
  rewrite (get_emission_run self a p s n rows Hc Hs Hbranch). cbn [fst].
  by rewrite (prepare_trace self a s Hs), <- app_assoc.
Qed.

Lemma returned_trace (self : Zodipy) (a : arguments) (out : emission_out) :
  Run.outcome (get_emission self a) = Ok out →
  ∃ s unit_vectors,
    Run.outcome (prepare self a) = Ok s ∧
    length unit_vectors = distinct_directions a ∧
    Run.trace (get_emission self a)
    = Run.trace (resolve_positions a)
        ++ [EvInterpPhaseCoeffs; EvInterpSpectralParams]
        ++ healpy_events a (distinct_directions a)
        ++ integrator_events self (s_observer_pos s) (s_earth_pos s) unit_vectors.
Proof.
  intros Hrun.
  destruct (returned_run self a out Hrun) as (p & s & n & rows & Hc & Hs & Hbranch & _ & Ht).
  unfold Run.trace, Run.outcome. rewrite Ht.
  destruct (binned a) eqn:Hb.
  - destruct (binned_emission_trace self a p s n rows Hc Hb Hbranch)
      as (unit_vectors & Hlen & ->).
    exists s, unit_vectors. by rewrite Hlen.
  - destruct (timestream_emission_trace self a p s n rows Hc Hb Hbranch)
      as (indicies & unit_vectors & _ & _ & Hlen & ->).
    exists s, unit_vectors. by rewrite Hlen.
Qed.

(** X17: a call that returns has made these calls to the ephemeris, the
    interpolation, healpy and the integrator, in this order, and no other:
    the ephemeris for the positions; the interpolation of the phase
    coefficients and of the spectral parameters; healpy for the vectors of
    the distinct directions among the requests (after their pixels, when
    angles are binned), then for the rotation when [coord_out] is not
    ecliptic, then for the size of the map when binned; and the integrator
    once for each component, in the order of the model, each time from the
    prepared positions and along the same lines of sight, one for each
    distinct direction. *)
Theorem one_integration_per_component (self : Zodipy) (a : arguments)
    (out : emission_out) :
  Run.outcome (get_emission self a) = Ok out →
  ∃ s unit_vectors,
    Run.outcome (prepare self a) = Ok s ∧
    length unit_vectors = distinct_directions a ∧
    Run.trace (get_emission self a)
    = Run.trace (resolve_positions a)
        ++ [EvInterpPhaseCoeffs; EvInterpSpectralParams]
        ++ healpy_events a (distinct_directions a)
        ++ integrator_events self (s_observer_pos s) (s_earth_pos s) unit_vectors.
Proof. apply returned_trace. Qed.

(** *** The position of the observer *)

Lemma call_trapezoidal_from (self : Zodipy) (a : arguments) (s : shared)
    (unit_vectors : list Vec3) (label : CompLabel) (component : Component) :
  Forall (from_positions (s_earth_pos s) (s_observer_pos s))
    (call_trapezoidal self a s unit_vectors label component).1.
Proof.
  unfold call_trapezoidal.
  destruct (_line_of_sights self label); [|by constructor].
  destruct (s_spectral s label) as [[emissivity albedo]|]; [|by constructor].
  rewrite bind_emit. cbn. by repeat constructor.
Qed.

Lemma timestream_rows_from (self : Zodipy) (a : arguments) (s : shared)
    (unit_vectors : list Vec3) (indicies : list nat)
    (cs : list (CompLabel * Component)) :
  Forall (from_positions (s_earth_pos s) (s_observer_pos s))
    (timestream_rows self a s unit_vectors indicies cs).1.
Proof.
  induction cs as [|[label component] cs IH]; cbn [timestream_rows];
    [by constructor|].
  apply bind_trace_Forall; [apply call_trapezoidal_from|]. intros integrated _.
  apply bind_trace_Forall; [by constructor|]. intros row _.
  apply bind_trace_Forall; [exact IH|]. intros rows _. by constructor.
Qed.

Lemma binned_rows_from (self : Zodipy) (a : arguments) (s : shared)
    (unit_vectors : list Vec3) (npix : nat) (unique_pixels : list Z)
    (cs : list (CompLabel * Component)) :
  Forall (from_positions (s_earth_pos s) (s_observer_pos s))
    (binned_rows self a s unit_vectors npix unique_pixels cs).1.
Proof.
  induction cs as [|[label component] cs IH]; cbn [binned_rows];
    [by constructor|].
  apply bind_trace_Forall; [apply call_trapezoidal_from|]. intros integrated _.
  apply bind_trace_Forall; [by constructor|]. intros row _.
  apply bind_trace_Forall; [exact IH|]. intros rows _. by constructor.
Qed.

Lemma rotated_pix2vec_from (earth_pos observer_pos : Vec3) (pixels : list Z)
    (nside : Z) (coord_out : coord) :
  Forall (from_positions earth_pos observer_pos)
    (_rotated_pix2vec pixels nside coord_out).1.
Proof. rewrite rotated_pix2vec_run. cbn. case_decide; by repeat constructor. Qed.

Lemma rotated_ang2vec_from (earth_pos observer_pos : Vec3) (cols : list (R * R))
    (lonlat : bool) (coord_out : coord) :
  Forall (from_positions earth_pos observer_pos)
    (_rotated_ang2vec cols.*1 cols.*2 lonlat coord_out).1.
Proof. rewrite rotated_ang2vec_run. cbn. case_decide; by repeat constructor. Qed.

Lemma timestream_emission_from (self : Zodipy) (a : arguments) (p : pointing)
    (s : shared) :
  Forall (from_positions (s_earth_pos s) (s_observer_pos s))
    (timestream_emission self a p s).1.
Proof.
  unfold timestream_emission. apply bind_trace_Forall.
  - destruct (p_pixels p) as [l|].
    + cbn [unique_inverse].
      apply bind_trace_Forall; [apply rotated_pix2vec_from|].
      intros uv _. by constructor.
    + apply bind_trace_Forall; [by constructor|]. intros cols _.
      cbn [unique_inverse].
      apply bind_trace_Forall; [apply rotated_ang2vec_from|].
      intros uv _. by constructor.
  - intros [[n indicies] uv] _.
    apply bind_trace_Forall; [apply timestream_rows_from|].
    intros rows _. by constructor.
Qed.

Lemma binned_emission_from (self : Zodipy) (a : arguments) (p : pointing)
    (s : shared) :
  Forall (from_positions (s_earth_pos s) (s_observer_pos s))
    (binned_emission self a p s).1.
Proof.
  unfold binned_emission. apply bind_trace_Forall.
  - destruct (p_pixels p) as [l|].
    + cbn [unique_counts].
      apply bind_trace_Forall; [apply rotated_pix2vec_from|].
      intros uv _. by constructor.
    + apply bind_trace_Forall; [by constructor|]. intros cols _.
      cbn [unique_counts].
      apply bind_trace_Forall; [by repeat constructor|]. intros [] _.
      apply bind_trace_Forall; [apply rotated_ang2vec_from|].
      intros uv _. by constructor.
  - intros [[u counts] uv] _.
    apply bind_trace_Forall; [by repeat constructor|]. intros [] _.
    apply bind_trace_Forall; [apply binned_rows_from|]. intros rows _.
    apply bind_trace_Forall; [by constructor|]. intros rows' _. by constructor.
Qed.

Lemma prepare_from (self : Zodipy) (a : arguments) (earth_pos observer_pos : Vec3) :
  resolve_positions a = ([EvGetBody "Earth"], Ok (earth_pos, observer_pos)) →
  Forall (from_positions earth_pos observer_pos) (prepare self a).1.
Proof.
  intros Hres. unfold prepare. rewrite Hres, bind_run_pair. cbn [fst snd].
  rewrite !bind_emit. cbn [fst snd].
  destruct (lookup_comp CLOUD (comps (_model self))); cbn; by repeat constructor.
Qed.

(** Where the positions come from one query for the Earth, that query is
    the only one, and every call of the integrator is given them. *)
Lemma observer_position_used (self : Zodipy) (a : arguments)
    (earth_pos observer_pos : Vec3) :
  resolve_positions a = ([EvGetBody "Earth"], Ok (earth_pos, observer_pos)) →
  (¬ rejected a → ∃ t, Run.trace (get_emission self a) = EvGetBody "Earth" :: t) ∧
  Forall (from_positions earth_pos observer_pos) (Run.trace (get_emission self a)) ∧
  ∀ out, Run.outcome (get_emission self a) = Ok out →
    comps (_model self) ≠ [] ∧
    ∃ unit_vectors,
      length unit_vectors = distinct_directions a ∧
      Run.trace (get_emission self a)
      = [EvGetBody "Earth"; EvInterpPhaseCoeffs; EvInterpSpectralParams]
          ++ healpy_events a (distinct_directions a)
          ++ integrator_events self observer_pos earth_pos unit_vectors.
Proof.
  intros Hres. split; [|split].
  - intros Hn.
    destruct (check_arguments_cases a) as [(p & Hc & _)|(msg & _ & Hr)]; [|done].
    exact (checked_call_queries_ephemeris self a p Hc).
  - unfold Run.trace, get_emission.
    apply bind_trace_Forall; [by constructor|]. intros p _.
    unfold compute. apply bind_trace_Forall; [by apply prepare_from|].
    intros s Hs.
    destruct (prepare_positions self a s earth_pos observer_pos) as [<- <-];
      [by rewrite Hres|done|].
    apply bind_trace_Forall.
    + destruct (binned a);
        [apply binned_emission_from|apply timestream_emission_from].
    + intros [n rows] _. by constructor.
  - intros out Hrun.
    destruct (returned_trace self a out Hrun) as (s & unit_vectors & Hs & Hlen & Ht).
    destruct (prepare_positions self a s earth_pos observer_pos) as [He Ho];
      [by rewrite Hres|done|].
    split; [by eapply prepared_model_has_components|].
    exists unit_vectors. split; [done|].
    rewrite Ht. unfold Run.trace. rewrite Hres, He, Ho. reflexivity.
Qed.

(** X13: with an explicit [obs_pos], a call that the checks accept asks
    the ephemeris for the Earth, and for nothing else, and every call of the
    integrator is given [obs_pos] as the observer, with the Earth's position
    from the ephemeris; a call that returns has made one such call of the
    integrator for each component.  The name [obs] is not used for the
    position, but it is still checked: an unsupported name is turned down
    although a position is given. *)
Theorem explicit_position_overrides_observer (self : Zodipy) (a : arguments)
    (pos : Vec3) :
  obs_pos a = Some pos →
  (¬ rejected a → ∃ t, Run.trace (get_emission self a) = EvGetBody "Earth" :: t) ∧
  Forall (from_positions (get_body "Earth" (obs_time a)) pos)
    (Run.trace (get_emission self a)) ∧
  (∀ out, Run.outcome (get_emission self a) = Ok out →
     comps (_model self) ≠ [] ∧
     ∃ unit_vectors,
       length unit_vectors = distinct_directions a ∧
       Run.trace (get_emission self a)
       = [EvGetBody "Earth"; EvInterpPhaseCoeffs; EvInterpSpectralParams]
           ++ healpy_events a (distinct_directions a)
           ++ integrator_events self pos (get_body "Earth" (obs_time a))
                unit_vectors) ∧
  (lower (obs a) ∉ observers →
   get_emission self a
   = ([], Raise (ValueError (MsgUnsupportedObserver (obs a) ephemeris_value)))).
Proof.
  intros Hpos.
  assert (Hres : resolve_positions a
                 = ([EvGetBody "Earth"], Ok (get_body "Earth" (obs_time a), pos))).
  { unfold resolve_positions, call_get_body. by rewrite Hpos. }
  destruct (observer_position_used self a _ _ Hres) as (Hfirst & Hall & Hret).
  split; [done|]. split; [done|]. split; [done|].
  intros Hobs. apply get_emission_raise. by apply check_arguments_unsupported.
Qed.


(** *** The value of a request in a timestream *)

(** X18: in a timestream returned by component, the entry of request [i]
    in the row of a component is the value that the integrator returns, for
    that component and for the line of sight of request [i], times 1e20 (the
    conversion to MJy/sr).  The integrator is given one line of sight for
    each distinct direction; for angles the line of sight is
    [hp.ang2vec(theta, phi)] of the request, in degrees with [lonlat]. *)
Theorem timestream_value_of_request (self : Zodipy) (a : arguments)
    (rows : list (list R)) (c : nat) (label : CompLabel) (component : Component)
    (i : nat) (los : Vec3) :
  binned a = false → return_comps a = true →
  Run.outcome (get_emission self a) = Ok (PerComponent rows) →
  comps (_model self) !! c = Some (label, component) →
  line_of_sight_at a i = Some los →
  ∃ s unit_vectors integrated k v row,
    Run.outcome (prepare self a) = Ok s ∧
    length unit_vectors = distinct_directions a ∧
    Run.outcome (call_trapezoidal self a s unit_vectors label component)
      = Ok integrated ∧
    unit_vectors !! k = Some los ∧
    integrated !! k = Some v ∧
    rows !! c = Some row ∧
    row !! i = Some (v * 1e20).
Proof.
  intros Hb Hrc Hrun Hcomp Hlos. unfold Run.outcome in *.
  apply bind_Ok_inv in Hrun as (p & Hc & Hrun). cbn [Run.lift snd] in Hc.
  apply compute_inv in Hrun as (s & n & rows' & Hs & Hbranch & Hout).
  rewrite Hb in Hbranch.
  unfold finish in Hout. rewrite Hrc in Hout. injection Hout as ->.
  destruct (timestream_emission_inv self a p s n rows' Hbranch)
    as (indicies & unit_vectors & Hsel & Hrows).
  destruct (Forall2_lookup_l _ _ _ _ _ Hrows Hcomp)
    as (row' & Hrow' & integrated & Hint & Hget).
  cbn [fst snd] in Hint.
  apply getitem_nat_lookup in Hget as [_ Hget].
  assert (Hk : ∃ k, indicies !! i = Some k ∧ unit_vectors !! k = Some los ∧
                    length unit_vectors = distinct_directions a).
  { unfold line_of_sight_at, distinct_directions in *.
    destruct Hsel as [(l & Hl & _ & -> & Hvec)|(cols & Hnone & Hcols & _ & -> & Hvec)].
    - destruct (pixels_of_checked a p l Hc Hl) as (px & Hpx & ->).
      rewrite Hpx in *.
      destruct (pixel_sequence px !! i) as [q|] eqn:Hq; [|done].
      injection Hlos as <-.
      rewrite rotated_pix2vec_run in Hvec. injection Hvec as <-.
      destruct (unique_inverse_lookup Z.compare Z.compare_eq_iff _ i q Hq)
        as (k & Hk & Hu).
      exists k. split; [done|]. cbn [unique_inverse fst] in Hu.
      rewrite list_lookup_fmap, Hu. by rewrite length_fmap.
    - destruct (columns_of_checked a p cols Hc Hnone Hcols)
        as (th & ph & Hpx & Hth & Hph & _ & _ & ->).
      rewrite Hpx, Hth, Hph in *.
      destruct (avalue (conv a th) !! i) as [t|] eqn:Ht; [|done].
      destruct (avalue (conv a ph) !! i) as [f|] eqn:Hf; [|done].
      injection Hlos as <-.
      rewrite rotated_ang2vec_run in Hvec. injection Hvec as <-.
      destruct (unique_inverse_lookup cmp_column cmp_column_Eq
                  (zip (avalue (conv a th)) (avalue (conv a ph))) i (t, f))
        as (k & Hk & Hu).
      { by rewrite lookup_zip_with, Ht, Hf. }
      exists k. split; [done|]. cbn [unique_inverse fst] in Hu.
      rewrite list_lookup_fmap, Hu. by rewrite length_fmap. }
  destruct Hk as (k & Hk & Hvk & Hlen).
  destruct (Hget i k Hk) as (v & Hv & Hvi).
  exists s, unit_vectors, integrated, k, v, ((λ x, x * MJy_per_W) <$> row').
  split; [done|]. split; [done|]. split; [done|]. split; [done|].
  split; [done|]. split.
  - by rewrite list_lookup_fmap, Hrow'.
  - rewrite list_lookup_fmap, Hv. reflexivity.
Qed.

(** *** Repeated directions are integrated once *)

(** C1: a call that is not binned and that returns has called the
    integrator once for each component, each time along the same lines of
    sight: one for each distinct direction among the requests, and no other.
    The inverse indices send every request to the line of sight of its
    direction, two requests to the same one exactly when their directions
    are the same, and the row of a component holds at each request the value
    integrated along that line of sight.  So two input positions that hold
    the same direction (the same pixel, or the same theta and phi) hold the
    same value in every row of the result, for every component and for the
    total. *)
Theorem repeated_direction_integrated_once (self : Zodipy) (a : arguments)
    (out : emission_out) (i j : nat) (d : direction) :
  binned a = false →
  Run.outcome (get_emission self a) = Ok out →
  requested a !! i = Some d →
  requested a !! j = Some d →
  (∀ row, row ∈ out_rows out → ∃ v, row !! i = Some v ∧ row !! j = Some v) ∧
  ∃ s unit_vectors indicies rows,
    Run.outcome (prepare self a) = Ok s ∧
    Run.trace (get_emission self a)
    = Run.trace (resolve_positions a)
        ++ [EvInterpPhaseCoeffs; EvInterpSpectralParams]
        ++ healpy_events a (length unit_vectors)
        ++ integrator_events self (s_observer_pos s) (s_earth_pos s) unit_vectors ∧
    length indicies = length (requested a) ∧
    (∀ i' j', indicies !! i' = indicies !! j'
              ↔ directions a !! i' = directions a !! j') ∧
    (∀ k, (k < length unit_vectors)%nat ↔ ∃ i', indicies !! i' = Some k) ∧
    (∀ i' k, indicies !! i' = Some k → unit_vectors !! k = line_of_sight_at a i') ∧
    (∃ k, indicies !! i = Some k ∧ indicies !! j = Some k) ∧
    Forall2 (λ lc row, ∃ integrated,
               Run.outcome (call_trapezoidal self a s unit_vectors lc.1 lc.2)
                 = Ok integrated ∧
               length row = length indicies ∧
               ∀ i' k, indicies !! i' = Some k →
                       ∃ v, integrated !! k = Some v ∧ row !! i' = Some v)
      (comps (_model self)) rows ∧
    out = finish a (length (requested a)) rows.
Proof.
  intros Hb Hrun Hi Hj.
  split; [exact (repeated_direction_same_value self a out i j d Hb Hrun Hi Hj)|].
  destruct (returned_run self a out Hrun)
    as (p & s & n & rows & Hc & Hs & Hbranch & -> & Ht).
  rewrite Hb in Hbranch, Ht.
  destruct (timestream_emission_trace self a p s n rows Hc Hb Hbranch)
    as (indicies & unit_vectors & Hsel & Hrows & _ & Htrace).
  pose proof (timestream_size self a p s n rows Hc Hbranch) as ->.
  exists s, unit_vectors, indicies, rows.
  split; [exact Hs|]. split; [unfold Run.trace; by rewrite Ht, Htrace|].
  assert (Hvalues :
    Forall2 (λ lc row, ∃ integrated,
               Run.outcome (call_trapezoidal self a s unit_vectors lc.1 lc.2)
                 = Ok integrated ∧
               length row = length indicies ∧
               ∀ i' k, indicies !! i' = Some k →
                       ∃ v, integrated !! k = Some v ∧ row !! i' = Some v)
      (comps (_model self)) rows).
  { eapply Forall2_impl; [exact Hrows|].
    intros lc row (integrated & Hint & Hget). exists integrated.
    apply getitem_nat_lookup in Hget as [Hlen Hget].
    split; [exact Hint|]. split; [exact Hlen|].
    intros i' k Hk. destruct (Hget i' k Hk) as (v & Hv & Hvk). by exists v. }
  destruct (requested_repeat a p i j d Hc Hi Hj) as [Hpix Hcol].
  pose proof (lookup_lt_Some _ _ _ Hi) as Hlt.
  destruct (timestream_selection a p _ indicies unit_vectors Hc Hsel)
    as [(px & Hpx & Hp & Hn & -> & ->)
       |(th & ph & Hpx & Hth & Hph & Hnone & Hcols & Hlen & Hn & -> & ->)].
  - destruct (unique_inverse_spec Z.compare (pixel_sequence px) Z.compare_eq_iff
                (unique_pixels_NoDup _)) as (Hsame & Honto & Hback).
    split; [by rewrite unique_inverse_length|].
    split; [|split; [|split; [|split; [|done]]]].
    + intros i' j'. rewrite Hsame. unfold directions. rewrite Hpx.
      symmetry. apply lookup_fmap_inj_iff. by intros x y [= ->].
    + intros k. by rewrite length_fmap.
    + intros i' k Hk. unfold line_of_sight_at. rewrite Hpx.
      by rewrite list_lookup_fmap, (Hback i' k Hk).
    + destruct (Hpix _ Hp) as (_ & _ & Heq). apply Hsame in Heq.
      destruct (lookup_lt_is_Some_2
                  (unique_inverse Z.compare (pixel_sequence px)).2 i) as [k Hk].
      { rewrite unique_inverse_length. congruence. }
      exists k. split; [done|]. by rewrite <- Heq.
  - destruct (unique_inverse_spec cmp_column
                (zip (avalue (conv a th)) (avalue (conv a ph))) cmp_column_Eq
                (unique_columns_NoDup _)) as (Hsame & Honto & Hback).
    split; [by rewrite unique_inverse_length|].
    split; [|split; [|split; [|split; [|done]]]].
    + intros i' j'. rewrite Hsame. unfold directions. rewrite Hpx, Hth, Hph.
      rewrite (zip_with_zip AtAngles). symmetry. apply lookup_fmap_inj_iff.
      by intros [t f] [t' f'] [= -> ->].
    + intros k. by rewrite length_fmap.
    + intros i' k Hk. unfold line_of_sight_at. rewrite Hpx, Hth, Hph.
      rewrite list_lookup_fmap, (Hback i' k Hk).
      rewrite lookup_zip_with.
      destruct (avalue (conv a th) !! i') as [t|]; [|done]. cbn.
      by destruct (avalue (conv a ph) !! i') as [f|].
    + destruct (Hcol _ Hnone Hcols) as (_ & _ & Heq). apply Hsame in Heq.
      destruct (lookup_lt_is_Some_2
                  (unique_inverse cmp_column
                     (zip (avalue (conv a th)) (avalue (conv a ph)))).2 i)
        as [k Hk].
      { rewrite unique_inverse_length. congruence. }
      exists k. split; [done|]. by rewrite <- Heq.
Qed.

(** *** A pixel beyond the map *)

Lemma normalize_index_error (n : nat) (i : Z) (e : exn) :
  normalize_index n i = Raise e → e = IndexError.
Proof. unfold normalize_index. repeat case_decide; congruence. Qed.

Lemma normalize_indices_outside (n : nat) (idx : list Z) (x : Z) :
  x ∈ idx → ¬ (- Z.of_nat n ≤ x < Z.of_nat n)%Z →
  normalize_indices n idx = Raise IndexError.
Proof.
  intros Hx Hout. induction idx as [|i idx IH]; [by apply elem_of_nil in Hx|].
  cbn. destruct (normalize_index n i) as [j|e] eqn:Hi.
  - apply elem_of_cons in Hx as [->|Hx].
    + unfold normalize_index in Hi. repeat case_decide; try done; lia.
    + by rewrite IH.
  - by rewrite (normalize_index_error n i e Hi).
Qed.

Lemma setitem_outside {A} (a : list A) (idx : list Z) (vals : list A) (x : Z) :
  x ∈ idx → ¬ (- Z.of_nat (length a) ≤ x < Z.of_nat (length a))%Z →
  setitem a idx vals = Raise IndexError.
Proof.
  intros Hx Hout. unfold setitem.
  by rewrite (normalize_indices_outside _ idx x Hx Hout).
Qed.

Lemma binned_rows_outside (self : Zodipy) (a : arguments) (s : shared)
    (unit_vectors : list Vec3) (npix : nat) (unique_pixels : list Z)
    (cs : list (CompLabel * Component)) (x : Z) :
  cs ≠ [] →
  (∀ lc, lc ∈ cs →
     is_Some (_line_of_sights self lc.1) ∧ is_Some (s_spectral s lc.1)) →
  x ∈ unique_pixels → ¬ (- Z.of_nat npix ≤ x < Z.of_nat npix)%Z →
  (binned_rows self a s unit_vectors npix unique_pixels cs).2 = Raise IndexError.
Proof.
  intros Hne Hcs Hx Hout. destruct cs as [|[label component] cs]; [done|].
  destruct (Hcs (label, component)) as [Hlos Hsp]; [by left|].
  destruct (call_trapezoidal_Ok self a s unit_vectors label component Hlos Hsp)
    as [integrated Hint].
  cbn [binned_rows]. rewrite (bind_run_Ok _ _ _ Hint). cbn [snd].
  rewrite (setitem_outside (zeros npix) unique_pixels integrated x Hx)
    by (by rewrite length_zeros).
  reflexivity.
Qed.

Lemma binned_emission_outside (self : Zodipy) (a : arguments) (p : pointing)
    (s : shared) (x : Z) :
  check_arguments a = Ok p → pointing_given a →
  comps (_model self) ≠ [] →
  (∀ lc, lc ∈ comps (_model self) →
     is_Some (_line_of_sights self lc.1) ∧ is_Some (s_spectral s lc.1)) →
  x ∈ pixelized a →
  ¬ (- Z.of_nat (map_size a) ≤ x < Z.of_nat (map_size a))%Z →
  (binned_emission self a p s).2 = Raise IndexError.
Proof.
  intros Hc Hpt Hne Hcs Hx Hout. unfold binned_emission.
  destruct (check_arguments_Ok a p Hc)
    as [(px & ns & Hpx & _ & _ & _ & Hp)|(Hpx & Hp & Hth & Hph & _)].
  - rewrite Hp. cbn [unique_counts]. rewrite rotated_pix2vec_run.
    rewrite bind_run_pair. cbn [fst snd mret Run_ret Run.ret].
    rewrite bind_run_pair. cbn [fst snd]. rewrite bind_emit. cbn [snd].
    rewrite (bind_run_Raise _ _ IndexError); [done|].
    apply (binned_rows_outside _ _ _ _ _ _ _ x); try done.
    apply (elem_of_unique Z.compare Z.compare_eq_iff).
    unfold pixelized in Hx. by rewrite Hpx in Hx.
  - destruct Hpt as [[px' Hpx']|(th & ph & Hth' & Hph' & Hlen)]; [congruence|].
    destruct (columns_Ok a p th ph Hth' Hph' Hlen Hth Hph) as [cols Hcols].
    destruct (columns_of_checked a p cols Hc Hp Hcols)
      as (th0 & ph0 & _ & Hth0 & Hph0 & _ & _ & ->).
    assert (th0 = th) as -> by congruence. assert (ph0 = ph) as -> by congruence.
    rewrite Hp, Hcols, bind_lift_Ok. cbn [unique_counts]. rewrite bind_emit.
    cbn [snd]. rewrite rotated_ang2vec_run.
    rewrite bind_run_pair. cbn [fst snd mret Run_ret Run.ret].
    rewrite bind_run_pair. cbn [fst snd]. rewrite bind_emit. cbn [snd].
    rewrite (bind_run_Raise _ _ IndexError); [done|].
    apply (binned_rows_outside _ _ _ _ _ _ _ x); try done.
    rewrite (pixelized_columns a th ph Hpx Hth' Hph') in Hx.
    apply list_elem_of_fmap in Hx as (c & -> & Hin).
    apply list_elem_of_fmap. exists c. split; [done|].
    by apply (elem_of_unique cmp_column cmp_column_Eq).
Qed.

(** X19: when a requested pixel lies beyond the map, that is above
    [npix - 1] or below [-npix], a binned call that the checks accept raises
    numpy's [IndexError], from the assignment into the map, whereas the same
    call without [binned] returns. *)
Theorem binned_pixel_outside_map_raises (self : Zodipy) (a : arguments) (x : Z) :
  one_value_per_line_of_sight →
  configured self a → pointing_given a →
  lower (obs a) ∈ observers → ¬ invalid_combination a → nside a ≠ None →
  (pixels a ≠ None → lonlat a = false) →
  x ∈ pixelized a →
  ¬ (- Z.of_nat (map_size a) ≤ x < Z.of_nat (map_size a))%Z →
  Run.outcome (get_emission self (with_binned true a)) = Raise IndexError ∧
  ∃ out, Run.outcome (get_emission self (with_binned false a)) = Ok out.
Proof.
  intros Hone Hconf Hpt Hobs Hinv Hns Hll Hx Hout. split.
  - destruct (check_arguments_cases (with_binned true a))
      as [(p & Hc & _)|(msg & _ & Hr)].
    2: { unfold rejected, invalid_combination in *.
         cbn [obs pixels nside theta phi lonlat binned with_binned] in *.
         destruct (lonlat a); intuition congruence. }
    destruct (prepare_Ok self (with_binned true a) Hconf) as (s & Hs & Hsp).
    unfold Run.outcome. rewrite (get_emission_checked self _ p Hc). unfold compute.
    rewrite (bind_run_Ok _ _ _ Hs). cbn [fst snd binned with_binned].
    rewrite (bind_run_Raise _ _ IndexError); [done|].
    apply (binned_emission_outside self (with_binned true a) p s x); try done.
    + destruct Hconf as [[cloud Hcloud] _]. intros Hnil.
      cbn [comps _model with_binned] in *. rewrite Hnil in Hcloud. done.
    + intros lc Hlc. rewrite Hsp. by apply Hconf.
  - destruct (check_arguments_cases (with_binned false a))
      as [(p & Hc & _)|(msg & _ & Hr)].
    2: { unfold rejected, invalid_combination in *.
         cbn [obs pixels nside theta phi lonlat binned with_binned] in *.
         destruct (lonlat a); intuition congruence. }
    by apply (timestream_returns self (with_binned false a) p).
Qed.

End Interface.
End EmissionFacts.

(** ** Concrete calls, continued *)

Module EmissionScenarios.
Import Arrays ArraysFacts RunFacts Zodipy ZodipyFacts EmissionFacts.
Import Sample Scenarios.

Lemma sample_one_value_per_line_of_sight : one_value_per_line_of_sight.
Proof. intros ?????????????. cbn. by rewrite length_fmap. Qed.

Lemma sample_configured (a : arguments) : configured interface a.
Proof.
  split; [by exists tt|]. intros lc _. split; by eexists.
Qed.

Lemma earth_supported : lower "earth" ∈ observers.
Proof. apply (bool_decide_unpack _). vm_compute. exact I. Qed.

Lemma spacecraft_unsupported : lower "spacecraft" ∉ observers.
Proof. apply (bool_decide_unpack _). vm_compute. exact I. Qed.

Lemma repeated_direction_integrated_once_witness :
  binned (call_pixels (Frequency 25e12) [3; 1; 3]%Z 1 false) = false ∧
  get_emission interface (call_pixels (Frequency 25e12) [3; 1; 3]%Z 1 false)
  = ([EvGetBody "Earth"; EvGetBody "earth"; EvInterpPhaseCoeffs;
      EvInterpSpectralParams; EvPix2Vec 2;
      EvTrapezoidal CLOUD (mkVec3 1 0 0) (mkVec3 1 0 0)
        [mkVec3 (1 + 1) 0 0; mkVec3 (3 + 1) 0 0];
      EvTrapezoidal RING (mkVec3 1 0 0) (mkVec3 1 0 0)
        [mkVec3 (1 + 1) 0 0; mkVec3 (3 + 1) 0 0]],
     Ok (PerComponent [[4e20; 2e20; 4e20]; [4e20; 2e20; 4e20]])) ∧
  requested (call_pixels (Frequency 25e12) [3; 1; 3]%Z 1 false) !! 0%nat = Some (AtPixel 3) ∧
  requested (call_pixels (Frequency 25e12) [3; 1; 3]%Z 1 false) !! 2%nat = Some (AtPixel 3) ∧
  (∀ row,
     row ∈ out_rows (PerComponent [[4e20; 2e20; 4e20]; [4e20; 2e20; 4e20]]) →
     ∃ v, row !! 0%nat = Some v ∧ row !! 2%nat = Some v) ∧
  ∃ s unit_vectors indicies rows,
    Run.outcome (prepare interface (call_pixels (Frequency 25e12) [3; 1; 3]%Z 1 false)) = Ok s ∧
    Run.trace (get_emission interface (call_pixels (Frequency 25e12) [3; 1; 3]%Z 1 false))
    = Run.trace (resolve_positions (call_pixels (Frequency 25e12) [3; 1; 3]%Z 1 false))
        ++ [EvInterpPhaseCoeffs; EvInterpSpectralParams]
        ++ healpy_events (call_pixels (Frequency 25e12) [3; 1; 3]%Z 1 false) (length unit_vectors)
        ++ integrator_events interface (s_observer_pos s) (s_earth_pos s)
             unit_vectors ∧
    length indicies = length (requested (call_pixels (Frequency 25e12) [3; 1; 3]%Z 1 false)) ∧
    (∀ i' j', indicies !! i' = indicies !! j'
              ↔ directions (call_pixels (Frequency 25e12) [3; 1; 3]%Z 1 false) !! i' = directions (call_pixels (Frequency 25e12) [3; 1; 3]%Z 1 false) !! j') ∧
    (∀ k, (k < length unit_vectors)%nat ↔ ∃ i', indicies !! i' = Some k) ∧
    (∀ i' k, indicies !! i' = Some k →
             unit_vectors !! k = line_of_sight_at (call_pixels (Frequency 25e12) [3; 1; 3]%Z 1 false) i') ∧
    (∃ k, indicies !! 0%nat = Some k ∧ indicies !! 2%nat = Some k) ∧
    Forall2 (λ lc row, ∃ integrated,
               Run.outcome
                 (call_trapezoidal interface (call_pixels (Frequency 25e12) [3; 1; 3]%Z 1 false) s unit_vectors lc.1 lc.2)
                 = Ok integrated ∧
               length row = length indicies ∧
               ∀ i' k, indicies !! i' = Some k →
                       ∃ v, integrated !! k = Some v ∧ row !! i' = Some v)
      (comps (_model interface)) rows ∧
    PerComponent [[4e20; 2e20; 4e20]; [4e20; 2e20; 4e20]]
    = finish (call_pixels (Frequency 25e12) [3; 1; 3]%Z 1 false) (length (requested (call_pixels (Frequency 25e12) [3; 1; 3]%Z 1 false))) rows.
Proof.
  assert (Hrun : get_emission interface (call_pixels (Frequency 25e12) [3; 1; 3]%Z 1 false)
                 = ([EvGetBody "Earth"; EvGetBody "earth"; EvInterpPhaseCoeffs;
                     EvInterpSpectralParams; EvPix2Vec 2;
                     EvTrapezoidal CLOUD (mkVec3 1 0 0) (mkVec3 1 0 0)
                       [mkVec3 (1 + 1) 0 0; mkVec3 (3 + 1) 0 0];
                     EvTrapezoidal RING (mkVec3 1 0 0) (mkVec3 1 0 0)
                       [mkVec3 (1 + 1) 0 0; mkVec3 (3 + 1) 0 0]],
                    Ok (PerComponent [[4e20; 2e20; 4e20]; [4e20; 2e20; 4e20]]))).
  { run_model. apply (f_equal2 pair); [reflexivity|]. same_cells. }
  split; [reflexivity|]. split; [exact Hrun|].
  split; [reflexivity|]. split; [reflexivity|].
  exact (repeated_direction_integrated_once interface (call_pixels (Frequency 25e12) [3; 1; 3]%Z 1 false) _ 0 2 (AtPixel 3)
           eq_refl (f_equal snd Hrun) eq_refl eq_refl).
Defined.


Lemma explicit_position_overrides_observer_witness :
  get_emission interface (call_at "earth" (mkVec3 0 2 0) [0]%Z 1)
  = ([EvGetBody "Earth"; EvInterpPhaseCoeffs; EvInterpSpectralParams; EvPix2Vec 1;
      EvTrapezoidal CLOUD (mkVec3 0 2 0) (mkVec3 1 0 0) [mkVec3 (0 + 1) 0 0];
      EvTrapezoidal RING (mkVec3 0 2 0) (mkVec3 1 0 0) [mkVec3 (0 + 1) 0 0]],
     Ok (Total [2e20])) ∧
  ((¬ rejected (call_at "earth" (mkVec3 0 2 0) [0]%Z 1) →
    ∃ t, Run.trace (get_emission interface (call_at "earth" (mkVec3 0 2 0) [0]%Z 1)) = EvGetBody "Earth" :: t) ∧
   Forall (from_positions (get_body "Earth" tt) (mkVec3 0 2 0))
     (Run.trace (get_emission interface (call_at "earth" (mkVec3 0 2 0) [0]%Z 1))) ∧
   (∀ out, Run.outcome (get_emission interface (call_at "earth" (mkVec3 0 2 0) [0]%Z 1)) = Ok out →
      comps (_model interface) ≠ [] ∧
      ∃ unit_vectors,
        length unit_vectors = distinct_directions (call_at "earth" (mkVec3 0 2 0) [0]%Z 1) ∧
        Run.trace (get_emission interface (call_at "earth" (mkVec3 0 2 0) [0]%Z 1))
        = [EvGetBody "Earth"; EvInterpPhaseCoeffs; EvInterpSpectralParams]
            ++ healpy_events (call_at "earth" (mkVec3 0 2 0) [0]%Z 1) (distinct_directions (call_at "earth" (mkVec3 0 2 0) [0]%Z 1))
            ++ integrator_events interface (mkVec3 0 2 0) (get_body "Earth" tt)
                 unit_vectors) ∧
   (lower (obs (call_at "earth" (mkVec3 0 2 0) [0]%Z 1)) ∉ observers →
    get_emission interface (call_at "earth" (mkVec3 0 2 0) [0]%Z 1)
    = ([], Raise (ValueError (MsgUnsupportedObserver "earth" "de432s"))))) ∧
  get_emission interface (call_at "spacecraft" (mkVec3 0 2 0) [0]%Z 1)
  = ([], Raise (ValueError (MsgUnsupportedObserver "spacecraft" "de432s"))).
Proof.
  split; [run_model; apply (f_equal2 pair); [reflexivity|]; same_cells|]. split.
  - exact (explicit_position_overrides_observer interface (call_at "earth" (mkVec3 0 2 0) [0]%Z 1)
             (mkVec3 0 2 0) eq_refl).
  - apply (explicit_position_overrides_observer interface (call_at "spacecraft" (mkVec3 0 2 0) [0]%Z 1)
             (mkVec3 0 2 0) eq_refl).
    exact spacecraft_unsupported.
Defined.

Lemma missing_pointing_raises_after_preparation_witness :
  get_emission interface (call_from "earth" None None None None false)
  = (Run.trace (resolve_positions (call_from "earth" None None None None false))
       ++ [EvInterpPhaseCoeffs; EvInterpSpectralParams],
     Raise AxisError).
Proof.
  apply (missing_pointing_raises_after_preparation interface
           (call_from "earth" None None None None false) tt).
  - exact earth_supported.
  - reflexivity.
  - reflexivity.
  - reflexivity.
  - discriminate.
  - reflexivity.
Defined.

Lemma accepted_call_returns_shaped_witness :
  ∃ out,
    Run.outcome
      (get_emission interface (call_pixels (Frequency 25e12) [3; 1; 3]%Z 1 true))
    = Ok out ∧
    length (out_rows out)
    = (if return_comps (call_pixels (Frequency 25e12) [3; 1; 3]%Z 1 true)
       then length (comps (_model interface)) else 1%nat) ∧
    Forall (λ row, length row
                   = if binned (call_pixels (Frequency 25e12) [3; 1; 3]%Z 1 true)
                     then map_size (call_pixels (Frequency 25e12) [3; 1; 3]%Z 1 true)
                     else length (requested
                                    (call_pixels (Frequency 25e12) [3; 1; 3]%Z 1 true)))
      (out_rows out).
Proof.
  apply (accepted_call_returns_shaped interface
           (call_pixels (Frequency 25e12) [3; 1; 3]%Z 1 true)).
  - exact sample_one_value_per_line_of_sight.
  - apply sample_configured.
  - left. by eexists.
  - intros px [= <-]. discriminate.
  - discriminate.
  - exact earth_supported.
  - unfold invalid_combination. cbn. intuition congruence.
  - reflexivity.
  - intros _. change (map_size _) with 12%nat.
    change (pixelized _) with [3; 1; 3]%Z. repeat constructor; lia.
Defined.

Lemma total_is_sum_of_components_witness :
  Run.outcome
    (get_emission interface
       (with_return_comps true (call_pixels (Frequency 25e12) [3; 1; 3]%Z 1 false)))
  = Ok (PerComponent [[4e20; 2e20; 4e20]; [4e20; 2e20; 4e20]]) ∧
  ∃ total,
    get_emission interface
      (with_return_comps false (call_pixels (Frequency 25e12) [3; 1; 3]%Z 1 false))
    = (Run.trace
         (get_emission interface
            (with_return_comps true
               (call_pixels (Frequency 25e12) [3; 1; 3]%Z 1 false))),
       Ok (Total total)) ∧
    Forall (λ row, length row = length total)
      [[4e20; 2e20; 4e20]; [4e20; 2e20; 4e20]] ∧
    ∀ i col,
      Forall2 (λ row v, row !! i = Some v)
        [[4e20; 2e20; 4e20]; [4e20; 2e20; 4e20]] col →
      total !! i = Some (Numpy.sum col).
Proof.
  assert (Hrun : Run.outcome
                   (get_emission interface
                      (with_return_comps true
                         (call_pixels (Frequency 25e12) [3; 1; 3]%Z 1 false)))
                 = Ok (PerComponent [[4e20; 2e20; 4e20]; [4e20; 2e20; 4e20]])).
  { run_model. same_cells. }
  split; [exact Hrun|].
  exact (total_is_sum_of_components interface
           (call_pixels (Frequency 25e12) [3; 1; 3]%Z 1 false) _ Hrun).
Defined.

Lemma one_integration_per_component_witness :
  get_emission interface (call_galactic [3; 1; 3]%Z 1 true)
  = ([EvGetBody "Earth"; EvGetBody "earth"; EvInterpPhaseCoeffs;
      EvInterpSpectralParams; EvPix2Vec 2; EvRotator G; EvNside2Npix 1;
      EvTrapezoidal CLOUD (mkVec3 1 0 0) (mkVec3 1 0 0)
        [mkVec3 (- (1 + 1)) (- 0) 0; mkVec3 (- (3 + 1)) (- 0) 0];
      EvTrapezoidal RING (mkVec3 1 0 0) (mkVec3 1 0 0)
        [mkVec3 (- (1 + 1)) (- 0) 0; mkVec3 (- (3 + 1)) (- 0) 0]],
     Ok (PerComponent
           [[0; -2e20; 0; -8e20; 0; 0; 0; 0; 0; 0; 0; 0];
            [0; -2e20; 0; -8e20; 0; 0; 0; 0; 0; 0; 0; 0]])) ∧
  ∃ s unit_vectors,
    Run.outcome (prepare interface (call_galactic [3; 1; 3]%Z 1 true)) = Ok s ∧
    length unit_vectors = distinct_directions (call_galactic [3; 1; 3]%Z 1 true) ∧
    Run.trace (get_emission interface (call_galactic [3; 1; 3]%Z 1 true))
    = Run.trace (resolve_positions (call_galactic [3; 1; 3]%Z 1 true))
        ++ [EvInterpPhaseCoeffs; EvInterpSpectralParams]
        ++ healpy_events (call_galactic [3; 1; 3]%Z 1 true) (distinct_directions (call_galactic [3; 1; 3]%Z 1 true))
        ++ integrator_events interface (s_observer_pos s) (s_earth_pos s)
             unit_vectors.
Proof.
  assert (Hrun : get_emission interface (call_galactic [3; 1; 3]%Z 1 true)
                 = ([EvGetBody "Earth"; EvGetBody "earth"; EvInterpPhaseCoeffs;
                     EvInterpSpectralParams; EvPix2Vec 2; EvRotator G; EvNside2Npix 1;
                     EvTrapezoidal CLOUD (mkVec3 1 0 0) (mkVec3 1 0 0)
                       [mkVec3 (- (1 + 1)) (- 0) 0; mkVec3 (- (3 + 1)) (- 0) 0];
                     EvTrapezoidal RING (mkVec3 1 0 0) (mkVec3 1 0 0)
                       [mkVec3 (- (1 + 1)) (- 0) 0; mkVec3 (- (3 + 1)) (- 0) 0]],
                    Ok (PerComponent
                          [[0; -2e20; 0; -8e20; 0; 0; 0; 0; 0; 0; 0; 0];
                           [0; -2e20; 0; -8e20; 0; 0; 0; 0; 0; 0; 0; 0]]))).
  { run_model. apply (f_equal2 pair); [reflexivity|]. same_cells. }
  split; [exact Hrun|].
  exact (one_integration_per_component interface (call_galactic [3; 1; 3]%Z 1 true) _ (f_equal snd Hrun)).
Defined.

Lemma timestream_value_of_request_witness :
  Run.outcome
    (get_emission interface (call_pixels (Frequency 25e12) [3; 1; 3]%Z 1 false))
  = Ok (PerComponent [[4e20; 2e20; 4e20]; [4e20; 2e20; 4e20]]) ∧
  line_of_sight_at (call_pixels (Frequency 25e12) [3; 1; 3]%Z 1 false) 0
  = Some (mkVec3 (3 + 1) 0 0) ∧
  ∃ s unit_vectors integrated k v row,
    Run.outcome (prepare interface (call_pixels (Frequency 25e12) [3; 1; 3]%Z 1 false))
      = Ok s ∧
    length unit_vectors
      = distinct_directions (call_pixels (Frequency 25e12) [3; 1; 3]%Z 1 false) ∧
    Run.outcome
      (call_trapezoidal interface (call_pixels (Frequency 25e12) [3; 1; 3]%Z 1 false)
         s unit_vectors CLOUD tt)
      = Ok integrated ∧
    unit_vectors !! k = Some (mkVec3 (3 + 1) 0 0) ∧
    integrated !! k = Some v ∧
    [[4e20; 2e20; 4e20]; [4e20; 2e20; 4e20]] !! 0%nat = Some row ∧
    row !! 0%nat = Some (v * 1e20).
Proof.
  assert (Hrun : Run.outcome
                   (get_emission interface
                      (call_pixels (Frequency 25e12) [3; 1; 3]%Z 1 false))
                 = Ok (PerComponent [[4e20; 2e20; 4e20]; [4e20; 2e20; 4e20]])).
  { run_model. same_cells. }
  split; [exact Hrun|]. split; [reflexivity|].
  exact (timestream_value_of_request interface
           (call_pixels (Frequency 25e12) [3; 1; 3]%Z 1 false) _ 0 CLOUD tt 0
           (mkVec3 (3 + 1) 0 0) eq_refl eq_refl Hrun eq_refl eq_refl).
Defined.

Lemma binned_pixel_outside_map_raises_witness :
  12%Z ∈ pixelized (call_pixels (Frequency 25e12) [12]%Z 1 false) ∧
  map_size (call_pixels (Frequency 25e12) [12]%Z 1 false) = 12%nat ∧
  Run.outcome
    (get_emission interface
       (with_binned true (call_pixels (Frequency 25e12) [12]%Z 1 false)))
  = Raise IndexError ∧
  ∃ out,
    Run.outcome
      (get_emission interface
         (with_binned false (call_pixels (Frequency 25e12) [12]%Z 1 false)))
    = Ok out.
Proof.
  assert (Hin : 12%Z ∈ pixelized (call_pixels (Frequency 25e12) [12]%Z 1 false)).
  { change (pixelized _) with [12]%Z. by left. }
  split; [exact Hin|]. split; [reflexivity|].
  apply (binned_pixel_outside_map_raises interface
           (call_pixels (Frequency 25e12) [12]%Z 1 false) 12).
  - exact sample_one_value_per_line_of_sight.
  - apply sample_configured.
  - left. by eexists.
  - exact earth_supported.
  - unfold invalid_combination. cbn. intuition congruence.
  - discriminate.
  - reflexivity.
  - exact Hin.
  - change (map_size _) with 12%nat. lia.
Defined.

Lemma binned_cell_of_one_direction_witness :
  Run.outcome
    (get_emission interface
       (with_binned true (call_pixels (Frequency 25e12) [3; 1; 3]%Z 1 false)))
  = Ok (PerComponent
          [[0; 2e20; 0; 8e20; 0; 0; 0; 0; 0; 0; 0; 0];
           [0; 2e20; 0; 8e20; 0; 0; 0; 0; 0; 0; 0; 0]]) ∧
  Run.outcome
    (get_emission interface
       (with_binned false (call_pixels (Frequency 25e12) [3; 1; 3]%Z 1 false)))
  = Ok (PerComponent [[4e20; 2e20; 4e20]; [4e20; 2e20; 4e20]]) ∧
  Forall2 (λ mrow trow,
             ∃ v, trow !! 0%nat = Some v ∧
                  mrow !! Z.to_nat 3
                  = Some (v * INR (occurrences Z.compare 3%Z
                                     (pixelized
                                        (call_pixels (Frequency 25e12)
                                           [3; 1; 3]%Z 1 false)))))
    [[0; 2e20; 0; 8e20; 0; 0; 0; 0; 0; 0; 0; 0];
     [0; 2e20; 0; 8e20; 0; 0; 0; 0; 0; 0; 0; 0]]
    [[4e20; 2e20; 4e20]; [4e20; 2e20; 4e20]].
Proof.
  assert (Hmap : Run.outcome
                   (get_emission interface
                      (with_binned true
                         (call_pixels (Frequency 25e12) [3; 1; 3]%Z 1 false)))
                 = Ok (PerComponent
                         [[0; 2e20; 0; 8e20; 0; 0; 0; 0; 0; 0; 0; 0];
                          [0; 2e20; 0; 8e20; 0; 0; 0; 0; 0; 0; 0; 0]])).
  { run_model. same_cells. }
  assert (Hts : Run.outcome
                  (get_emission interface
                     (with_binned false
                        (call_pixels (Frequency 25e12) [3; 1; 3]%Z 1 false)))
                = Ok (PerComponent [[4e20; 2e20; 4e20]; [4e20; 2e20; 4e20]])).
  { run_model. same_cells. }
  split; [exact Hmap|]. split; [exact Hts|].
  apply (binned_cell_of_one_direction interface
           (call_pixels (Frequency 25e12) [3; 1; 3]%Z 1 false) _ _ 0 (AtPixel 3) 3
           sample_one_value_per_line_of_sight eq_refl).
  - change (map_size _) with 12%nat. change (pixelized _) with [3; 1; 3]%Z.
    repeat constructor; lia.
  - exact Hmap.
  - exact Hts.
  - reflexivity.
  - reflexivity.
  - change (pixelized _) with [3; 1; 3]%Z.
    intros [|[|[|j]]] Hj; cbn in Hj; first [reflexivity | discriminate].
Defined.

Lemma binned_matches_timestream_witness :
  Run.outcome
    (get_emission interface
       (with_binned true (call_pixels (Frequency 25e12) [3; 1]%Z 1 false)))
  = Ok (PerComponent
          [[0; 2e20; 0; 4e20; 0; 0; 0; 0; 0; 0; 0; 0];
           [0; 2e20; 0; 4e20; 0; 0; 0; 0; 0; 0; 0; 0]]) ∧
  Run.outcome
    (get_emission interface
       (with_binned false (call_pixels (Frequency 25e12) [3; 1]%Z 1 false)))
  = Ok (PerComponent [[4e20; 2e20]; [4e20; 2e20]]) ∧
  Forall2 (λ mrow trow,
             ∀ i p, pixel_sequence (PixSeq [3; 1]%Z) !! i = Some p →
               ∃ v, trow !! i = Some v ∧ mrow !! Z.to_nat p = Some v)
    [[0; 2e20; 0; 4e20; 0; 0; 0; 0; 0; 0; 0; 0];
     [0; 2e20; 0; 4e20; 0; 0; 0; 0; 0; 0; 0; 0]]
    [[4e20; 2e20]; [4e20; 2e20]].
Proof.
  assert (Hmap : Run.outcome
                   (get_emission interface
                      (with_binned true
                         (call_pixels (Frequency 25e12) [3; 1]%Z 1 false)))
                 = Ok (PerComponent
                         [[0; 2e20; 0; 4e20; 0; 0; 0; 0; 0; 0; 0; 0];
                          [0; 2e20; 0; 4e20; 0; 0; 0; 0; 0; 0; 0; 0]])).
  { run_model. same_cells. }
  assert (Hts : Run.outcome
                  (get_emission interface
                     (with_binned false
                        (call_pixels (Frequency 25e12) [3; 1]%Z 1 false)))
                = Ok (PerComponent [[4e20; 2e20]; [4e20; 2e20]])).
  { run_model. same_cells. }
  split; [exact Hmap|]. split; [exact Hts|].
  apply (binned_matches_timestream interface
           (call_pixels (Frequency 25e12) [3; 1]%Z 1 false) (PixSeq [3; 1]%Z) _ _
           sample_one_value_per_line_of_sight eq_refl eq_refl).
  - cbn [pixel_sequence]. repeat constructor; rewrite ?elem_of_cons, ?elem_of_nil; lia.
  - change (map_size _) with 12%nat. cbn [pixel_sequence]. repeat constructor; lia.
  - exact Hmap.
  - exact Hts.
Defined.

End EmissionScenarios.
